(** * Free Block Engine: the block graph store, its link reconciler, its
      serializer and the connector geometry, embedded from the JavaScript
      sources (class [Block], class [BlockEngine], and
      [BlockRenderer.getConnectionPoint]).

    Conventions of the embedding.
    - A JavaScript [Map] is an insertion-ordered association list
      ([JsMap.t]): [set] on a present key replaces the value in place, [set]
      on an absent key appends, [delete] removes the entry.
    - JavaScript numbers are exact rationals ([Q]).  Rounding error, NaN and
      the infinities are outside the model; a division appears as [Qdiv] and
      every statement that goes through one assumes or establishes that the
      divisor is not zero.
    - [new Date().toISOString()], [Date.now()] and [Math.random()] are reads
      of the host: the engine state counts the reads ([clock]) and a [Host]
      gives the value of each one.
    - [emit] is recorded as a log of published events ([published]); the
      listeners themselves are not part of the model.
    - A method that mutates a block through a reference obtained from
      [this.blocks] is an update of the entry stored under that key
      ([on_block]); two keys never hold the same object. *)

From Stdlib Require Import List String Bool Arith ZArith QArith Qround Qabs Lia Lqa.
Import ListNotations.

Local Open Scope string_scope.

(* ------------------------------------------------------------------ *)
(** ** Insertion-ordered maps with string keys *)

Module JsMap.

Definition t (V : Type) : Type := list (string * V).

Definition empty {V} : t V := [].

Fixpoint get {V} (k : string) (m : t V) : option V :=
  match m with
  | [] => None
  | (k', v) :: m' => if String.eqb k k' then Some v else get k m'
  end.

Definition has {V} (k : string) (m : t V) : bool :=
  match get k m with Some _ => true | None => false end.

Fixpoint set {V} (k : string) (v : V) (m : t V) : t V :=
  match m with
  | [] => [(k, v)]
  | (k', v') :: m' =>
      if String.eqb k k' then (k', v) :: m' else (k', v') :: set k v m'
  end.

Fixpoint delete {V} (k : string) (m : t V) : t V :=
  match m with
  | [] => []
  | (k', v') :: m' =>
      if String.eqb k k' then delete k m' else (k', v') :: delete k m'
  end.

Definition keys {V} (m : t V) : list string := map fst m.

Definition values {V} (m : t V) : list V := map snd m.

Definition entries {V} (m : t V) : list (string * V) := m.

End JsMap.

(* ------------------------------------------------------------------ *)
(** ** Numbers *)

(** [a > b] on numbers. *)
Definition js_gt (a b : Q) : bool := negb (Qle_bool a b).

(** [Math.round]: the closest integer, the one closer to +infinity when two
    are equally close. *)
Definition Math_round (q : Q) : Q := inject_Z (Qfloor (q + (1 # 2))).

(** [Math.max] of two numbers. *)
Definition Math_max (a b : Q) : Q := if Qle_bool a b then b else a.

(** [Math.abs]. *)
Definition Math_abs (q : Q) : Q := Qabs q.

(** [Math.sign]. *)
Definition Math_sign (q : Q) : Q :=
  if js_gt q 0 then 1 else if js_gt 0 q then (-1) else 0.

(* ------------------------------------------------------------------ *)
(** ** Data model *)

Record Position := { pos_x : Q; pos_y : Q }.

Record Size := { width : Q; height : Q }.

Record Metadata := { createdAt : string; updatedAt : string }.

(** The value of a [links] entry: [{ type, createdAt }].  An entry imported
    from an object without [createdAt] has none. *)
Record LinkMeta := { link_type : string; link_createdAt : option string }.

Record Block := {
  id : string;
  content : string;
  type : string;
  links : JsMap.t LinkMeta;
  position : Position;
  size : Size;
  metadata : Metadata
}.

Record Settings := {
  gridSize : Q;
  defaultSpacing : Q;
  minBlockWidth : Q;
  minBlockHeight : Q
}.

(** What [emit] publishes.  A payload that is a block object is recorded by
    the block's id. *)
Inductive Event :=
| blockCreated (block : string)
| blockMoved (block : string)
| blockResized (block : string)
| blockUpdated (block : string)
| blocksLinked (from to linkType : string)
| blocksUnlinked (fromId toId : string)
| blockDeleted (blockId : string)
| blocksArranged (count : nat)
| blocksImported (count : nat).

Record Engine := {
  blocks : JsMap.t Block;
  settings : Settings;
  published : list Event;
  clock : nat
}.

(** The result of [getLinkInfo]. *)
Record LinkInfo := { info_type : string; info_from : string; info_to : string }.

(** The host: the value of the [n]-th reading of the date as an ISO string,
    and the id [generateId] builds from the [n]-th reading of [Date.now()]
    and [Math.random()]. *)
Class Host := {
  host_toISOString : nat -> string;
  host_generateId : nat -> string
}.

(* ------------------------------------------------------------------ *)
(** ** State passing *)

Definition ST (S A : Type) : Type := S -> A * S.

Definition ret {S A} (a : A) : ST S A := fun s => (a, s).

Definition bind {S A B} (m : ST S A) (k : A -> ST S B) : ST S B :=
  fun s => let (a, s') := m s in k a s'.

Definition gets {S A} (f : S -> A) : ST S A := fun s => (f s, s).

Definition modify {S} (f : S -> S) : ST S unit := fun s => (tt, f s).

Declare Scope st_scope.
Delimit Scope st_scope with st.
Notation "x <- c1 ;; c2" := (bind c1 (fun x => c2))
  (at level 61, c1 at next level, right associativity) : st_scope.
Notation "c1 ;; c2" := (bind c1 (fun _ => c2))
  (at level 61, right associativity) : st_scope.

(** [list.forEach(f)]. *)
Fixpoint forEach {S A} (l : list A) (f : A -> ST S unit) : ST S unit :=
  match l with
  | [] => ret tt
  | a :: l' => bind (f a) (fun _ => forEach l' f)
  end.

Definition set_blocks (f : JsMap.t Block -> JsMap.t Block) (e : Engine) : Engine :=
  {| blocks := f (blocks e); settings := settings e;
     published := published e; clock := clock e |}.

Definition set_settings (f : Settings -> Settings) (e : Engine) : Engine :=
  {| blocks := blocks e; settings := f (settings e);
     published := published e; clock := clock e |}.

Definition set_links (f : JsMap.t LinkMeta -> JsMap.t LinkMeta) (b : Block) : Block :=
  {| id := id b; content := content b; type := type b; links := f (links b);
     position := position b; size := size b; metadata := metadata b |}.

Definition touch (now : string) (b : Block) : Block :=
  {| id := id b; content := content b; type := type b; links := links b;
     position := position b; size := size b;
     metadata := {| createdAt := createdAt (metadata b); updatedAt := now |} |}.

(* ------------------------------------------------------------------ *)
(** ** Documents

    [importFromJSON] reads the value [JSON.parse] returns.  The model takes
    that value, by shape: the text did not parse; it parsed to [null]; or it
    parsed to a value whose [settings] and [blocks] properties are read.  A
    property the code guards ([||], [Array.isArray], a default parameter, a
    truthiness test) may be absent; [id] and [metadata], which the code
    copies unguarded, are present, as in every exported record.  A [null]
    element of an array is an element whose property access throws. *)

Inductive LinkEntry :=
| link_string (id : string)
| link_object (id : string) (type : option string) (createdAt : option string)
| link_null.

Record BlockRecord := {
  rec_id : string;
  rec_content : option string;
  rec_type : option string;
  rec_links : option (list LinkEntry);   (* [None]: absent or not an array *)
  rec_position : option Position;
  rec_size : option Size;
  rec_metadata : Metadata
}.

Inductive BlockEntry :=
| block_object (blockData : BlockRecord)
| block_null.

Record SettingsRecord := {
  set_gridSize : option Q;
  set_defaultSpacing : option Q;
  set_minBlockWidth : option Q;
  set_minBlockHeight : option Q
}.

Record Document := {
  doc_blocks : option (list BlockEntry);   (* [None]: absent or not an array *)
  doc_settings : option SettingsRecord;
  doc_exportedAt : option string
}.

Inductive Json :=
| json_invalid                  (* [JSON.parse] throws *)
| json_null                     (* the text is [null] *)
| json_value (data : Document).

(** [Object.assign(settings, patch)]. *)
Definition Object_assign (patch : SettingsRecord) (s : Settings) : Settings :=
  {| gridSize := match set_gridSize patch with Some v => v | None => gridSize s end;
     defaultSpacing :=
       match set_defaultSpacing patch with Some v => v | None => defaultSpacing s end;
     minBlockWidth :=
       match set_minBlockWidth patch with Some v => v | None => minBlockWidth s end;
     minBlockHeight :=
       match set_minBlockHeight patch with Some v => v | None => minBlockHeight s end |}.

(** [v || 'single'] on an optional string: absent and the empty string are
    falsy. *)
Definition or_single (v : option string) : string :=
  match v with
  | None => "single"
  | Some t => if t =? "" then "single" else t
  end.

(* ------------------------------------------------------------------ *)
(** ** Rectangles of the renderer *)

Record Rect := { rect_left : Q; rect_top : Q; rect_width : Q; rect_height : Q }.

Record Point := { pt_x : Q; pt_y : Q }.

(** The container element: its bounding rectangle and its scroll offsets. *)
Record Container := { containerRect : Rect; scrollLeft : Q; scrollTop : Q }.

Section Model.
Context {host : Host}.
Local Open Scope st_scope.

(** [new Date().toISOString()]. *)
Definition now : ST Engine string :=
  fun e => (host_toISOString (clock e),
            {| blocks := blocks e; settings := settings e;
               published := published e; clock := S (clock e) |}).

(** [this.emit(event, data)]. *)
Definition emit (ev : Event) : ST Engine unit :=
  fun e => (tt, {| blocks := blocks e; settings := settings e;
                   published := published e ++ [ev]; clock := clock e |}).

(* ---------------- class Block ---------------- *)

(** [new Block(id, content, type)]. *)
Definition Block_new (id content type : string) : ST Engine Block :=
  c <- now ;;
  u <- now ;;
  ret {| id := id; content := content; type := type;
         links := JsMap.empty;
         position := {| pos_x := 0; pos_y := 0 |};
         size := {| width := 250; height := 250 |};
         metadata := {| createdAt := c; updatedAt := u |} |}.

Definition Block_setContent (content' : string) (b : Block) : ST Engine Block :=
  u <- now ;;
  ret (touch u {| id := id b; content := content'; type := type b;
                  links := links b; position := position b; size := size b;
                  metadata := metadata b |}).

Definition Block_setPosition (x y : Q) (b : Block) : ST Engine Block :=
  u <- now ;;
  ret (touch u {| id := id b; content := content b; type := type b;
                  links := links b; position := {| pos_x := x; pos_y := y |};
                  size := size b; metadata := metadata b |}).

Definition Block_setSize (w h : Q) (b : Block) : ST Engine Block :=
  u <- now ;;
  ret (touch u {| id := id b; content := content b; type := type b;
                  links := links b; position := position b;
                  size := {| width := w; height := h |};
                  metadata := metadata b |}).

Definition Block_addLink (blockId linkType : string) (b : Block) : ST Engine Block :=
  c <- now ;;
  u <- now ;;
  ret (touch u (set_links
         (JsMap.set blockId {| link_type := linkType; link_createdAt := Some c |}) b)).

Definition Block_removeLink (blockId : string) (b : Block) : ST Engine Block :=
  u <- now ;;
  ret (touch u (set_links (JsMap.delete blockId) b)).

Definition Block_hasLink (blockId : string) (b : Block) : bool :=
  JsMap.has blockId (links b).

Definition Block_getLinkType (blockId : string) (b : Block) : option string :=
  match JsMap.get blockId (links b) with
  | Some link => Some (link_type link)
  | None => None
  end.

(* ---------------- class BlockEngine ---------------- *)

(** [new BlockEngine()], on a host that has been read [n] times. *)
Definition BlockEngine_new (n : nat) : Engine :=
  {| blocks := JsMap.empty;
     settings := {| gridSize := 20; defaultSpacing := 300;
                    minBlockWidth := 150; minBlockHeight := 100 |};
     published := [];
     clock := n |}.

Definition generateId : ST Engine string :=
  fun e => (host_generateId (clock e),
            {| blocks := blocks e; settings := settings e;
               published := published e; clock := S (clock e) |}).

Definition getBlock (id : string) (e : Engine) : option Block :=
  JsMap.get id (blocks e).

Definition getAllBlocks (e : Engine) : list Block := JsMap.values (blocks e).

(** A method call on the block object stored under [id]: the call runs on
    the stored value and the object is seen changed under the same key. *)
Definition on_block (id : string) (method : Block -> ST Engine Block) : ST Engine unit :=
  block <- gets (getBlock id) ;;
  match block with
  | None => ret tt
  | Some b =>
      b' <- method b ;;
      modify (set_blocks (JsMap.set id b'))
  end.

(** One turn of the scan in [getAutoPosition]. *)
Definition rightmost_step (acc : Q * Q) (block : Block) : Q * Q :=
  if js_gt (pos_x (position block)) (fst acc)
  then (pos_x (position block), pos_y (position block))
  else acc.

Definition getAutoPosition (e : Engine) : Position :=
  match getAllBlocks e with
  | [] => {| pos_x := 50; pos_y := 50 |}
  | bs =>
      let m := fold_left rightmost_step bs (0, 50) in
      {| pos_x := fst m + defaultSpacing (settings e); pos_y := snd m |}
  end.

Definition createBlock (content type : string)
    (position : option Position) (size : option Size) : ST Engine Block :=
  id <- generateId ;;
  block <- Block_new id content type ;;
  block <- match position with
           | Some p => Block_setPosition (pos_x p) (pos_y p) block
           | None =>
               autoPos <- gets getAutoPosition ;;
               Block_setPosition (pos_x autoPos) (pos_y autoPos) block
           end ;;
  block <- match size with
           | Some s => Block_setSize (width s) (height s) block
           | None => ret block
           end ;;
  modify (set_blocks (JsMap.set id block)) ;;
  emit (blockCreated id) ;;
  ret block.

Definition setBlockPosition (id : string) (x y : Q) (snapToGrid : bool)
  : ST Engine bool :=
  block <- gets (getBlock id) ;;
  match block with
  | None => ret false
  | Some _ =>
      s <- gets settings ;;
      let x' := if snapToGrid then Math_round (x / gridSize s) * gridSize s else x in
      let y' := if snapToGrid then Math_round (y / gridSize s) * gridSize s else y in
      on_block id (Block_setPosition x' y') ;;
      emit (blockMoved id) ;;
      ret true
  end.

Definition setBlockSize (id : string) (w h : Q) : ST Engine bool :=
  block <- gets (getBlock id) ;;
  match block with
  | None => ret false
  | Some _ =>
      s <- gets settings ;;
      let w' := Math_max w (minBlockWidth s) in
      let h' := Math_max h (minBlockHeight s) in
      on_block id (Block_setSize w' h') ;;
      emit (blockResized id) ;;
      ret true
  end.

Definition setBlockContent (id content : string) : ST Engine bool :=
  block <- gets (getBlock id) ;;
  match block with
  | None => ret false
  | Some _ =>
      on_block id (Block_setContent content) ;;
      emit (blockUpdated id) ;;
      ret true
  end.

Definition linkBlocks (fromId toId linkType : string) : ST Engine bool :=
  fromBlock <- gets (getBlock fromId) ;;
  toBlock <- gets (getBlock toId) ;;
  match fromBlock, toBlock with
  | Some _, Some _ =>
      on_block fromId (Block_removeLink toId) ;;
      on_block toId (Block_removeLink fromId) ;;
      (if linkType =? "single" then
         on_block fromId (Block_addLink toId "single")
       else if linkType =? "reverse" then
         on_block toId (Block_addLink fromId "single")
       else if linkType =? "double" then
         on_block fromId (Block_addLink toId "double") ;;
         on_block toId (Block_addLink fromId "double")
       else ret tt) ;;
      emit (blocksLinked fromId toId linkType) ;;
      ret true
  | _, _ => ret false
  end.

Definition updateLinkType (fromId toId newLinkType : string) : ST Engine bool :=
  linkBlocks fromId toId newLinkType.

Definition getLinkInfo (fromId toId : string) (e : Engine) : option LinkInfo :=
  match getBlock fromId e, getBlock toId e with
  | Some fromBlock, Some toBlock =>
      let hasForward := Block_hasLink toId fromBlock in
      let hasReverse := Block_hasLink fromId toBlock in
      if hasForward && hasReverse then
        Some {| info_type := "double"; info_from := fromId; info_to := toId |}
      else if hasForward then
        Some {| info_type := "single"; info_from := fromId; info_to := toId |}
      else if hasReverse then
        Some {| info_type := "reverse"; info_from := toId; info_to := fromId |}
      else None
  | _, _ => None
  end.

Definition unlinkBlocks (fromId toId : string) : ST Engine bool :=
  fromBlock <- gets (getBlock fromId) ;;
  toBlock <- gets (getBlock toId) ;;
  match fromBlock, toBlock with
  | None, None => ret false
  | _, _ =>
      on_block fromId (Block_removeLink toId) ;;
      on_block toId (Block_removeLink fromId) ;;
      emit (blocksUnlinked fromId toId) ;;
      ret true
  end.

Definition deleteBlock (id : string) : ST Engine bool :=
  block <- gets (getBlock id) ;;
  match block with
  | None => ret false
  | Some _ =>
      ks <- gets (fun e => JsMap.keys (blocks e)) ;;
      forEach ks (fun k =>
        on_block k (fun b =>
          if Block_hasLink id b then Block_removeLink id b else ret b)) ;;
      modify (set_blocks (JsMap.delete id)) ;;
      emit (blockDeleted id) ;;
      ret true
  end.

Definition getIncomingLinks (id : string) (e : Engine) : list Block :=
  filter (Block_hasLink id) (getAllBlocks e).

Fixpoint resolve (e : Engine) (ids : list string) : list Block :=
  match ids with
  | [] => []
  | linkId :: ids' =>
      match getBlock linkId e with
      | Some b => b :: resolve e ids'
      | None => resolve e ids'
      end
  end.

Definition getOutgoingLinks (id : string) (e : Engine) : list Block :=
  match getBlock id e with
  | None => []
  | Some block => resolve e (JsMap.keys (links block))
  end.

(** [arrangeBlocks(columns)], for a number of columns that is a positive
    integer. *)
Definition arrangeBlocks (columns : nat) : ST Engine unit :=
  bs <- gets getAllBlocks ;;
  spacing <- gets (fun e => defaultSpacing (settings e)) ;;
  forEach (combine (seq 0 (List.length bs)) bs) (fun ib =>
    let index := fst ib in
    let block := snd ib in
    let col := inject_Z (Z.of_nat (index mod columns)) in
    let row := inject_Z (Z.of_nat (index / columns)) in
    let x := 50 + col * spacing in
    let y := 50 + row * spacing in
    setBlockPosition (id block) x y true ;; ret tt) ;;
  emit (blocksArranged (List.length bs)).

(* ---------------- serializer ---------------- *)

(** [Block.toJSON()]. *)
Definition Block_toJSON (b : Block) : BlockRecord :=
  {| rec_id := id b;
     rec_content := Some (content b);
     rec_type := Some (type b);
     rec_links := Some (map (fun entry =>
                    link_object (fst entry) (Some (link_type (snd entry)))
                                (link_createdAt (snd entry)))
                  (JsMap.entries (links b)));
     rec_position := Some (position b);
     rec_size := Some (size b);
     rec_metadata := metadata b |}.

(** [exportToJSON()]: the document whose text is returned. *)
Definition exportToJSON : ST Engine Document :=
  bs <- gets getAllBlocks ;;
  s <- gets settings ;;
  t <- now ;;
  ret {| doc_blocks := Some (map (fun b => block_object (Block_toJSON b)) bs);
         doc_settings := Some {| set_gridSize := Some (gridSize s);
                                 set_defaultSpacing := Some (defaultSpacing s);
                                 set_minBlockWidth := Some (minBlockWidth s);
                                 set_minBlockHeight := Some (minBlockHeight s) |};
         doc_exportedAt := Some t |}.


(** One turn of [blockData.links.forEach]; [None] when the turn throws. *)
Definition import_link (link : LinkEntry) (block : Block) : ST Engine (option Block) :=
  match link with
  | link_string l =>
      c <- now ;;
      ret (Some (set_links
        (JsMap.set l {| link_type := "single"; link_createdAt := Some c |}) block))
  | link_object l ty c =>
      ret (Some (set_links
        (JsMap.set l {| link_type := or_single ty; link_createdAt := c |}) block))
  | link_null => ret None
  end.

Fixpoint import_links (ls : list LinkEntry) (block : Block) : ST Engine (option Block) :=
  match ls with
  | [] => ret (Some block)
  | link :: ls' =>
      r <- import_link link block ;;
      match r with
      | Some block' => import_links ls' block'
      | None => ret None
      end
  end.

(** One turn of [data.blocks.forEach]; [false] when the turn throws. *)
Definition import_block (entry : BlockEntry) : ST Engine bool :=
  match entry with
  | block_null => ret false
  | block_object blockData =>
      block <- Block_new (rec_id blockData)
                 (match rec_content blockData with Some c => c | None => "" end)
                 (match rec_type blockData with Some t => t | None => "default" end) ;;
      r <- match rec_links blockData with
           | Some ls => import_links ls block
           | None => ret (Some block)
           end ;;
      match r with
      | None => ret false
      | Some block =>
          let block :=
            {| id := id block; content := content block; type := type block;
               links := links block;
               position := match rec_position blockData with
                           | Some p => p
                           | None => {| pos_x := 0; pos_y := 0 |}
                           end;
               size := match rec_size blockData with
                       | Some s => s
                       | None => {| width := 250; height := 150 |}
                       end;
               metadata := rec_metadata blockData |} in
          modify (set_blocks (JsMap.set (id block) block)) ;;
          ret true
      end
  end.

Fixpoint import_blocks (bs : list BlockEntry) : ST Engine bool :=
  match bs with
  | [] => ret true
  | entry :: bs' =>
      ok <- import_block entry ;;
      if ok then import_blocks bs' else ret false
  end.

(** [importFromJSON(jsonData)]; a throw anywhere in the [try] block ends the
    call with [false] and keeps what was done before it. *)
Definition importFromJSON (jsonData : Json) : ST Engine bool :=
  match jsonData with
  | json_invalid => ret false
  | json_null =>
      modify (set_blocks (fun _ => JsMap.empty)) ;;
      ret false
  | json_value data =>
      modify (set_blocks (fun _ => JsMap.empty)) ;;
      match doc_settings data with
      | Some patch => modify (set_settings (Object_assign patch))
      | None => ret tt
      end ;;
      match doc_blocks data with
      | None => ret false
      | Some bs =>
          ok <- import_blocks bs ;;
          if ok then emit (blocksImported (List.length bs)) ;; ret true
          else ret false
      end
  end.

End Model.

(* ------------------------------------------------------------------ *)
(** ** Connector geometry: [BlockRenderer.getConnectionPoint] *)

Definition getConnectionPoint (sourceRect targetRect : Rect) (container : Container)
  : Point :=
  let sourceCenterX := rect_left sourceRect + rect_width sourceRect / 2 in
  let sourceCenterY := rect_top sourceRect + rect_height sourceRect / 2 in
  let targetCenterX := rect_left targetRect + rect_width targetRect / 2 in
  let targetCenterY := rect_top targetRect + rect_height targetRect / 2 in
  let dx := targetCenterX - sourceCenterX in
  let dy := targetCenterY - sourceCenterY in
  let widthRatio := Math_abs dx / rect_width sourceRect in
  let heightRatio := Math_abs dy / rect_height sourceRect in
  let intersection :=
    if js_gt widthRatio heightRatio then
      let sign := Math_sign dx in
      (sourceCenterX + sign * (rect_width sourceRect / 2),
       sourceCenterY + dy * (sign * (rect_width sourceRect / 2) / dx))
    else
      let sign := Math_sign dy in
      (sourceCenterX + dx * (sign * (rect_height sourceRect / 2) / dy),
       sourceCenterY + sign * (rect_height sourceRect / 2)) in
  {| pt_x := fst intersection - rect_left (containerRect container)
             + scrollLeft container;
     pt_y := snd intersection - rect_top (containerRect container)
             + scrollTop container |}.

(* ------------------------------------------------------------------ *)
(** ** Observations, invariants and the words of the specification *)

Definition exec {S A} (m : ST S A) (s : S) : S := snd (m s).

Definition eval {S A} (m : ST S A) (s : S) : A := fst (m s).

Definition has_block (e : Engine) (a : string) : bool := JsMap.has a (blocks e).

(** The entry block [a] holds for target [b]: the edge [a -> b] and its
    stored type. *)
Definition edge_type (e : Engine) (a b : string) : option string :=
  match getBlock a e with
  | Some block => Block_getLinkType b block
  | None => None
  end.

(** A computation that only reads the host: the map of blocks, the settings
    and the log are left as they were. *)
Definition clock_only {A} (m : ST Engine A) : Prop :=
  forall e, blocks (exec m e) = blocks e /\
            settings (exec m e) = settings e /\
            published (exec m e) = published e.

(** Two stores hold the same edges: the same typed entries in the same
    blocks' tables. *)
Definition same_edges (e1 e2 : Engine) : Prop :=
  forall a b, edge_type e1 a b = edge_type e2 a b.

(** No dangling entry: every entry of every links table names a stored
    block. *)
Definition links_closed (e : Engine) : Prop :=
  forall a b t, edge_type e a b = Some t -> has_block e b = true.

(** The entry an intent prescribes in [fromId]'s table for [toId]. *)
Definition forward_entry (linkType : string) : option string :=
  if linkType =? "single" then Some "single"
  else if linkType =? "double" then Some "double"
  else None.

(** The entry an intent prescribes in [toId]'s table for [fromId]. *)
Definition backward_entry (linkType : string) : option string :=
  if linkType =? "reverse" then Some "single"
  else if linkType =? "double" then Some "double"
  else None.

(** What [linkBlocks fromId toId linkType] prescribes for the entry of [a]
    for [b]: [Some v] when the entry belongs to the pair ([v] is the entry,
    or none), [None] when the entry is not the pair's. *)
Definition prescribed (fromId toId linkType a b : string) : option (option string) :=
  let fwd := (a =? fromId) && (b =? toId) in
  let bwd := (a =? toId) && (b =? fromId) in
  if fwd && bwd then
    Some (match forward_entry linkType with
          | Some t => Some t
          | None => backward_entry linkType
          end)
  else if fwd then Some (forward_entry linkType)
  else if bwd then Some (backward_entry linkType)
  else None.

(** A links table as a [Map] has it: distinct keys; and no entry whose
    type is the empty string. *)
Definition block_ok (b : Block) : Prop :=
  NoDup (JsMap.keys (links b)) /\
  Forall (fun entry => link_type (snd entry) <> "") (links b).

(** The store as the engine keeps it: distinct keys, each block stored
    under its own id, and every table as above. *)
Definition store_ok (m : JsMap.t Block) : Prop :=
  NoDup (JsMap.keys m) /\
  Forall (fun entry => fst entry = id (snd entry) /\ block_ok (snd entry)) m.

(** The states of an engine: those a [new BlockEngine()] reaches through its
    methods. *)
Inductive reachable {host : Host} : Engine -> Prop :=
| reach_new n : reachable (BlockEngine_new n)
| reach_createBlock e content type position size :
    reachable e -> reachable (exec (createBlock content type position size) e)
| reach_setBlockPosition e id x y snap :
    reachable e -> reachable (exec (setBlockPosition id x y snap) e)
| reach_setBlockSize e id w h :
    reachable e -> reachable (exec (setBlockSize id w h) e)
| reach_setBlockContent e id content :
    reachable e -> reachable (exec (setBlockContent id content) e)
| reach_linkBlocks e fromId toId linkType :
    reachable e -> reachable (exec (linkBlocks fromId toId linkType) e)
| reach_updateLinkType e fromId toId linkType :
    reachable e -> reachable (exec (updateLinkType fromId toId linkType) e)
| reach_unlinkBlocks e fromId toId :
    reachable e -> reachable (exec (unlinkBlocks fromId toId) e)
| reach_deleteBlock e id :
    reachable e -> reachable (exec (deleteBlock id) e)
| reach_arrangeBlocks e columns :
    reachable e -> reachable (exec (arrangeBlocks columns) e)
| reach_exportToJSON e :
    reachable e -> reachable (exec exportToJSON e)
| reach_importFromJSON e jsonData :
    reachable e -> reachable (exec (importFromJSON jsonData) e).

(** The ids of a document's link entries and of its records. *)
Definition link_entry_id (l : LinkEntry) : option string :=
  match l with
  | link_string i => Some i
  | link_object i _ _ => Some i
  | link_null => None
  end.

Definition record_link_ids (r : BlockRecord) : list (option string) :=
  match rec_links r with
  | Some ls => map link_entry_id ls
  | None => []
  end.

Definition entry_id (entry : BlockEntry) : option string :=
  match entry with
  | block_object r => Some (rec_id r)
  | block_null => None
  end.

Definition entry_link_ids (entry : BlockEntry) : list (option string) :=
  match entry with
  | block_object r => record_link_ids r
  | block_null => []
  end.

(** The type [importFromJSON] stores for a link entry (none is stored for
    [null]). *)
Definition stored_type (l : LinkEntry) : string :=
  match l with
  | link_string _ => "single"
  | link_object _ ty _ => or_single ty
  | link_null => ""
  end.

(** The store [importFromJSON] runs its loop on: the blocks cleared, the
    document's settings merged over the current ones. *)
Definition import_start (data : Document) (e : Engine) : Engine :=
  set_settings (match doc_settings data with
                | Some patch => Object_assign patch
                | None => fun s => s
                end)
               (set_blocks (fun _ => JsMap.empty) e).

(** The document cut before its entry number [n]. *)
Definition truncated (data : Document) (pre : list BlockEntry) : Document :=
  {| doc_blocks := Some pre;
     doc_settings := doc_settings data;
     doc_exportedAt := doc_exportedAt data |}.

(** A [blocks] array in one of the two formats: every element is a record,
    and every entry of a [links] array is an id string or an object. *)
Definition entry_shaped (entry : BlockEntry) : Prop :=
  match entry with
  | block_object r =>
      match rec_links r with
      | Some ls => Forall (fun l => l <> link_null) ls
      | None => True
      end
  | block_null => False
  end.

Definition document_shaped (bs : list BlockEntry) : Prop := Forall entry_shaped bs.

(** Every link entry of the document names the id of one of its records. *)
Definition document_closed (bs : list BlockEntry) : Prop :=
  forall entry i, In entry bs -> In (Some i) (entry_link_ids entry) ->
    In (Some i) (map entry_id bs).

(** Round half away from zero, as the specification words the snap. *)
Definition round_half_away_from_zero (q : Q) : Q :=
  if Qle_bool 0 q then inject_Z (Qfloor (q + (1 # 2)))
  else - inject_Z (Qfloor (- q + (1 # 2))).

Definition snap_as_specified (g v : Q) : Q :=
  round_half_away_from_zero (v / g) * g.

(** The block the specification's scan selects: greatest [x], the later
    scanned among equals. *)
Fixpoint last_rightmost (best : Block) (bs : list Block) : Block :=
  match bs with
  | [] => best
  | b :: bs' =>
      if Qle_bool (pos_x (position best)) (pos_x (position b))
      then last_rightmost b bs'
      else last_rightmost best bs'
  end.

Definition autoPosition_as_specified (e : Engine) : Position :=
  match getAllBlocks e with
  | [] => {| pos_x := 50; pos_y := 50 |}
  | b :: bs =>
      let m := last_rightmost b bs in
      {| pos_x := pos_x (position m) + defaultSpacing (settings e);
         pos_y := pos_y (position m) |}
  end.

(** A host for the examples: every date reads the same, ids follow the
    count of reads. *)
Definition example_host : Host :=
  {| host_toISOString := fun _ => "2025-08-05T00:00:00.000Z";
     host_generateId := fun n => String (Ascii.ascii_of_nat (65 + n)) "" |}.

(** Example stores on that host.  [createBlock] reads the host four times,
    so the first two blocks get the ids "A" and "E". *)
Definition ex_new : Engine := BlockEngine_new 0.

Definition ex_two : Engine :=
  exec (@createBlock example_host "second" "default" None None)
    (exec (@createBlock example_host "first" "default" None None) ex_new).

Definition ex_linked : Engine :=
  exec (@linkBlocks example_host "A" "E" "double") ex_two.

(** Two blocks with the same x, at (100,10) and then (100,20). *)
Definition ex_tie : Engine :=
  exec (@createBlock example_host "second" "default"
          (Some {| pos_x := 100; pos_y := 20 |}) None)
    (exec (@createBlock example_host "first" "default"
             (Some {| pos_x := 100; pos_y := 10 |}) None) ex_new).

Definition ex_metadata : Metadata :=
  {| createdAt := "2025-08-05T00:00:00.000Z";
     updatedAt := "2025-08-05T00:00:00.000Z" |}.

Definition ex_record (i : string) (ls : option (list LinkEntry)) : BlockRecord :=
  {| rec_id := i; rec_content := Some "text"; rec_type := Some "note";
     rec_links := ls; rec_position := None; rec_size := None;
     rec_metadata := ex_metadata |}.

Definition ex_document (bs : list BlockEntry) : Document :=
  {| doc_blocks := Some bs; doc_settings := None; doc_exportedAt := None |}.

(** A document whose only record links to an id that no record has. *)
Definition doc_dangling : Document :=
  ex_document [block_object (ex_record "a" (Some [link_string "ghost"]))].

(** A document whose second element is [null]. *)
Definition doc_partial : Document :=
  ex_document [block_object (ex_record "a" (Some [])); block_null].

(** A document in the legacy format, and with an object entry. *)
Definition doc_legacy : Document :=
  ex_document
    [block_object (ex_record "a" (Some [link_string "b"; link_string "c"]));
     block_object (ex_record "b" (Some [link_object "a" (Some "double") None;
                                        link_object "c" None None]));
     block_object (ex_record "c" None)].

Definition rect_A : Rect :=
  {| rect_left := 0; rect_top := 0; rect_width := 100; rect_height := 100 |}.

Definition rect_B : Rect :=
  {| rect_left := 300; rect_top := 0; rect_width := 100; rect_height := 100 |}.

Definition container_at_origin : Container :=
  {| containerRect := {| rect_left := 0; rect_top := 0;
                         rect_width := 1000; rect_height := 1000 |};
     scrollLeft := 0; scrollTop := 0 |}.

(* ------------------------------------------------------------------ *)
(** ** Searching, listeners and the renderer's selection *)

(** [s.includes(sub)]: [sub] occurs in [s]. *)
Fixpoint includes (s sub : string) : bool :=
  if String.prefix sub s then true
  else match s with
       | EmptyString => false
       | String _ s' => includes s' sub
       end.

Section Search.
(** [String.prototype.toLowerCase], a function of the host. *)
Variable toLowerCase : string -> string.

Definition searchBlocks (query : string) (e : Engine) : list Block :=
  let lowerQuery := toLowerCase query in
  filter (fun block => includes (toLowerCase (content block)) lowerQuery)
         (getAllBlocks e).

End Search.

(** The listeners of the engine: [eventListeners] maps an event name to the
    array of its callbacks.  A callback is a function object, known by its
    identity (a number here); [emit] is given by the callbacks it calls, in
    the order of the calls. *)
Module EventListeners.

Definition t : Type := JsMap.t (list nat).

(** [listeners.indexOf(callback)]; [None] is -1. *)
Fixpoint indexOf (callback : nat) (listeners : list nat) : option nat :=
  match listeners with
  | [] => None
  | c :: listeners' =>
      if Nat.eqb c callback then Some O
      else match indexOf callback listeners' with
           | Some i => Some (S i)
           | None => None
           end
  end.

(** [listeners.splice(index, 1)]. *)
Fixpoint splice (index : nat) (listeners : list nat) : list nat :=
  match listeners, index with
  | [], _ => []
  | _ :: listeners', O => listeners'
  | c :: listeners', S i => c :: splice i listeners'
  end.

Definition on (event : string) (callback : nat) (m : t) : t :=
  let m := if JsMap.has event m then m else JsMap.set event [] m in
  match JsMap.get event m with
  | Some listeners => JsMap.set event (listeners ++ [callback])%list m
  | None => m
  end.

Definition off (event : string) (callback : nat) (m : t) : t :=
  if negb (JsMap.has event m) then m
  else match JsMap.get event m with
       | Some listeners =>
           match indexOf callback listeners with
           | Some index => JsMap.set event (splice index listeners) m
           | None => m
           end
       | None => m
       end.

Definition emit (event : string) (m : t) : list nat :=
  if negb (JsMap.has event m) then []
  else match JsMap.get event m with
       | Some listeners => listeners
       | None => []
       end.

End EventListeners.

(** The renderer's [selectedBlocks], a [Set] of ids: insertion-ordered,
    without repetition. *)
Definition Set_has (x : string) (s : list string) : bool := existsb (String.eqb x) s.

Definition Set_add (x : string) (s : list string) : list string :=
  if Set_has x s then s else (s ++ [x])%list.

Definition Set_delete (x : string) (s : list string) : list string :=
  filter (fun y => negb (x =? y)) s.

(** [BlockRenderer.selectBlock]: the selection it leaves. *)
Definition selectBlock (id : string) (multiSelect : bool)
    (selectedBlocks : list string) : list string :=
  let s := if multiSelect then selectedBlocks else [] in
  if Set_has id s then Set_delete id s else Set_add id s.

Section RendererModel.
Context {host : Host}.
Local Open Scope st_scope.

(** [BlockRenderer.getSelectedBlocks]. *)
Definition getSelectedBlocks (selectedBlocks : list string) (e : Engine)
  : list (option Block) :=
  map (fun id => getBlock id e) selectedBlocks.

(** The loop of [linkSelected]: [linkBlocks(selected[i], selected[i+1])]
    for every [i] below [length - 1]. *)
Fixpoint link_consecutive (selected : list string) (linkType : string)
  : ST Engine unit :=
  match selected with
  | a :: rest =>
      match rest with
      | b :: _ => linkBlocks a b linkType ;; link_consecutive rest linkType
      | [] => ret tt
      end
  | [] => ret tt
  end.

(** [BlockRenderer.linkSelected]: the engine is changed and the selection it
    leaves is returned (with fewer than two ids selected it only alerts). *)
Definition linkSelected (linkType : string) (selectedBlocks : list string)
  : ST Engine (list string) :=
  if Nat.ltb (List.length selectedBlocks) 2 then ret selectedBlocks
  else link_consecutive selectedBlocks linkType ;; ret [].

End RendererModel.

(** The position [arrangeBlocks] asks for the block at [index]. *)
Definition arranged_target (s : Settings) (columns index : nat) : Q * Q :=
  (50 + inject_Z (Z.of_nat (index mod columns)) * defaultSpacing s,
   50 + inject_Z (Z.of_nat (index / columns)) * defaultSpacing s).

(** A coordinate snapped to the grid as [setBlockPosition] does it. *)
Definition snapped (g v : Q) : Q := Math_round (v / g) * g.

(** The states an engine reaches without [importFromJSON], when every id
    [generateId] returns is new to the store. *)
Inductive edited {host : Host} : Engine -> Prop :=
| edit_new n : edited (BlockEngine_new n)
| edit_createBlock e content type position size :
    edited e -> has_block e (host_generateId (clock e)) = false ->
    edited (exec (createBlock content type position size) e)
| edit_setBlockPosition e id x y snap :
    edited e -> edited (exec (setBlockPosition id x y snap) e)
| edit_setBlockSize e id w h :
    edited e -> edited (exec (setBlockSize id w h) e)
| edit_setBlockContent e id content :
    edited e -> edited (exec (setBlockContent id content) e)
| edit_linkBlocks e fromId toId linkType :
    edited e -> edited (exec (linkBlocks fromId toId linkType) e)
| edit_updateLinkType e fromId toId linkType :
    edited e -> edited (exec (updateLinkType fromId toId linkType) e)
| edit_unlinkBlocks e fromId toId :
    edited e -> edited (exec (unlinkBlocks fromId toId) e)
| edit_deleteBlock e id :
    edited e -> edited (exec (deleteBlock id) e)
| edit_arrangeBlocks e columns :
    edited e -> edited (exec (arrangeBlocks columns) e)
| edit_exportToJSON e :
    edited e -> edited (exec exportToJSON e).

(** The shape of the edges between blocks: an entry names a stored block;
    its type is ['single'] or ['double']; a ['single'] entry between two
    blocks has no entry opposite to it, a ['double'] entry has a ['double']
    entry opposite to it. *)
Definition edges_paired (e : Engine) : Prop :=
  forall a b t, edge_type e a b = Some t ->
    has_block e a = true /\ has_block e b = true /\
    ((t = "single" /\ (a <> b -> edge_type e b a = None)) \/
     (t = "double" /\ edge_type e b a = Some "double")).

(** The mirror of a [getLinkInfo] result: ['single'] and ['reverse']
    exchanged. *)
Definition mirror_info (i : option LinkInfo) : option LinkInfo :=
  match i with
  | None => None
  | Some {| info_type := t; info_from := f; info_to := o |} =>
      if t =? "double" then
        Some {| info_type := "double"; info_from := o; info_to := f |}
      else if t =? "single" then
        Some {| info_type := "reverse"; info_from := f; info_to := o |}
      else
        Some {| info_type := "single"; info_from := f; info_to := o |}
  end.

(** A [toLowerCase] for the examples: the letters A to Z of ASCII. *)
Fixpoint ex_toLowerCase (s : string) : string :=
  match s with
  | EmptyString => EmptyString
  | String c rest =>
      let n := Ascii.nat_of_ascii c in
      String (if andb (Nat.leb 65 n) (Nat.leb n 90)
              then Ascii.ascii_of_nat (n + 32) else c)
             (ex_toLowerCase rest)
  end.

(* ------------------------------------------------------------------ *)
(** ** Facts about insertion-ordered maps *)

Local Open Scope list_scope.

Module JsMapFacts.
Import JsMap.

Section Facts.
Context {V : Type}.
Implicit Types (m : t V) (k : string) (v : V).

Lemma get_set_eq k v m : get k (set k v m) = Some v.
Proof.
  induction m as [|[k' v'] m IH]; simpl.
  - now rewrite String.eqb_refl.
  - destruct (k =? k') eqn:E; simpl; rewrite E; auto.
Qed.

Lemma get_set_neq k k' v m : k <> k' -> get k' (set k v m) = get k' m.
Proof.
  intros N. induction m as [|[k0 v0] m IH]; simpl.
  - apply not_eq_sym, String.eqb_neq in N. now rewrite N.
  - destruct (k =? k0) eqn:E; simpl.
    + apply String.eqb_eq in E; subst k0.
      destruct (String.eqb_spec k' k); [congruence | reflexivity].
    + now rewrite IH.
Qed.

Lemma get_set k k' v m :
  get k' (set k v m) = if k' =? k then Some v else get k' m.
Proof.
  destruct (String.eqb_spec k' k) as [->|N].
  - apply get_set_eq.
  - apply get_set_neq; congruence.
Qed.

Lemma get_delete k k' m :
  get k' (delete k m) = if k' =? k then None else get k' m.
Proof.
  induction m as [|[k0 v0] m IH]; simpl.
  - now destruct (k' =? k).
  - destruct (k =? k0) eqn:E; simpl.
    + rewrite IH. apply String.eqb_eq in E; subst k0.
      now destruct (k' =? k).
    + rewrite IH. destruct (String.eqb_spec k' k) as [->|N]; auto.
      rewrite E. reflexivity.
Qed.

Lemma has_set k k' v m : has k' (set k v m) = (k' =? k) || has k' m.
Proof. unfold has. rewrite get_set. now destruct (k' =? k). Qed.

Lemma has_delete k k' m : has k' (delete k m) = negb (k' =? k) && has k' m.
Proof. unfold has. rewrite get_delete. now destruct (k' =? k). Qed.

Lemma get_In_keys k m : get k m <> None <-> In k (keys m).
Proof.
  induction m as [|[k0 v0] m IH]; simpl.
  - tauto.
  - destruct (String.eqb_spec k k0) as [->|N].
    + split; [auto | discriminate].
    + rewrite IH. split; [auto | intros [E|H]; congruence].
Qed.

Lemma get_None_not_In k m : get k m = None <-> ~ In k (keys m).
Proof.
  rewrite <- get_In_keys. destruct (get k m); split; intros H; try congruence.
  exfalso. apply H. discriminate.
Qed.

Lemma has_In_keys k m : has k m = true <-> In k (keys m).
Proof.
  rewrite <- get_In_keys. unfold has.
  destruct (get k m); split; congruence.
Qed.

Lemma get_In k v m : get k m = Some v -> In (k, v) m.
Proof.
  induction m as [|[k0 v0] m IH]; simpl; [discriminate|].
  destruct (String.eqb_spec k k0) as [->|N]; intros H.
  - left. congruence.
  - right. auto.
Qed.

Lemma In_get k v m : NoDup (keys m) -> In (k, v) m -> get k m = Some v.
Proof.
  induction m as [|[k0 v0] m IH]; simpl; [tauto|].
  intros ND [E|H]; inversion ND; subst.
  - inversion E; subst. now rewrite String.eqb_refl.
  - destruct (String.eqb_spec k k0) as [->|N]; auto.
    exfalso. apply H2. change (In (fst (k0, v)) (map fst m)).
    now apply in_map.
Qed.

Lemma set_absent k v m : get k m = None -> set k v m = m ++ [(k, v)].
Proof.
  induction m as [|[k0 v0] m IH]; simpl; auto.
  destruct (k =? k0); [discriminate|]. intros H. now rewrite IH.
Qed.

Lemma keys_set_present k v m : get k m <> None -> keys (set k v m) = keys m.
Proof.
  induction m as [|[k0 v0] m IH]; simpl; [congruence|].
  destruct (k =? k0); simpl; auto. intros H. now rewrite IH.
Qed.

Lemma In_keys_set k k' v m : In k' (keys (set k v m)) <-> k' = k \/ In k' (keys m).
Proof.
  rewrite <- !has_In_keys, has_set, orb_true_iff, String.eqb_eq. tauto.
Qed.

Lemma NoDup_keys_set k v m : NoDup (keys m) -> NoDup (keys (set k v m)).
Proof.
  intros ND. destruct (get k m) eqn:G.
  - rewrite keys_set_present; congruence.
  - rewrite set_absent by assumption. unfold keys. rewrite map_app. simpl.
    apply NoDup_app; auto.
    + constructor; [tauto | constructor].
    + intros x Hx [<-|[]]. apply get_None_not_In in G. auto.
Qed.

Lemma In_set k v m (e : string * V) :
  In e (set k v m) -> e = (k, v) \/ In e m.
Proof.
  induction m as [|[k0 v0] m IH]; simpl.
  - intros [<-|[]]. auto.
  - destruct (String.eqb_spec k k0) as [->|N]; simpl.
    + intros [<-|H]; auto.
    + intros [<-|H]; auto. destruct (IH H); auto.
Qed.

Lemma In_delete k m (e : string * V) : In e (delete k m) -> In e m.
Proof.
  induction m as [|[k0 v0] m IH]; simpl; auto.
  destruct (k =? k0); simpl; intuition.
Qed.

Lemma NoDup_keys_delete k m : NoDup (keys m) -> NoDup (keys (delete k m)).
Proof.
  induction m as [|[k0 v0] m IH]; simpl; auto.
  intros ND. inversion ND; subst.
  destruct (k =? k0); simpl; auto.
  constructor; auto. intros H. apply H1.
  apply in_map_iff in H. destruct H as [[k1 v1] [E H]].
  apply In_delete in H. apply in_map_iff. now exists (k1, v1).
Qed.

Lemma Forall_set (P : string * V -> Prop) k v m :
  Forall P m -> P (k, v) -> Forall P (set k v m).
Proof.
  intros F Pk. apply Forall_forall. intros e He.
  destruct (In_set _ _ _ _ He) as [->|H]; auto.
  rewrite Forall_forall in F. auto.
Qed.

Lemma Forall_delete (P : string * V -> Prop) k m :
  Forall P m -> Forall P (delete k m).
Proof.
  rewrite !Forall_forall. intros F e He. apply F. eapply In_delete; eauto.
Qed.

(** Setting the entries of a map with distinct keys, in order, on a map that
    has none of them, appends them. *)
Lemma fold_set_fresh (l : list (string * V)) : forall acc,
  NoDup (keys l) ->
  (forall k, In k (keys l) -> ~ In k (keys acc)) ->
  fold_left (fun a kv => set (fst kv) (snd kv) a) l acc = acc ++ l.
Proof.
  induction l as [|[k v] l IH]; intros acc ND Fr; simpl.
  - now rewrite app_nil_r.
  - inversion ND; subst.
    rewrite set_absent by (apply get_None_not_In, Fr; simpl; auto).
    rewrite IH; auto.
    + now rewrite <- app_assoc.
    + intros k' Hk'. unfold keys. rewrite map_app, in_app_iff. simpl.
      intros [H|[<-|[]]]; [|contradiction].
      eapply Fr; [right|]; eauto.
Qed.

End Facts.
End JsMapFacts.

(* ------------------------------------------------------------------ *)
(** ** Running the state-passing code *)

Section Running.
Context {S A B : Type}.

Lemma exec_bind (m : ST S A) (k : A -> ST S B) s :
  exec (bind m k) s = exec (k (eval m s)) (exec m s).
Proof. unfold exec, eval, bind. now destruct (m s). Qed.

Lemma eval_bind (m : ST S A) (k : A -> ST S B) s :
  eval (bind m k) s = eval (k (eval m s)) (exec m s).
Proof. unfold exec, eval, bind. now destruct (m s). Qed.

Lemma exec_ret (a : A) (s : S) : exec (ret a) s = s.
Proof. reflexivity. Qed.

Lemma eval_ret (a : A) (s : S) : eval (ret a) s = a.
Proof. reflexivity. Qed.

Lemma exec_gets (f : S -> A) s : exec (gets f) s = s.
Proof. reflexivity. Qed.

Lemma eval_gets (f : S -> A) s : eval (gets f) s = f s.
Proof. reflexivity. Qed.

Lemma exec_modify (f : S -> S) s : exec (modify f) s = f s.
Proof. reflexivity. Qed.

End Running.

Create Rewrite HintDb run.
#[local] Hint Rewrite @exec_bind @eval_bind @exec_ret @eval_ret
  @exec_gets @eval_gets @exec_modify : run.

Ltac run := autorewrite with run.

(** A statement about every step of a [forEach] holds of the whole loop. *)
Lemma forEach_invariant {S A} (I : S -> Prop) (f : A -> ST S unit) (l : list A) :
  (forall a s, In a l -> I s -> I (exec (f a) s)) ->
  forall s, I s -> I (exec (forEach l f) s).
Proof.
  induction l as [|a l IH]; simpl; intros Hf s Hs.
  - exact Hs.
  - rewrite exec_bind. apply IH; auto.
Qed.

Section EngineFacts.
Context {host : Host}.
Import JsMapFacts.

Lemma clock_only_setContent c b : clock_only (Block_setContent c b).
Proof. intros e. repeat split. Qed.

Lemma clock_only_setPosition x y b : clock_only (Block_setPosition x y b).
Proof. intros e. repeat split. Qed.

Lemma clock_only_setSize w h b : clock_only (Block_setSize w h b).
Proof. intros e. repeat split. Qed.

Lemma clock_only_addLink t ty b : clock_only (Block_addLink t ty b).
Proof. intros e. repeat split. Qed.

Lemma clock_only_removeLink t b : clock_only (Block_removeLink t b).
Proof. intros e. repeat split. Qed.

Lemma clock_only_purge t b :
  clock_only (if Block_hasLink t b then Block_removeLink t b else ret b).
Proof. destruct (Block_hasLink t b); intros e; repeat split. Qed.

Lemma blocks_on_block k (method : Block -> ST Engine Block) e :
  (forall b, clock_only (method b)) ->
  blocks (exec (on_block k method) e) =
    match getBlock k e with
    | Some b => JsMap.set k (eval (method b) e) (blocks e)
    | None => blocks e
    end.
Proof.
  intros Hm. unfold on_block. run.
  destruct (getBlock k e) as [b|]; run; auto.
  unfold set_blocks; simpl. now rewrite (proj1 (Hm b e)).
Qed.

Lemma settings_on_block k (method : Block -> ST Engine Block) e :
  (forall b, clock_only (method b)) ->
  settings (exec (on_block k method) e) = settings e.
Proof.
  intros Hm. unfold on_block. run.
  destruct (getBlock k e) as [b|]; run; auto.
  unfold set_blocks; simpl. apply (Hm b e).
Qed.

Lemma published_on_block k (method : Block -> ST Engine Block) e :
  (forall b, clock_only (method b)) ->
  published (exec (on_block k method) e) = published e.
Proof.
  intros Hm. unfold on_block. run.
  destruct (getBlock k e) as [b|]; run; auto.
  unfold set_blocks; simpl. apply (Hm b e).
Qed.

Lemma getBlock_on_block k (method : Block -> ST Engine Block) e a :
  (forall b, clock_only (method b)) ->
  getBlock a (exec (on_block k method) e) =
    if a =? k then
      match getBlock k e with
      | Some b => Some (eval (method b) e)
      | None => None
      end
    else getBlock a e.
Proof.
  intros Hm. unfold getBlock at 1. rewrite blocks_on_block by assumption.
  destruct (getBlock k e) as [b|] eqn:G.
  - now rewrite get_set.
  - destruct (String.eqb_spec a k) as [->|N]; auto.
Qed.

Lemma has_block_on_block k (method : Block -> ST Engine Block) e a :
  (forall b, clock_only (method b)) ->
  has_block (exec (on_block k method) e) a = has_block e a.
Proof.
  intros Hm. unfold has_block, JsMap.has.
  change (JsMap.get a (blocks (exec (on_block k method) e)))
    with (getBlock a (exec (on_block k method) e)).
  rewrite getBlock_on_block by assumption.
  change (JsMap.get a (blocks e)) with (getBlock a e).
  destruct (String.eqb_spec a k) as [->|N]; auto.
  now destruct (getBlock k e).
Qed.

Lemma getBlock_has_block e a : has_block e a = true <-> getBlock a e <> None.
Proof.
  unfold has_block, JsMap.has, getBlock.
  destruct (JsMap.get a (blocks e)); split; congruence.
Qed.

Lemma edge_type_absent e a b : getBlock a e = None -> edge_type e a b = None.
Proof. unfold edge_type. now intros ->. Qed.

Lemma edge_removeLink k t e a b :
  edge_type (exec (on_block k (Block_removeLink t)) e) a b =
    if (a =? k) && (b =? t) then None else edge_type e a b.
Proof.
  unfold edge_type.
  rewrite getBlock_on_block by apply clock_only_removeLink.
  destruct (String.eqb_spec a k) as [->|N]; simpl; auto.
  destruct (getBlock k e) as [blk|]; simpl.
  - unfold Block_getLinkType, eval; simpl. rewrite get_delete.
    now destruct (b =? t).
  - now destruct (b =? t).
Qed.

Lemma edge_addLink k t ty e a b :
  edge_type (exec (on_block k (Block_addLink t ty)) e) a b =
    if (a =? k) && (b =? t)
    then (if has_block e k then Some ty else None)
    else edge_type e a b.
Proof.
  unfold edge_type.
  rewrite getBlock_on_block by apply clock_only_addLink.
  unfold has_block, JsMap.has. change (JsMap.get k (blocks e)) with (getBlock k e).
  destruct (String.eqb_spec a k) as [->|N]; simpl; auto.
  destruct (getBlock k e) as [blk|]; simpl.
  - unfold Block_getLinkType, eval; simpl. rewrite get_set.
    now destruct (b =? t).
  - now destruct (b =? t).
Qed.

Lemma edge_purge k t e a b :
  edge_type (exec (on_block k (fun blk =>
      if Block_hasLink t blk then Block_removeLink t blk else ret blk)) e) a b =
    if (a =? k) && (b =? t) then None else edge_type e a b.
Proof.
  unfold edge_type.
  rewrite getBlock_on_block by apply clock_only_purge.
  destruct (String.eqb_spec a k) as [->|N]; simpl; auto.
  destruct (getBlock k e) as [blk|]; simpl; [|now destruct (b =? t)].
  unfold Block_hasLink, JsMap.has, Block_getLinkType.
  destruct (JsMap.get t (links blk)) eqn:G; unfold eval; simpl.
  - rewrite get_delete. now destruct (b =? t).
  - destruct (String.eqb_spec b t) as [->|N]; auto. now rewrite G.
Qed.

Lemma edge_type_emit ev e a b : edge_type (exec (emit ev) e) a b = edge_type e a b.
Proof. reflexivity. Qed.

Lemma has_block_emit ev e a : has_block (exec (emit ev) e) a = has_block e a.
Proof. reflexivity. Qed.

End EngineFacts.

(* ------------------------------------------------------------------ *)
(** ** The link reconciler *)

Section LinkReconciler.
Context {host : Host}.
Import JsMapFacts.

Lemma has_block_of_getBlock e a blk : getBlock a e = Some blk -> has_block e a = true.
Proof. intros H. apply getBlock_has_block. congruence. Qed.

Ltac split_ids a b A B :=
  destruct (String.eqb_spec a A), (String.eqb_spec b B),
           (String.eqb_spec a B), (String.eqb_spec b A);
  subst; simpl; try congruence; try reflexivity.

(** What a call of [linkBlocks] on two stored blocks does, whatever the
    intent string: the result, the log, the blocks present and each entry. *)
Lemma linkBlocks_effect A B ty e fb tb :
  getBlock A e = Some fb -> getBlock B e = Some tb ->
  eval (linkBlocks A B ty) e = true /\
  published (exec (linkBlocks A B ty) e) = published e ++ [blocksLinked A B ty] /\
  settings (exec (linkBlocks A B ty) e) = settings e /\
  (forall a, has_block (exec (linkBlocks A B ty) e) a = has_block e a) /\
  (forall a b, edge_type (exec (linkBlocks A B ty) e) a b =
     match prescribed A B ty a b with
     | Some v => v
     | None => edge_type e a b
     end).
Proof.
  intros HA HB.
  pose proof (has_block_of_getBlock _ _ _ HA) as hA.
  pose proof (has_block_of_getBlock _ _ _ HB) as hB.
  unfold linkBlocks. run. rewrite HA, HB. run.
  split; [reflexivity|].
  unfold prescribed, forward_entry, backward_entry.
  destruct (String.eqb_spec ty "single") as [->|N1]; simpl;
    [|destruct (String.eqb_spec ty "reverse") as [->|N2]; simpl;
      [|destruct (String.eqb_spec ty "double") as [->|N3]; simpl]];
    run;
    (split; [|split; [|split]]);
    try (cbn [published exec emit snd];
         rewrite ?published_on_block
           by (apply clock_only_addLink || apply clock_only_removeLink);
         reflexivity);
    try (cbn [settings exec emit snd];
         rewrite ?settings_on_block
           by (apply clock_only_addLink || apply clock_only_removeLink);
         reflexivity);
    try (intros a; rewrite has_block_emit;
         rewrite ?has_block_on_block
           by (apply clock_only_addLink || apply clock_only_removeLink);
         reflexivity);
    intros a b; rewrite edge_type_emit;
    rewrite ?edge_addLink, ?edge_removeLink;
    rewrite ?has_block_on_block
      by (apply clock_only_addLink || apply clock_only_removeLink);
    rewrite ?hA, ?hB;
    split_ids a b A B.
Qed.

Lemma unlinkBlocks_edges A B e a b :
  edge_type (exec (unlinkBlocks A B) e) a b =
    if ((a =? A) && (b =? B)) || ((a =? B) && (b =? A)) then None
    else edge_type e a b.
Proof.
  unfold unlinkBlocks. run.
  assert (R : edge_type
      (exec (emit (blocksUnlinked A B))
         (exec (on_block B (Block_removeLink A))
            (exec (on_block A (Block_removeLink B)) e))) a b =
      if ((a =? A) && (b =? B)) || ((a =? B) && (b =? A)) then None
      else edge_type e a b).
  { rewrite edge_type_emit, !edge_removeLink.
    destruct ((a =? A) && (b =? B)), ((a =? B) && (b =? A)); reflexivity. }
  destruct (getBlock A e) as [fa|] eqn:HA, (getBlock B e) as [fb|] eqn:HB;
    run; try exact R.
  destruct (((a =? A) && (b =? B)) || ((a =? B) && (b =? A))) eqn:C; auto.
  apply orb_true_iff in C. destruct C as [C|C];
    apply andb_true_iff in C; destruct C as [C _];
    apply String.eqb_eq in C; subst a; now apply edge_type_absent.
Qed.

Lemma getLinkInfo_edges A B e fa fb :
  getBlock A e = Some fa -> getBlock B e = Some fb ->
  getLinkInfo A B e =
    match edge_type e A B, edge_type e B A with
    | Some _, Some _ =>
        Some {| info_type := "double"; info_from := A; info_to := B |}
    | Some _, None =>
        Some {| info_type := "single"; info_from := A; info_to := B |}
    | None, Some _ =>
        Some {| info_type := "reverse"; info_from := B; info_to := A |}
    | None, None => None
    end.
Proof.
  intros HA HB. unfold getLinkInfo, edge_type. rewrite HA, HB.
  unfold Block_hasLink, Block_getLinkType, JsMap.has.
  destruct (JsMap.get B (links fa)), (JsMap.get A (links fb)); reflexivity.
Qed.

Lemma prescribed_pair_forward A B ty :
  A <> B -> prescribed A B ty A B = Some (forward_entry ty).
Proof.
  intros N. unfold prescribed. rewrite !String.eqb_refl.
  apply String.eqb_neq in N. rewrite N. simpl.
  reflexivity.
Qed.

Lemma prescribed_pair_backward A B ty :
  A <> B -> prescribed A B ty B A = Some (backward_entry ty).
Proof.
  intros N. unfold prescribed. rewrite !String.eqb_refl.
  apply String.eqb_neq in N. rewrite N. simpl.
  rewrite String.eqb_sym, N. reflexivity.
Qed.

(** C1 (as amended).  After [linkBlocks(A,B,'reverse')] on two distinct
    stored blocks with no edge between them, [getLinkInfo(A,B)] returns
    [{type:'reverse', from:B, to:A}]: the ids are swapped to the direction of
    the edge that exists, and the type reported is ['reverse']. *)
Theorem getLinkInfo_after_reverse_link e A B fa fb :
  getBlock A e = Some fa -> getBlock B e = Some fb -> A <> B ->
  edge_type e A B = None -> edge_type e B A = None ->
  getLinkInfo A B (exec (linkBlocks A B "reverse") e) =
    Some {| info_type := "reverse"; info_from := B; info_to := A |}.
Proof.
  intros HA HB N _ _.
  destruct (linkBlocks_effect A B "reverse" e fa fb HA HB)
    as (_ & _ & _ & Hhas & Hedge).
  set (e1 := exec (linkBlocks A B "reverse") e) in *.
  assert (HA1 : exists b, getBlock A e1 = Some b).
  { destruct (getBlock A e1) eqn:G; eauto.
    assert (F : has_block e1 A = true)
      by (rewrite Hhas; eapply has_block_of_getBlock; eauto).
    apply getBlock_has_block in F. congruence. }
  assert (HB1 : exists b, getBlock B e1 = Some b).
  { destruct (getBlock B e1) eqn:G; eauto.
    assert (F : has_block e1 B = true)
      by (rewrite Hhas; eapply has_block_of_getBlock; eauto).
    apply getBlock_has_block in F. congruence. }
  destruct HA1 as [fa1 HA1], HB1 as [fb1 HB1].
  rewrite (getLinkInfo_edges A B e1 fa1 fb1 HA1 HB1).
  rewrite !Hedge, prescribed_pair_forward, prescribed_pair_backward by assumption.
  reflexivity.
Qed.

(** C5.  On two stored blocks and an intent among single, reverse and
    double, [linkBlocks] returns [true] and leaves for the pair exactly the
    entries the intent prescribes, whatever entries the pair had; every
    other entry is kept; from any other store holding both blocks the pair
    ends with the same entries; and a second call with the same arguments
    leaves the edges the first call left. *)
Theorem linkBlocks_replaces_and_is_idempotent e A B ty fa fb :
  getBlock A e = Some fa -> getBlock B e = Some fb ->
  ty = "single" \/ ty = "reverse" \/ ty = "double" ->
  let e1 := exec (linkBlocks A B ty) e in
  eval (linkBlocks A B ty) e = true /\
  (A <> B -> edge_type e1 A B = forward_entry ty /\
             edge_type e1 B A = backward_entry ty) /\
  (A = B -> edge_type e1 A A = Some (if ty =? "double" then "double" else "single")) /\
  (forall a b, prescribed A B ty a b = None -> edge_type e1 a b = edge_type e a b) /\
  (forall e' fa' fb', getBlock A e' = Some fa' -> getBlock B e' = Some fb' ->
     forall a b, prescribed A B ty a b <> None ->
       edge_type (exec (linkBlocks A B ty) e') a b = edge_type e1 a b) /\
  same_edges (exec (linkBlocks A B ty) e1) e1.
Proof.
  intros HA HB Hty e1.
  destruct (linkBlocks_effect A B ty e fa fb HA HB)
    as (Hret & _ & _ & Hhas & Hedge).
  fold e1 in Hhas, Hedge.
  split; [exact Hret|]. split; [|split; [|split; [|split]]].
  - intros N. rewrite !Hedge.
    now rewrite prescribed_pair_forward, prescribed_pair_backward.
  - intros <-. rewrite Hedge. unfold prescribed. rewrite !String.eqb_refl. simpl.
    destruct Hty as [->|[->| ->]]; reflexivity.
  - intros a b Hp. now rewrite Hedge, Hp.
  - intros e' fa' fb' HA' HB' a b Hp.
    destruct (linkBlocks_effect A B ty e' fa' fb' HA' HB') as (_ & _ & _ & _ & Hedge').
    rewrite Hedge', Hedge. now destruct (prescribed A B ty a b).
  - assert (HA1 : exists b, getBlock A e1 = Some b).
    { destruct (getBlock A e1) eqn:G; eauto.
      assert (F : has_block e1 A = true)
        by (rewrite Hhas; eapply has_block_of_getBlock; eauto).
      apply getBlock_has_block in F. congruence. }
    assert (HB1 : exists b, getBlock B e1 = Some b).
    { destruct (getBlock B e1) eqn:G; eauto.
      assert (F : has_block e1 B = true)
        by (rewrite Hhas; eapply has_block_of_getBlock; eauto).
      apply getBlock_has_block in F. congruence. }
    destruct HA1 as [fa1 HA1], HB1 as [fb1 HB1].
    destruct (linkBlocks_effect A B ty e1 fa1 fb1 HA1 HB1) as (_ & _ & _ & _ & Hedge1).
    intros a b. rewrite Hedge1, Hedge. now destruct (prescribed A B ty a b).
Qed.

(** C10.  On two stored blocks and an intent string that is none of single,
    reverse and double, [linkBlocks] returns [true], leaves no entry in
    either direction between the pair, keeps every other entry, publishes
    [blocksLinked] with the intent it was given, and leaves the edges
    [unlinkBlocks] would leave. *)
Theorem linkBlocks_unknown_intent_unlinks e A B ty fa fb :
  getBlock A e = Some fa -> getBlock B e = Some fb ->
  ty <> "single" -> ty <> "reverse" -> ty <> "double" ->
  let e1 := exec (linkBlocks A B ty) e in
  eval (linkBlocks A B ty) e = true /\
  edge_type e1 A B = None /\
  edge_type e1 B A = None /\
  (forall a b, ~ (a = A /\ b = B) -> ~ (a = B /\ b = A) ->
     edge_type e1 a b = edge_type e a b) /\
  published e1 = published e ++ [blocksLinked A B ty] /\
  same_edges e1 (exec (unlinkBlocks A B) e).
Proof.
  intros HA HB N1 N2 N3 e1.
  destruct (linkBlocks_effect A B ty e fa fb HA HB)
    as (Hret & Hpub & _ & _ & Hedge).
  fold e1 in Hpub, Hedge.
  assert (P : forall a b, edge_type e1 a b =
            if ((a =? A) && (b =? B)) || ((a =? B) && (b =? A)) then None
            else edge_type e a b).
  { intros a b. rewrite Hedge. unfold prescribed, forward_entry, backward_entry.
    apply String.eqb_neq in N1, N2, N3. rewrite N1, N2, N3.
    destruct ((a =? A) && (b =? B)), ((a =? B) && (b =? A)); reflexivity. }
  split; [exact Hret|]. split; [|split; [|split; [|split]]].
  - rewrite P, !String.eqb_refl. reflexivity.
  - rewrite P, !String.eqb_refl. simpl. now rewrite orb_true_r.
  - intros a b F1 F2. rewrite P.
    destruct (String.eqb_spec a A), (String.eqb_spec b B),
             (String.eqb_spec a B), (String.eqb_spec b A); simpl; tauto.
  - exact Hpub.
  - intros a b. now rewrite P, unlinkBlocks_edges.
Qed.

End LinkReconciler.

(* ------------------------------------------------------------------ *)
(** ** Creating and deleting blocks *)

Section Lifecycle.
Context {host : Host}.
Import JsMapFacts.

Lemma createBlock_effect c ty position size e :
  let nid := host_generateId (clock e) in
  let blk := eval (createBlock c ty position size) e in
  blocks (exec (createBlock c ty position size) e) = JsMap.set nid blk (blocks e) /\
  settings (exec (createBlock c ty position size) e) = settings e /\
  id blk = nid /\ links blk = [] /\ content blk = c /\ type blk = ty.
Proof.
  destruct position, size; repeat split.
Qed.

Lemma createBlock_edges c ty position size e a b :
  edge_type (exec (createBlock c ty position size) e) a b =
    if a =? host_generateId (clock e) then None else edge_type e a b.
Proof.
  destruct (createBlock_effect c ty position size e) as (Hb & _ & _ & Hl & _).
  unfold edge_type, getBlock. rewrite Hb, get_set.
  destruct (a =? host_generateId (clock e)); auto.
  unfold Block_getLinkType. now rewrite Hl.
Qed.

Lemma createBlock_has_block c ty position size e a :
  has_block (exec (createBlock c ty position size) e) a =
    (a =? host_generateId (clock e)) || has_block e a.
Proof.
  destruct (createBlock_effect c ty position size e) as (Hb & _).
  unfold has_block. now rewrite Hb, has_set.
Qed.

Lemma purge_loop x ks : forall e,
  let e' := exec (forEach ks (fun k => on_block k (fun blk =>
              if Block_hasLink x blk then Block_removeLink x blk else ret blk))) e in
  (forall a, has_block e' a = has_block e a) /\
  published e' = published e /\
  (forall a b, edge_type e' a b =
     if existsb (String.eqb a) ks && (b =? x) then None else edge_type e a b).
Proof.
  induction ks as [|k ks IH]; intros e; simpl.
  - repeat split.
  - rewrite exec_bind.
    set (e1 := exec (on_block k _) e).
    destruct (IH e1) as (Hh & Hp & He). split; [|split].
    + intros a. rewrite Hh. apply has_block_on_block, clock_only_purge.
    + rewrite Hp. apply published_on_block, clock_only_purge.
    + intros a b. rewrite He. unfold e1. rewrite edge_purge.
      destruct (a =? k), (existsb (String.eqb a) ks), (b =? x); reflexivity.
Qed.

Lemma existsb_eqb_keys {V} a (m : JsMap.t V) :
  existsb (String.eqb a) (JsMap.keys m) = JsMap.has a m.
Proof.
  induction m as [|[k v] m IH]; simpl; auto.
  unfold JsMap.has in *; simpl. destruct (a =? k); simpl; auto.
Qed.

Lemma deleteBlock_missing x e :
  getBlock x e = None ->
  eval (deleteBlock x) e = false /\ exec (deleteBlock x) e = e.
Proof. intros H. unfold deleteBlock. run. rewrite H. now run. Qed.

Lemma deleteBlock_effect x e blk :
  getBlock x e = Some blk ->
  let e1 := exec (deleteBlock x) e in
  eval (deleteBlock x) e = true /\
  (forall a, has_block e1 a = negb (a =? x) && has_block e a) /\
  published e1 = published e ++ [blockDeleted x] /\
  (forall a b, edge_type e1 a b =
     if (a =? x) || (b =? x) then None else edge_type e a b).
Proof.
  intros H. unfold deleteBlock. run. rewrite H. run.
  split; [reflexivity|].
  destruct (purge_loop x (JsMap.keys (blocks e)) e) as (Hh & Hp & He).
  set (e' := exec (forEach _ _) e) in *.
  split; [|split].
  - intros a. unfold has_block at 1. cbn [exec emit snd blocks set_blocks].
    rewrite has_delete. f_equal. apply Hh.
  - cbn [exec emit snd published set_blocks]. now rewrite Hp.
  - intros a b. unfold edge_type at 1, getBlock.
    cbn [exec emit snd blocks set_blocks]. rewrite get_delete.
    destruct (a =? x) eqn:Ea; simpl; auto.
    change (edge_type e' a b = if b =? x then None else edge_type e a b).
    rewrite He, existsb_eqb_keys.
    destruct (b =? x); rewrite ?andb_false_r; auto.
    destruct (JsMap.has a (blocks e)) eqn:Ha; simpl; auto.
    apply edge_type_absent. unfold getBlock.
    unfold JsMap.has in Ha. now destruct (JsMap.get a (blocks e)).
Qed.

Lemma linkBlocks_missing A B ty e :
  getBlock A e = None \/ getBlock B e = None ->
  eval (linkBlocks A B ty) e = false /\ exec (linkBlocks A B ty) e = e.
Proof.
  intros H. unfold linkBlocks. run.
  destruct (getBlock A e), (getBlock B e); run; auto; destruct H; discriminate.
Qed.

Lemma unlinkBlocks_has_block A B e a :
  has_block (exec (unlinkBlocks A B) e) a = has_block e a.
Proof.
  unfold unlinkBlocks. run.
  destruct (getBlock A e), (getBlock B e); run; auto;
    rewrite has_block_emit, !has_block_on_block by apply clock_only_removeLink;
    reflexivity.
Qed.

End Lifecycle.

(* ------------------------------------------------------------------ *)
(** ** The serializer *)

Section Serializer.
Context {host : Host}.
Import JsMapFacts.

Lemma import_link_Some l blk e b1 :
  eval (import_link l blk) e = Some b1 ->
  exists i meta, link_entry_id l = Some i /\
    b1 = set_links (JsMap.set i meta) blk /\
    link_type meta = stored_type l.
Proof.
  destruct l as [i|i ty c|]; cbn; intros H; inversion H; subst; eauto.
Qed.

Lemma import_link_frame l blk : clock_only (import_link l blk).
Proof. destruct l; intros e; repeat split. Qed.

Lemma eval_import_links_cons l ls blk e :
  eval (import_links (l :: ls) blk) e =
    match eval (import_link l blk) e with
    | Some b1 => eval (import_links ls b1) (exec (import_link l blk) e)
    | None => None
    end.
Proof.
  simpl. rewrite eval_bind. now destruct (eval (import_link l blk) e).
Qed.

Lemma exec_import_links_cons l ls blk e :
  exec (import_links (l :: ls) blk) e =
    match eval (import_link l blk) e with
    | Some b1 => exec (import_links ls b1) (exec (import_link l blk) e)
    | None => exec (import_link l blk) e
    end.
Proof.
  simpl. rewrite exec_bind. now destruct (eval (import_link l blk) e).
Qed.

Lemma import_links_frame ls : forall blk, clock_only (import_links ls blk).
Proof.
  induction ls as [|l ls IH]; intros blk e.
  - repeat split.
  - rewrite exec_import_links_cons.
    destruct (import_link_frame l blk e) as (Hb & Hs & Hp).
    destruct (eval (import_link l blk) e) as [b1|]; auto.
    destruct (IH b1 (exec (import_link l blk) e)) as (Hb' & Hs' & Hp').
    repeat split; congruence.
Qed.

Lemma import_links_fields ls : forall blk e blk',
  eval (import_links ls blk) e = Some blk' ->
  id blk' = id blk /\ content blk' = content blk /\ type blk' = type blk.
Proof.
  induction ls as [|l ls IH]; intros blk e blk' H.
  - inversion H; auto.
  - rewrite eval_import_links_cons in H.
    destruct (eval (import_link l blk) e) as [b1|] eqn:E; [|discriminate].
    apply import_link_Some in E. destruct E as (i & meta & _ & -> & _).
    apply IH in H. exact H.
Qed.



(** Every entry of the table built comes from the table it started from or
    from an entry of the array. *)
Lemma import_links_origin b ls : forall blk e blk',
  eval (import_links ls blk) e = Some blk' ->
  JsMap.get b (links blk') <> None ->
  JsMap.get b (links blk) <> None \/ In (Some b) (map link_entry_id ls).
Proof.
  induction ls as [|l ls IH]; intros blk e blk' H Hg.
  - inversion H; subst; auto.
  - rewrite eval_import_links_cons in H.
    destruct (eval (import_link l blk) e) as [b1|] eqn:E; [|discriminate].
    apply import_link_Some in E. destruct E as (j & meta & Hj & -> & _).
    destruct (IH _ _ _ H Hg) as [G|G].
    + simpl in G. rewrite get_set in G.
      destruct (String.eqb_spec b j) as [->|N]; [right; left; auto | left; auto].
    + right. now right.
Qed.

(** A turn of [data.blocks.forEach] that does not throw stores one block
    under the record's id: its scalar fields are the record's (or the
    defaults), its table is built from the record's [links] array. *)
Lemma import_block_effect r e :
  eval (import_block (block_object r)) e = true ->
  exists blk,
    blocks (exec (import_block (block_object r)) e) = JsMap.set (rec_id r) blk (blocks e) /\
    settings (exec (import_block (block_object r)) e) = settings e /\
    published (exec (import_block (block_object r)) e) = published e /\
    id blk = rec_id r /\
    content blk = match rec_content r with Some c => c | None => "" end /\
    type blk = match rec_type r with Some t => t | None => "default" end /\
    position blk = match rec_position r with
                   | Some p => p
                   | None => {| pos_x := 0; pos_y := 0 |}
                   end /\
    size blk = match rec_size r with
               | Some s => s
               | None => {| width := 250; height := 150 |}
               end /\
    metadata blk = rec_metadata r /\
    match rec_links r with
    | None => links blk = []
    | Some ls => exists fresh e' b0,
        links fresh = [] /\
        eval (import_links ls fresh) e' = Some b0 /\ links blk = links b0
    end.
Proof.
  unfold import_block. run.
  set (c := match rec_content r with Some c => c | None => "" end).
  set (t := match rec_type r with Some t => t | None => "default" end).
  set (fresh := eval (Block_new (rec_id r) c t) e).
  set (e' := exec (Block_new (rec_id r) c t) e).
  destruct (rec_links r) as [ls|].
  - destruct (eval (import_links ls fresh) e') as [b0|] eqn:E; run;
      [|discriminate].
    intros _.
    destruct (import_links_fields _ _ _ _ E) as (Hid & Hc & Ht).
    destruct (import_links_frame ls fresh e') as (Hb & Hs & Hp).
    exists {| id := id b0; content := content b0; type := type b0;
              links := links b0;
              position := match rec_position r with
                          | Some p => p
                          | None => {| pos_x := 0; pos_y := 0 |}
                          end;
              size := match rec_size r with
                      | Some s => s
                      | None => {| width := 250; height := 150 |}
                      end;
              metadata := rec_metadata r |}.
    cbn [set_blocks blocks settings published id content type links
         position size metadata].
    rewrite Hb, Hs, Hp, Hid, Hc, Ht.
    split; [reflexivity|]. split; [reflexivity|]. split; [reflexivity|].
    split; [reflexivity|]. split; [reflexivity|]. split; [reflexivity|].
    split; [reflexivity|]. split; [reflexivity|]. split; [reflexivity|].
    exists fresh, e', b0. repeat split; auto.
  - run. intros _. eexists.
    repeat split; reflexivity.
Qed.

Lemma import_block_null e : eval (import_block block_null) e = false.
Proof. reflexivity. Qed.

Lemma eval_import_blocks_cons entry bs e :
  eval (import_blocks (entry :: bs)) e =
    if eval (import_block entry) e
    then eval (import_blocks bs) (exec (import_block entry) e)
    else false.
Proof. simpl. rewrite eval_bind. now destruct (eval (import_block entry) e). Qed.

Lemma exec_import_blocks_cons entry bs e :
  exec (import_blocks (entry :: bs)) e =
    if eval (import_block entry) e
    then exec (import_blocks bs) (exec (import_block entry) e)
    else exec (import_block entry) e.
Proof. simpl. rewrite exec_bind. now destruct (eval (import_block entry) e). Qed.

Lemma import_blocks_app l1 : forall l2 e,
  eval (import_blocks (l1 ++ l2)) e =
    (if eval (import_blocks l1) e
     then eval (import_blocks l2) (exec (import_blocks l1) e)
     else false) /\
  exec (import_blocks (l1 ++ l2)) e =
    (if eval (import_blocks l1) e
     then exec (import_blocks l2) (exec (import_blocks l1) e)
     else exec (import_blocks l1) e).
Proof.
  induction l1 as [|entry l1 IH]; intros l2 e.
  - split; reflexivity.
  - simpl app. rewrite !eval_import_blocks_cons, !exec_import_blocks_cons.
    destruct (eval (import_block entry) e); auto.
Qed.

(** A successful run of the loop keeps the blocks it found, stores a block
    for every record, and changes neither the settings nor the log. *)
Lemma import_blocks_grows bs : forall e,
  eval (import_blocks bs) e = true ->
  let e' := exec (import_blocks bs) e in
  (forall a, has_block e a = true -> has_block e' a = true) /\
  (forall i, In (Some i) (map entry_id bs) -> has_block e' i = true) /\
  settings e' = settings e /\ published e' = published e.
Proof.
  induction bs as [|entry bs IH]; intros e H.
  - simpl. repeat split; auto.
  - rewrite eval_import_blocks_cons in H. cbv zeta.
    rewrite exec_import_blocks_cons.
    destruct (eval (import_block entry) e) eqn:E; [|discriminate].
    destruct entry as [r|]; [|discriminate].
    destruct (import_block_effect r e E) as (blk & Hb & Hs & Hp & _).
    destruct (IH _ H) as (K1 & K2 & K3 & K4).
    split; [|split; [|split]].
    + intros a Ha. apply K1. unfold has_block in *. rewrite Hb, has_set, Ha.
      apply orb_true_r.
    + intros i [Hi|Hi].
      * apply K1. unfold has_block. rewrite Hb, has_set.
        inversion Hi. now rewrite String.eqb_refl.
      * now apply K2.
    + congruence.
    + congruence.
Qed.

(** Records with other ids leave the block stored under [i] as it was. *)
Lemma import_blocks_other i bs : forall e,
  eval (import_blocks bs) e = true ->
  (forall entry, In entry bs -> entry_id entry <> Some i) ->
  getBlock i (exec (import_blocks bs) e) = getBlock i e.
Proof.
  induction bs as [|entry bs IH]; intros e H Hn.
  - reflexivity.
  - rewrite eval_import_blocks_cons in H. rewrite exec_import_blocks_cons.
    destruct (eval (import_block entry) e) eqn:E; [|discriminate].
    destruct entry as [r|]; [|discriminate].
    destruct (import_block_effect r e E) as (blk & Hb & _).
    rewrite IH; auto; [|intros; apply Hn; now right].
    unfold getBlock. rewrite Hb. apply get_set_neq.
    intros Hr. apply (Hn (block_object r)); [now left | simpl; congruence].
Qed.

(** Every entry found after the loop was there before it or comes from the
    [links] array of a record. *)
Lemma import_blocks_origin bs : forall e,
  eval (import_blocks bs) e = true ->
  forall a b t, edge_type (exec (import_blocks bs) e) a b = Some t ->
    edge_type e a b = Some t \/
    exists entry, In entry bs /\ In (Some b) (entry_link_ids entry).
Proof.
  induction bs as [|entry bs IH]; intros e H a b t Ht.
  - now left.
  - rewrite eval_import_blocks_cons in H. rewrite exec_import_blocks_cons in Ht.
    destruct (eval (import_block entry) e) eqn:E; [|discriminate].
    destruct entry as [r|]; [|discriminate].
    destruct (IH _ H _ _ _ Ht) as [G|(entry & Hin & G)];
      [|right; exists entry; split; [now right | assumption]].
    destruct (import_block_effect r e E)
      as (blk & Hb & _ & _ & _ & _ & _ & _ & _ & _ & Hl).
    unfold edge_type, getBlock in G. rewrite Hb, get_set in G.
    destruct (a =? rec_id r); [|now left].
    right. exists (block_object r). split; [now left|].
    unfold Block_getLinkType in G. simpl. unfold record_link_ids.
    destruct (rec_links r) as [ls|].
    + destruct Hl as (fresh & e' & b0 & Hf & Hi & Hl). rewrite Hl in G.
      destruct (import_links_origin b ls fresh e' b0 Hi) as [K|K]; auto.
      * now destruct (JsMap.get b (links b0)).
      * rewrite Hf in K. simpl in K. congruence.
    + rewrite Hl in G. discriminate.
Qed.


Lemma import_links_null ls : forall blk e,
  In link_null ls -> eval (import_links ls blk) e = None.
Proof.
  induction ls as [|l ls IH]; intros blk e H; [destruct H|].
  destruct H as [->|H].
  - reflexivity.
  - rewrite eval_import_links_cons.
    destruct (eval (import_link l blk) e); auto.
Qed.

(** A turn that throws stores nothing. *)
Lemma import_block_throws entry e :
  entry = block_null \/
  (exists r ls, entry = block_object r /\ rec_links r = Some ls /\ In link_null ls) ->
  eval (import_block entry) e = false /\
  blocks (exec (import_block entry) e) = blocks e.
Proof.
  intros [->|(r & ls & -> & Hl & Hn)].
  - split; reflexivity.
  - unfold import_block. run. rewrite Hl.
    rewrite import_links_null by assumption. run. split; [reflexivity|].
    set (fresh := eval _ e).
    rewrite (proj1 (import_links_frame ls fresh _)). reflexivity.
Qed.

Lemma import_block_false entry e :
  eval (import_block entry) e = false ->
  blocks (exec (import_block entry) e) = blocks e.
Proof.
  destruct entry as [r|]; [|reflexivity].
  unfold import_block. run.
  set (fresh := eval _ e). set (e' := exec _ e).
  destruct (rec_links r) as [ls|].
  - destruct (eval (import_links ls fresh) e') eqn:L; run; [discriminate|].
    intros _. now rewrite (proj1 (import_links_frame ls fresh e')).
  - run. discriminate.
Qed.


Lemma import_links_shaped ls : forall blk e,
  Forall (fun l => l <> link_null) ls ->
  exists blk', eval (import_links ls blk) e = Some blk'.
Proof.
  induction ls as [|l ls IH]; intros blk e F.
  - eexists. reflexivity.
  - inversion F as [|? ? Hl F']; subst.
    rewrite eval_import_links_cons.
    destruct l as [i|i ty c|]; [| |congruence]; cbn [import_link]; apply IH, F'.
Qed.

Lemma import_block_shaped entry e :
  entry_shaped entry -> eval (import_block entry) e = true.
Proof.
  destruct entry as [r|]; [|intros []]. cbn [entry_shaped]. intros F.
  unfold import_block. run.
  set (fresh := eval _ e). set (e' := exec _ e).
  destruct (rec_links r) as [ls|]; run; [|reflexivity].
  destruct (import_links_shaped ls fresh e' F) as (blk' & E).
  rewrite E. now run.
Qed.

Lemma import_blocks_shaped bs : forall e,
  document_shaped bs -> eval (import_blocks bs) e = true.
Proof.
  induction bs as [|entry bs IH]; intros e F; [reflexivity|].
  inversion F; subst. rewrite eval_import_blocks_cons.
  rewrite import_block_shaped by assumption. now apply IH.
Qed.

Lemma importFromJSON_value data bs e :
  doc_blocks data = Some bs ->
  eval (importFromJSON (json_value data)) e = eval (import_blocks bs) (import_start data e) /\
  exec (importFromJSON (json_value data)) e =
    if eval (import_blocks bs) (import_start data e)
    then exec (emit (blocksImported (List.length bs)))
              (exec (import_blocks bs) (import_start data e))
    else exec (import_blocks bs) (import_start data e).
Proof.
  intros Hb. unfold importFromJSON. run. rewrite Hb.
  assert (E : exec (match doc_settings data with
                    | Some patch => modify (set_settings (Object_assign patch))
                    | None => ret tt
                    end) (set_blocks (fun _ => JsMap.empty) e)
              = import_start data e).
  { unfold import_start. destruct (doc_settings data); run; auto. }
  rewrite E. run.
  destruct (eval (import_blocks bs) (import_start data e)); run; auto.
Qed.

Lemma importFromJSON_no_blocks data e :
  doc_blocks data = None ->
  eval (importFromJSON (json_value data)) e = false /\
  blocks (exec (importFromJSON (json_value data)) e) = [].
Proof.
  intros Hb. unfold importFromJSON. run. rewrite Hb. run.
  split; auto. now destruct (doc_settings data).
Qed.

End Serializer.

(* ------------------------------------------------------------------ *)
(** ** No dangling links *)

Section Closure.
Context {host : Host}.
Import JsMapFacts.

(** C2 (as amended).  On a store without dangling entries, [createBlock],
    [linkBlocks], [updateLinkType], [unlinkBlocks] and [deleteBlock] leave a
    store without dangling entries; after [deleteBlock(X)] returns [true],
    [X] is not stored and no block holds an entry for [X]; and a successful
    [importFromJSON], which stores the link entries of the document without
    looking their targets up, leaves a store without dangling entries when
    every link entry of the document names the id of a record of the
    document. *)
Theorem mutations_keep_links_closed e :
  links_closed e ->
  (forall c ty p s, links_closed (exec (createBlock c ty p s) e)) /\
  (forall A B ty, links_closed (exec (linkBlocks A B ty) e)) /\
  (forall A B ty, links_closed (exec (updateLinkType A B ty) e)) /\
  (forall A B, links_closed (exec (unlinkBlocks A B) e)) /\
  (forall X, links_closed (exec (deleteBlock X) e)) /\
  (forall X, eval (deleteBlock X) e = true ->
     has_block (exec (deleteBlock X) e) X = false /\
     forall a, edge_type (exec (deleteBlock X) e) a X = None) /\
  (forall data bs, doc_blocks data = Some bs ->
     eval (importFromJSON (json_value data)) e = true ->
     document_closed bs ->
     links_closed (exec (importFromJSON (json_value data)) e)).
Proof.
  intros Hc.
  assert (Hlink : forall A B ty, links_closed (exec (linkBlocks A B ty) e)).
  { intros A B ty a b t H.
    destruct (getBlock A e) as [fa|] eqn:HA;
      [destruct (getBlock B e) as [fb|] eqn:HB|].
    - destruct (linkBlocks_effect A B ty e fa fb HA HB) as (_ & _ & _ & Hh & He).
      rewrite Hh. rewrite He in H.
      pose proof (has_block_of_getBlock _ _ _ HA) as hA.
      pose proof (has_block_of_getBlock _ _ _ HB) as hB.
      unfold prescribed in H.
      destruct (String.eqb_spec a A), (String.eqb_spec b B),
               (String.eqb_spec a B), (String.eqb_spec b A);
        subst; simpl in H; eauto.
    - destruct (linkBlocks_missing A B ty e) as (_ & E); auto.
      rewrite E in *. eauto.
    - destruct (linkBlocks_missing A B ty e) as (_ & E); auto.
      rewrite E in *. eauto. }
  split; [|split; [|split; [|split; [|split; [|split]]]]].
  - intros c ty p s a b t H.
    rewrite createBlock_edges in H. rewrite createBlock_has_block.
    destruct (a =? host_generateId (clock e)); [discriminate|].
    rewrite (Hc _ _ _ H). apply orb_true_r.
  - exact Hlink.
  - exact Hlink.
  - intros A B a b t H.
    rewrite unlinkBlocks_edges in H. rewrite unlinkBlocks_has_block.
    destruct (((a =? A) && (b =? B)) || ((a =? B) && (b =? A)));
      [discriminate | eauto].
  - intros X a b t H.
    destruct (getBlock X e) as [blk|] eqn:HX.
    + destruct (deleteBlock_effect X e blk HX) as (_ & Hh & _ & He).
      rewrite He in H. rewrite Hh.
      destruct (a =? X); [discriminate|].
      destruct (b =? X); [discriminate|]. simpl in *. eauto.
    + destruct (deleteBlock_missing X e HX) as (_ & E).
      rewrite E in *. eauto.
  - intros X Hret.
    destruct (getBlock X e) as [blk|] eqn:HX.
    + destruct (deleteBlock_effect X e blk HX) as (_ & Hh & _ & He).
      split.
      * rewrite Hh, String.eqb_refl. reflexivity.
      * intros a. rewrite He, String.eqb_refl, orb_true_r. reflexivity.
    + destruct (deleteBlock_missing X e HX) as (F & _). congruence.
  - intros data bs Hb Hret Hd a b t H.
    destruct (importFromJSON_value data bs e Hb) as (Ev & Ex).
    rewrite Ev in Hret. rewrite Ex, Hret in *.
    rewrite edge_type_emit in H. rewrite has_block_emit.
    destruct (import_blocks_grows bs _ Hret) as (_ & K & _).
    destruct (import_blocks_origin bs _ Hret _ _ _ H) as [G|(entry & Hin & G)].
    + discriminate.
    + apply K. eapply Hd; eauto.
Qed.

End Closure.

(* ------------------------------------------------------------------ *)
(** ** Importing documents *)

Section Importing.
Context {host : Host}.
Import JsMapFacts.


(** C8 (as amended).  [importFromJSON] returns [false] on a text that does
    not parse and leaves the store as it was; on a text that parses, the
    blocks are cleared before the document is looked at: when the text is
    [null], or the [blocks] property is absent or not an array, the call
    returns [false] and leaves no block; when [blocks] is an array with an
    element whose turn throws (a [null] element, or a record with a [null]
    link entry) after well-formed records, the call returns [false] and
    leaves the blocks that importing the records before it leaves; in no
    case does a block stored before the call remain unless the document
    has a record with its id. *)
Theorem importFromJSON_fails_after_clearing e :
  (eval (importFromJSON json_invalid) e = false /\
   exec (importFromJSON json_invalid) e = e) /\
  (eval (importFromJSON json_null) e = false /\
   blocks (exec (importFromJSON json_null) e) = []) /\
  (forall data, doc_blocks data = None ->
     eval (importFromJSON (json_value data)) e = false /\
     blocks (exec (importFromJSON (json_value data)) e) = []) /\
  (forall data pre bad post,
     doc_blocks data = Some (pre ++ bad :: post) ->
     document_shaped pre ->
     bad = block_null \/
     (exists r ls, bad = block_object r /\ rec_links r = Some ls /\ In link_null ls) ->
     eval (importFromJSON (json_value data)) e = false /\
     eval (importFromJSON (json_value (truncated data pre))) e = true /\
     blocks (exec (importFromJSON (json_value data)) e) =
       blocks (exec (importFromJSON (json_value (truncated data pre))) e)) /\
  (forall data bs a, doc_blocks data = Some bs ->
     has_block (exec (importFromJSON (json_value data)) e) a = true ->
     In (Some a) (map entry_id bs)).
Proof.
  split; [split; reflexivity|]. split; [split; reflexivity|].
  split; [intros data Hn; now apply importFromJSON_no_blocks|]. split.
  - intros data pre bad post Hb Hshape Hbad.
    destruct (importFromJSON_value data _ e Hb) as (Ev & Ex).
    destruct (importFromJSON_value (truncated data pre) pre e eq_refl) as (Ev' & Ex').
    change (import_start (truncated data pre) e) with (import_start data e) in *.
    pose proof (import_blocks_shaped pre (import_start data e) Hshape) as Hpre.
    rewrite Ev, Ev', Ex, Ex', Hpre.
    destruct (import_blocks_app pre (bad :: post) (import_start data e)) as (Av & Ax).
    rewrite Av, Ax, Hpre.
    rewrite eval_import_blocks_cons, exec_import_blocks_cons.
    destruct (import_block_throws bad (exec (import_blocks pre) (import_start data e)) Hbad)
      as (Tv & Tx).
    rewrite Tv. split; [reflexivity|]. split; [reflexivity|].
    rewrite Tx. reflexivity.
  - intros data bs a Hb.
    destruct (importFromJSON_value data _ e Hb) as (_ & Ex). rewrite Ex.
    assert (G : forall bs e0, has_block (exec (import_blocks bs) e0) a = true ->
                  has_block e0 a = true \/ In (Some a) (map entry_id bs)).
    { clear. induction bs as [|entry bs IH]; intros e0 H; [now left|].
      rewrite exec_import_blocks_cons in H.
      destruct (eval (import_block entry) e0) eqn:E.
      - destruct entry as [r|]; [|discriminate].
        destruct (import_block_effect r e0 E) as (blk & Hb & _).
        destruct (IH _ H) as [K|K]; [|right; now right].
        unfold has_block in K. rewrite Hb, has_set in K.
        apply orb_true_iff in K. destruct K as [K|K]; [|now left].
        apply String.eqb_eq in K. subst a. right. now left.
      - left. unfold has_block in *.
        now rewrite (import_block_false entry e0 E) in H. }
    intros H.
    assert (H' : has_block (exec (import_blocks bs) (import_start data e)) a = true).
    { destruct (eval (import_blocks bs) (import_start data e)); auto. }
    destruct (G _ _ H') as [K|K]; auto.
    unfold has_block, import_start in K. simpl in K. discriminate.
Qed.

End Importing.

(* ------------------------------------------------------------------ *)
(** ** The store invariant and the round trip *)

Section Invariant.
Context {host : Host}.
Import JsMapFacts.

Lemma store_ok_empty : store_ok (@JsMap.empty Block).
Proof. split; constructor. Qed.

Lemma store_ok_set k b m :
  store_ok m -> k = id b -> block_ok b -> store_ok (JsMap.set k b m).
Proof.
  intros [ND F] Hk Hb. split.
  - now apply NoDup_keys_set.
  - apply Forall_set; auto.
Qed.

Lemma store_ok_delete k m : store_ok m -> store_ok (JsMap.delete k m).
Proof.
  intros [ND F]. split.
  - now apply NoDup_keys_delete.
  - now apply Forall_delete.
Qed.

Lemma store_ok_get k b m :
  store_ok m -> JsMap.get k m = Some b -> k = id b /\ block_ok b.
Proof.
  intros [_ F] G. apply get_In in G. rewrite Forall_forall in F.
  exact (F _ G).
Qed.

Lemma store_ok_on_block k (method : Block -> ST Engine Block) e :
  (forall b, clock_only (method b)) ->
  (forall b e, id (eval (method b) e) = id b) ->
  (forall b e, block_ok b -> block_ok (eval (method b) e)) ->
  store_ok (blocks e) -> store_ok (blocks (exec (on_block k method) e)).
Proof.
  intros Hc Hid Hok H. rewrite blocks_on_block by assumption.
  destruct (getBlock k e) as [b|] eqn:G; auto.
  destruct (store_ok_get _ _ _ H G) as [Hk Hb].
  apply store_ok_set; auto. now rewrite Hid.
Qed.

Lemma block_ok_links b b' : links b' = links b -> block_ok b -> block_ok b'.
Proof. unfold block_ok. now intros ->. Qed.

Lemma block_ok_removeLink t b e : block_ok b -> block_ok (eval (Block_removeLink t b) e).
Proof.
  intros [ND F]. split; cbn.
  - now apply NoDup_keys_delete.
  - now apply Forall_delete.
Qed.

Lemma block_ok_addLink t ty b e :
  ty <> "" -> block_ok b -> block_ok (eval (Block_addLink t ty b) e).
Proof.
  intros Hty [ND F]. split; cbn.
  - now apply NoDup_keys_set.
  - apply Forall_set; auto.
Qed.

Lemma store_ok_removeLink k t e :
  store_ok (blocks e) -> store_ok (blocks (exec (on_block k (Block_removeLink t)) e)).
Proof.
  apply store_ok_on_block; auto using clock_only_removeLink, block_ok_removeLink.
Qed.

Lemma store_ok_addLink k t ty e :
  ty <> "" ->
  store_ok (blocks e) -> store_ok (blocks (exec (on_block k (Block_addLink t ty)) e)).
Proof.
  intros Hty.
  apply store_ok_on_block; auto using clock_only_addLink, block_ok_addLink.
Qed.

Lemma store_ok_setBlockPosition k x y snap e :
  store_ok (blocks e) -> store_ok (blocks (exec (setBlockPosition k x y snap) e)).
Proof.
  intros H. unfold setBlockPosition. run.
  destruct (getBlock k e); run; auto.
  cbn [exec emit snd blocks].
  apply store_ok_on_block; auto using clock_only_setPosition.
Qed.

Lemma store_ok_setBlockSize k w h e :
  store_ok (blocks e) -> store_ok (blocks (exec (setBlockSize k w h) e)).
Proof.
  intros H. unfold setBlockSize. run.
  destruct (getBlock k e); run; auto.
  cbn [exec emit snd blocks].
  apply store_ok_on_block; auto using clock_only_setSize.
Qed.

Lemma store_ok_setBlockContent k c e :
  store_ok (blocks e) -> store_ok (blocks (exec (setBlockContent k c) e)).
Proof.
  intros H. unfold setBlockContent. run.
  destruct (getBlock k e); run; auto.
  cbn [exec emit snd blocks].
  apply store_ok_on_block; auto using clock_only_setContent.
Qed.

Lemma store_ok_createBlock c ty p s e :
  store_ok (blocks e) -> store_ok (blocks (exec (createBlock c ty p s) e)).
Proof.
  intros H.
  destruct (createBlock_effect c ty p s e) as (Hb & _ & Hid & Hl & _).
  rewrite Hb. apply store_ok_set; auto.
  unfold block_ok. rewrite Hl. split; constructor.
Qed.

Lemma store_ok_linkBlocks A B ty e :
  store_ok (blocks e) -> store_ok (blocks (exec (linkBlocks A B ty) e)).
Proof.
  intros H. unfold linkBlocks. run.
  destruct (getBlock A e), (getBlock B e); run; auto.
  cbn [exec emit snd blocks].
  assert (H2 : store_ok (blocks (exec (on_block B (Block_removeLink A))
                 (exec (on_block A (Block_removeLink B)) e))))
    by (do 2 apply store_ok_removeLink; exact H).
  destruct (ty =? "single"); [|destruct (ty =? "reverse"); [|destruct (ty =? "double")]];
    run.
  - apply store_ok_addLink; [discriminate | exact H2].
  - apply store_ok_addLink; [discriminate | exact H2].
  - apply store_ok_addLink; [discriminate|].
    apply store_ok_addLink; [discriminate | exact H2].
  - exact H2.
Qed.

Lemma store_ok_unlinkBlocks A B e :
  store_ok (blocks e) -> store_ok (blocks (exec (unlinkBlocks A B) e)).
Proof.
  intros H. unfold unlinkBlocks. run.
  destruct (getBlock A e), (getBlock B e); run; auto;
    cbn [exec emit snd blocks]; do 2 apply store_ok_removeLink; exact H.
Qed.

Lemma store_ok_deleteBlock x e :
  store_ok (blocks e) -> store_ok (blocks (exec (deleteBlock x) e)).
Proof.
  intros H. unfold deleteBlock. run.
  destruct (getBlock x e); run; auto.
  cbn [exec emit snd blocks set_blocks]. apply store_ok_delete.
  apply (forEach_invariant (fun e => store_ok (blocks e))); auto.
  intros k e0 _. apply store_ok_on_block.
  - apply clock_only_purge.
  - intros b0 e1. unfold Block_hasLink. now destruct (JsMap.has x (links b0)).
  - intros b0 e1 Hb. unfold Block_hasLink.
    destruct (JsMap.has x (links b0)); auto using block_ok_removeLink.
Qed.

Lemma store_ok_arrangeBlocks columns e :
  store_ok (blocks e) -> store_ok (blocks (exec (arrangeBlocks columns) e)).
Proof.
  intros H. unfold arrangeBlocks. run. cbn [exec emit snd blocks].
  apply (forEach_invariant (fun e => store_ok (blocks e))); auto.
  intros ib e0 _ H0. run. now apply store_ok_setBlockPosition.
Qed.

Lemma or_single_not_empty ty : or_single ty <> "".
Proof.
  unfold or_single. destruct ty as [t|]; [|discriminate].
  destruct (String.eqb_spec t ""); [discriminate | assumption].
Qed.

Lemma import_links_ok ls : forall blk e blk',
  eval (import_links ls blk) e = Some blk' -> block_ok blk -> block_ok blk'.
Proof.
  induction ls as [|l ls IH]; intros blk e blk' H Hb.
  - inversion H; subst; auto.
  - rewrite eval_import_links_cons in H.
    destruct (eval (import_link l blk) e) as [b1|] eqn:E; [|discriminate].
    apply import_link_Some in E. destruct E as (i & meta & Hi & -> & Hty).
    eapply IH; eauto. destruct Hb as [ND F]. split; cbn.
    + now apply NoDup_keys_set.
    + apply Forall_set; auto. cbn. rewrite Hty.
      destruct l; cbn; try discriminate. apply or_single_not_empty.
Qed.

Lemma store_ok_import_block entry e :
  store_ok (blocks e) -> store_ok (blocks (exec (import_block entry) e)).
Proof.
  intros H. destruct (eval (import_block entry) e) eqn:E.
  - destruct entry as [r|]; [|discriminate].
    destruct (import_block_effect r e E)
      as (blk & Hb & _ & _ & Hid & _ & _ & _ & _ & _ & Hl).
    rewrite Hb. apply store_ok_set; auto.
    destruct (rec_links r) as [ls|].
    + destruct Hl as (fresh & e' & b0 & Hf & Hi & Hl).
      apply (block_ok_links b0); auto.
      eapply import_links_ok; eauto.
      unfold block_ok. rewrite Hf. split; constructor.
    + unfold block_ok. rewrite Hl. split; constructor.
  - now rewrite import_block_false.
Qed.

Lemma store_ok_import_blocks bs : forall e,
  store_ok (blocks e) -> store_ok (blocks (exec (import_blocks bs) e)).
Proof.
  induction bs as [|entry bs IH]; intros e H; auto.
  rewrite exec_import_blocks_cons.
  pose proof (store_ok_import_block entry e H).
  destruct (eval (import_block entry) e); auto.
Qed.

Lemma store_ok_importFromJSON j e :
  store_ok (blocks e) -> store_ok (blocks (exec (importFromJSON j) e)).
Proof.
  intros H. destruct j as [| |data]; auto using store_ok_empty.
  destruct (doc_blocks data) as [bs|] eqn:Hb.
  - destruct (importFromJSON_value data bs e Hb) as (_ & Ex). rewrite Ex.
    assert (K : store_ok (blocks (exec (import_blocks bs) (import_start data e))))
      by (apply store_ok_import_blocks, store_ok_empty).
    destruct (eval (import_blocks bs) (import_start data e)); auto.
  - destruct (importFromJSON_no_blocks data e Hb) as (_ & Ex). rewrite Ex.
    apply store_ok_empty.
Qed.

(** Every state of an engine keeps the store as a [Map] of blocks keyed by
    their ids, with well-formed tables. *)
Lemma reachable_store_ok e : reachable e -> store_ok (blocks e).
Proof.
  induction 1;
    auto using store_ok_empty, store_ok_createBlock, store_ok_setBlockPosition,
      store_ok_setBlockSize, store_ok_setBlockContent, store_ok_linkBlocks,
      store_ok_unlinkBlocks, store_ok_deleteBlock, store_ok_arrangeBlocks,
      store_ok_importFromJSON.
Qed.

(** Importing the entries [toJSON] writes for a well-formed table appends
    the table, entry for entry, and reads no date. *)
Lemma import_links_exported l : forall blk e,
  NoDup (JsMap.keys l) ->
  Forall (fun entry => link_type (snd entry) <> "") l ->
  (forall k, In k (JsMap.keys l) -> ~ In k (JsMap.keys (links blk))) ->
  eval (import_links
          (map (fun entry => link_object (fst entry) (Some (link_type (snd entry)))
                               (link_createdAt (snd entry))) l) blk) e
    = Some (set_links (fun ls0 => ls0 ++ l) blk) /\
  exec (import_links
          (map (fun entry => link_object (fst entry) (Some (link_type (snd entry)))
                               (link_createdAt (snd entry))) l) blk) e = e.
Proof.
  induction l as [|[k m] l IH]; intros blk e ND F Fr.
  - split; [|reflexivity]. cbn. unfold set_links. rewrite app_nil_r.
    now destruct blk.
  - inversion ND; subst. inversion F; subst.
    cbn [map]. rewrite eval_import_links_cons, exec_import_links_cons.
    cbn [import_link eval exec ret fst snd].
    set (b1 := set_links (JsMap.set k _) blk).
    assert (Hb1 : links b1 = links blk ++ [(k, m)]).
    { unfold b1. cbn. rewrite set_absent.
      - f_equal. f_equal. f_equal. destruct m as [ty c]; cbn in *.
        f_equal. apply String.eqb_neq in H3. now rewrite H3.
      - apply get_None_not_In, Fr. now left. }
    destruct (IH b1 e) as (Ev & Ex); auto.
    { intros k' Hk'. rewrite Hb1. unfold JsMap.keys. rewrite map_app, in_app_iff.
      cbn. intros [K|[<-|[]]]; [|contradiction].
      eapply Fr; [right|]; eauto. }
    rewrite Ev, Ex. split; [|reflexivity].
    unfold set_links. rewrite Hb1, <- app_assoc. reflexivity.
Qed.

(** Importing the record [toJSON] writes for a well-formed block stores the
    block itself under its id. *)
Lemma import_block_exported b e :
  block_ok b ->
  eval (import_block (block_object (Block_toJSON b))) e = true /\
  blocks (exec (import_block (block_object (Block_toJSON b))) e)
    = JsMap.set (id b) b (blocks e) /\
  settings (exec (import_block (block_object (Block_toJSON b))) e) = settings e.
Proof.
  intros [ND F]. unfold import_block. run.
  cbn [Block_toJSON rec_id rec_content rec_type rec_links rec_position
       rec_size rec_metadata]. unfold JsMap.entries.
  set (fresh := eval (Block_new (id b) (content b) (type b)) e).
  set (e' := exec (Block_new (id b) (content b) (type b)) e).
  destruct (import_links_exported (links b) fresh e') as (Ev & Ex); auto.
  rewrite Ev, Ex. run.
  split; [reflexivity|]. split; [|reflexivity].
  cbn. now destruct b.
Qed.

Lemma import_blocks_exported l : forall e,
  Forall (fun entry => fst entry = id (snd entry) /\ block_ok (snd entry)) l ->
  eval (import_blocks (map (fun b => block_object (Block_toJSON b)) (JsMap.values l))) e
    = true /\
  blocks (exec (import_blocks
                  (map (fun b => block_object (Block_toJSON b)) (JsMap.values l))) e)
    = fold_left (fun a kv => JsMap.set (fst kv) (snd kv) a) l (blocks e) /\
  settings (exec (import_blocks
                    (map (fun b => block_object (Block_toJSON b)) (JsMap.values l))) e)
    = settings e.
Proof.
  induction l as [|[k b] l IH]; intros e F.
  - repeat split.
  - inversion F as [|? ? [Hk Hb] F']; subst. cbn in Hk, Hb.
    cbn [JsMap.values map snd].
    rewrite eval_import_blocks_cons, exec_import_blocks_cons.
    destruct (import_block_exported b e Hb) as (Ev & Eb & Es).
    rewrite Ev.
    destruct (IH (exec (import_block (block_object (Block_toJSON b))) e) F')
      as (Iv & Ib & Is).
    unfold JsMap.values in *.
    rewrite Iv, Ib, Is, Eb, Es. cbn. subst k. auto.
Qed.


End Invariant.

(* ------------------------------------------------------------------ *)
(** ** Numbers *)

Lemma js_gt_true a b : js_gt a b = true <-> b < a.
Proof.
  unfold js_gt. rewrite negb_true_iff.
  destruct (Qle_bool a b) eqn:E.
  - apply Qle_bool_iff in E. split; [discriminate|].
    intros H. exfalso. apply (Qlt_not_le _ _ H E).
  - split; auto. intros _. apply Qnot_le_lt. intros H.
    apply Qle_bool_iff in H. congruence.
Qed.

Lemma js_gt_false a b : js_gt a b = false <-> a <= b.
Proof.
  unfold js_gt. rewrite negb_false_iff. apply Qle_bool_iff.
Qed.

(** [Math.round] followed by the multiplication lands on the multiple of
    the grid nearest to the coordinate, the upper one of two equally near. *)
Lemma snap_nearest g v :
  0 < g ->
  (exists n : Z, Math_round (v / g) * g == inject_Z n * g) /\
  v - g / 2 < Math_round (v / g) * g /\
  Math_round (v / g) * g <= v + g / 2.
Proof.
  intros Hg. unfold Math_round.
  set (q := v / g + (1 # 2)). set (n := Qfloor q).
  assert (Hn : ~ g == 0) by (intros E; rewrite E in Hg; discriminate).
  assert (L : inject_Z n <= q) by apply Qfloor_le.
  assert (U : q < inject_Z n + 1).
  { pose proof (Qlt_floor q) as K. fold n in K.
    rewrite inject_Z_plus in K. exact K. }
  assert (E : q * g == v + g / 2) by (unfold q; field; exact Hn).
  split; [exists n; reflexivity|].
  generalize dependent (inject_Z n). intros z L U.
  clearbody q.
  assert (L' : z * g <= q * g) by (apply Qmult_le_compat_r; auto using Qlt_le_weak).
  assert (U' : q * g < (z + 1) * g) by (apply Qmult_lt_compat_r; auto).
  rewrite E in L', U'.
  setoid_replace ((z + 1) * g) with (z * g + g) in U' by ring.
  generalize dependent (z * g). intros zg L' U'.
  split.
  - apply Qplus_lt_l with (g / 2).
    setoid_replace (v - g / 2 + g / 2) with v by ring.
    apply Qplus_lt_l with (g / 2).
    setoid_replace (zg + g / 2 + g / 2) with (zg + g) by field.
    exact U'.
  - exact L'.
Qed.

Lemma snap_nonnegative g v :
  0 < g -> 0 <= v -> Math_round (v / g) * g = snap_as_specified g v.
Proof.
  intros Hg Hv. unfold snap_as_specified, round_half_away_from_zero, Math_round.
  assert (H : Qle_bool 0 (v / g) = true).
  { apply Qle_bool_iff. apply Qle_shift_div_l; auto.
    setoid_replace (0 * g) with 0 by ring. exact Hv. }
  now rewrite H.
Qed.

(* ------------------------------------------------------------------ *)
(** ** Placing blocks *)

Section Placement.
Context {host : Host}.
Import JsMapFacts.

Lemma setBlockPosition_effect k x y (snap : bool) e blk :
  getBlock k e = Some blk ->
  let g := gridSize (settings e) in
  let x' := if snap then Math_round (x / g) * g else x in
  let y' := if snap then Math_round (y / g) * g else y in
  eval (setBlockPosition k x y snap) e = true /\
  published (exec (setBlockPosition k x y snap) e) = published e ++ [blockMoved k] /\
  exists blk',
    getBlock k (exec (setBlockPosition k x y snap) e) = Some blk' /\
    position blk' = {| pos_x := x'; pos_y := y' |} /\
    id blk' = id blk /\ content blk' = content blk /\ links blk' = links blk /\
    size blk' = size blk.
Proof.
  intros H. unfold setBlockPosition. run. rewrite H. run.
  split; [reflexivity|]. split.
  - cbn [exec emit snd published].
    now rewrite published_on_block by apply clock_only_setPosition.
  - eexists. split.
    + change (getBlock k (exec (emit (blockMoved k)) ?e) ) with (getBlock k e).
      unfold getBlock at 1. cbn [exec emit snd blocks].
      rewrite blocks_on_block by apply clock_only_setPosition.
      rewrite H, get_set_eq. reflexivity.
    + repeat split.
Qed.

(** C4 (as amended).  On a stored block and a positive [gridSize],
    [setBlockPosition(id, x, y, true)] returns [true] and stores each
    coordinate rounded to the nearest multiple of [gridSize], an exact half
    going to the upper multiple (towards +infinity); on a coordinate that is
    not negative this is the rounding away from zero; with [gridSize] 20,
    (27, 33) is stored as (20, 40). *)
Theorem setBlockPosition_snaps_to_grid e k blk x y :
  getBlock k e = Some blk ->
  0 < gridSize (settings e) ->
  let g := gridSize (settings e) in
  eval (setBlockPosition k x y true) e = true /\
  (exists blk', getBlock k (exec (setBlockPosition k x y true) e) = Some blk' /\
     let sx := pos_x (position blk') in
     let sy := pos_y (position blk') in
     (exists n : Z, sx == inject_Z n * g) /\ x - g / 2 < sx /\ sx <= x + g / 2 /\
     (exists n : Z, sy == inject_Z n * g) /\ y - g / 2 < sy /\ sy <= y + g / 2 /\
     (0 <= x -> sx = snap_as_specified g x) /\
     (0 <= y -> sy = snap_as_specified g y)) /\
  (g == 20 ->
   exists blk', getBlock k (exec (setBlockPosition k 27 33 true) e) = Some blk' /\
     pos_x (position blk') == 20 /\ pos_y (position blk') == 40).
Proof.
  intros H Hg g. split; [|split].
  - apply (setBlockPosition_effect k x y true e blk H).
  - destruct (setBlockPosition_effect k x y true e blk H)
      as (_ & _ & blk' & G & P & _).
    exists blk'. split; [exact G|]. rewrite P. cbn [pos_x pos_y]. fold g.
    destruct (snap_nearest g x Hg) as (Nx & Lx & Ux).
    destruct (snap_nearest g y Hg) as (Ny & Ly & Uy).
    repeat split; auto using snap_nonnegative.
  - intros E.
    destruct (setBlockPosition_effect k 27 33 true e blk H)
      as (_ & _ & blk' & G & P & _).
    exists blk'. split; [exact G|]. rewrite P. cbn [pos_x pos_y]. fold g.
    unfold Math_round.
    assert (Ex : Qfloor (27 / g + (1 # 2)) = 1%Z).
    { rewrite (Qfloor_comp (27 / g + (1 # 2)) (27 / 20 + (1 # 2))).
      - reflexivity.
      - now rewrite E. }
    assert (Ey : Qfloor (33 / g + (1 # 2)) = 2%Z).
    { rewrite (Qfloor_comp (33 / g + (1 # 2)) (33 / 20 + (1 # 2))).
      - reflexivity.
      - now rewrite E. }
    rewrite Ex, Ey, E. split; reflexivity.
Qed.

Lemma rightmost_scan bs : forall mx my,
  ((forall b, In b bs -> pos_x (position b) <= mx) /\
   fold_left rightmost_step bs (mx, my) = (mx, my)) \/
  (exists l1 b l2, bs = l1 ++ b :: l2 /\
     mx < pos_x (position b) /\
     (forall b', In b' l1 -> pos_x (position b') < pos_x (position b)) /\
     (forall b', In b' l2 -> pos_x (position b') <= pos_x (position b)) /\
     fold_left rightmost_step bs (mx, my)
       = (pos_x (position b), pos_y (position b))).
Proof.
  induction bs as [|b0 bs IH]; intros mx my.
  - left. split; [intros b []|reflexivity].
  - cbn [fold_left].
    replace (rightmost_step (mx, my) b0)
      with (if js_gt (pos_x (position b0)) mx
            then (pos_x (position b0), pos_y (position b0)) else (mx, my))
      by reflexivity.
    destruct (js_gt (pos_x (position b0)) mx) eqn:G.
    + apply js_gt_true in G. right.
      destruct (IH (pos_x (position b0)) (pos_y (position b0)))
        as [(Hall & Hf)|(l1 & b & l2 & -> & Hlt & H1 & H2 & Hf)].
      * exists [], b0, bs. repeat split; auto. intros b' [].
      * exists (b0 :: l1), b, l2. repeat split; auto.
        -- now apply Qlt_trans with (pos_x (position b0)).
        -- intros b' [<-|Hin]; auto.
    + apply js_gt_false in G.
      destruct (IH mx my)
        as [(Hall & Hf)|(l1 & b & l2 & -> & Hlt & H1 & H2 & Hf)].
      * left. split; auto. intros b [<-|Hin]; auto.
      * right. exists (b0 :: l1), b, l2. repeat split; auto.
        intros b' [<-|Hin]; auto.
        now apply Qle_lt_trans with mx.
Qed.

(** C3 (as amended).  [createBlock] without a position stores the block it
    returns; in an empty store the block is at (50,50); in a store with a
    block to the right of x = 0 the scan selects the block with the
    greatest x, the first scanned among those with that x, and the new
    block is at (that.x + defaultSpacing, that.y). *)
Theorem createBlock_auto_position e c ty :
  let blk := eval (createBlock c ty None None) e in
  getBlock (id blk) (exec (createBlock c ty None None) e) = Some blk /\
  (getAllBlocks e = [] -> position blk = {| pos_x := 50; pos_y := 50 |}) /\
  ((exists b, In b (getAllBlocks e) /\ 0 < pos_x (position b)) ->
   exists l1 b l2,
     getAllBlocks e = l1 ++ b :: l2 /\
     (forall b', In b' l1 -> pos_x (position b') < pos_x (position b)) /\
     (forall b', In b' l2 -> pos_x (position b') <= pos_x (position b)) /\
     position blk = {| pos_x := pos_x (position b) + defaultSpacing (settings e);
                       pos_y := pos_y (position b) |}).
Proof.
  intros blk.
  assert (P : position blk = {| pos_x := pos_x (getAutoPosition e);
                                pos_y := pos_y (getAutoPosition e) |})
    by reflexivity.
  split; [|split].
  - destruct (createBlock_effect c ty None None e) as (Hb & _ & Hid & _).
    unfold getBlock. fold blk in Hb, Hid. rewrite Hb, Hid. apply get_set_eq.
  - intros E. rewrite P. unfold getAutoPosition. now rewrite E.
  - intros (b1 & Hin & Hpos). rewrite P. unfold getAutoPosition.
    destruct (getAllBlocks e) as [|b0 bs] eqn:E; [destruct Hin|].
    destruct (rightmost_scan (b0 :: bs) 0 50)
      as [(Hall & _)|(l1 & b & l2 & E' & Hlt & H1 & H2 & Hf)].
    + exfalso. apply (Qlt_not_le _ _ Hpos). now apply Hall.
    + exists l1, b, l2. rewrite Hf. cbn [fst snd pos_x pos_y]. auto.
Qed.

End Placement.

(* ------------------------------------------------------------------ *)
(** ** Connector geometry *)

Lemma Math_sign_pos q : 0 < q -> Math_sign q = 1.
Proof.
  intros H. unfold Math_sign. apply js_gt_true in H. now rewrite H.
Qed.

Lemma Math_sign_neg q : q < 0 -> Math_sign q = -1.
Proof.
  intros H. unfold Math_sign.
  assert (G : js_gt q 0 = false) by (apply js_gt_false; now apply Qlt_le_weak).
  apply js_gt_true in H. now rewrite G, H.
Qed.

Lemma ratio_nonneg a b : 0 < b -> 0 <= Qabs a / b.
Proof.
  intros Hb. apply Qle_shift_div_l; auto.
  setoid_replace (0 * b) with 0 by ring. apply Qabs_nonneg.
Qed.

Lemma ratio_zero a b : a == 0 -> Qabs a / b == 0.
Proof. intros E. rewrite E. reflexivity. Qed.

(** The crossing stays on the edge: when [|b| / h <= |a| / w] and [a] is not
    zero, the offset [b * (sign(a) * (w/2) / a)] along the edge is within
    half of [h]. *)
Lemma crossing_within a b w h :
  0 < w -> 0 < h -> ~ a == 0 -> Qabs b / h <= Qabs a / w ->
  - (h / 2) <= b * (Math_sign a * (w / 2) / a) /\
  b * (Math_sign a * (w / 2) / a) <= h / 2.
Proof.
  intros Hw Hh Na H.
  assert (Nw : ~ w == 0) by (intros E; rewrite E in Hw; discriminate).
  assert (Nh : ~ h == 0) by (intros E; rewrite E in Hh; discriminate).
  assert (X : Qabs b * w <= Qabs a * h).
  { apply Qmult_le_r with (/ (w * h)).
    - apply Qinv_lt_0_compat.
      setoid_replace 0 with (0 * h) by ring. now apply Qmult_lt_compat_r.
    - setoid_replace (Qabs b * w * / (w * h)) with (Qabs b / h) by (field; auto).
      setoid_replace (Qabs a * h * / (w * h)) with (Qabs a / w) by (field; auto).
      exact H. }
  assert (Bu : b <= Qabs b) by apply Qle_Qabs.
  assert (Bl : - Qabs b <= b).
  { rewrite <- (Qabs_opp b). rewrite <- (Qopp_involutive b) at 2.
    apply Qopp_le_compat, Qle_Qabs. }
  assert (K : exists k, 0 < k /\ Qabs a * k == 1 /\
                        Math_sign a * (w / 2) / a == w * k * (1 # 2)).
  { destruct (Q_dec a 0) as [[Hneg|Hpos]|E0]; [| |contradiction].
    - exists (/ - a). rewrite (Math_sign_neg a Hneg).
      rewrite (Qabs_neg a) by now apply Qlt_le_weak.
      assert (P : 0 < - a).
      { setoid_replace 0 with (- 0) by ring. now apply Qopp_lt_compat. }
      split; [now apply Qinv_lt_0_compat|]. split; field; auto.
    - exists (/ a). rewrite (Math_sign_pos a Hpos).
      rewrite (Qabs_pos a) by now apply Qlt_le_weak.
      split; [now apply Qinv_lt_0_compat|]. split; field; auto. }
  destruct K as (k & Hk & Ek & Es).
  setoid_replace (b * (Math_sign a * (w / 2) / a)) with (b * (w * k) * (1 # 2))
    by (rewrite Es; ring).
  setoid_replace (h / 2) with (h * (1 # 2)) by field.
  assert (Y : Qabs b * (w * k) <= h).
  { assert (Eh : Qabs a * h * k == h).
    { setoid_replace (Qabs a * h * k) with (Qabs a * k * h) by ring.
      rewrite Ek. ring. }
    rewrite <- Eh.
    setoid_replace (Qabs b * (w * k)) with (Qabs b * w * k) by ring.
    apply Qmult_le_compat_r; auto using Qlt_le_weak. }
  assert (U : 0 < w * k).
  { setoid_replace 0 with (0 * k) by ring. now apply Qmult_lt_compat_r. }
  clear H X Es.
  generalize dependent (Qabs b). intros B Bu Bl Y.
  generalize dependent (w * k). intros u Y U.
  split; nra.
Qed.

Lemma Qabs_zero_ratio a b : 0 < b -> Qabs a / b <= 0 -> a == 0.
Proof.
  intros Hb H.
  assert (Nb : ~ b == 0) by (intros E; rewrite E in Hb; discriminate).
  assert (Z : Qabs a <= 0).
  { setoid_replace (Qabs a) with (Qabs a / b * b) by (field; auto).
    setoid_replace 0 with (0 * b) by ring.
    apply Qmult_le_compat_r; auto using Qlt_le_weak. }
  apply Qle_antisym.
  - apply Qle_trans with (Qabs a); [apply Qle_Qabs | exact Z].
  - setoid_replace a with (- - a) by ring.
    setoid_replace 0 with (- 0) by ring.
    apply Qopp_le_compat.
    apply Qle_trans with (Qabs a); [|exact Z].
    rewrite <- Qabs_opp. apply Qle_Qabs.
Qed.

(** C9.  For a source rectangle of positive width and height whose center
    is not the target's, [getConnectionPoint] compares [|dx|/width] with
    [|dy|/height].  When the horizontal ratio is the greater, [dx] is not
    zero and the point returned is, in the container's coordinates, the
    point of the source's right edge (for [dx > 0]) or left edge (for
    [dx < 0]) at [y = centerY + dy * (halfWidth * sign(dx)) / dx], which lies
    between the top and the bottom of the source; otherwise [dy] is not zero
    and the point is the one on the bottom or top edge, with the axes
    swapped.  For A = (0,0,100,100) and B = (300,0,100,100), in a container
    at the origin that is not scrolled, the point is (100,50). *)
Theorem getConnectionPoint_crosses_boundary s t c :
  let w := rect_width s in
  let h := rect_height s in
  let cx := rect_left s + w / 2 in
  let cy := rect_top s + h / 2 in
  let dx := rect_left t + rect_width t / 2 - cx in
  let dy := rect_top t + rect_height t / 2 - cy in
  let ox := scrollLeft c - rect_left (containerRect c) in
  let oy := scrollTop c - rect_top (containerRect c) in
  let p := getConnectionPoint s t c in
  0 < w -> 0 < h -> ~ (dx == 0 /\ dy == 0) ->
  (Qabs dy / h < Qabs dx / w ->
     ~ dx == 0 /\
     pt_x p == cx + Math_sign dx * (w / 2) + ox /\
     pt_y p == cy + dy * (Math_sign dx * (w / 2) / dx) + oy /\
     (0 < dx -> pt_x p == rect_left s + w + ox) /\
     (dx < 0 -> pt_x p == rect_left s + ox) /\
     rect_top s + oy <= pt_y p /\ pt_y p <= rect_top s + h + oy) /\
  (Qabs dx / w <= Qabs dy / h ->
     ~ dy == 0 /\
     pt_x p == cx + dx * (Math_sign dy * (h / 2) / dy) + ox /\
     pt_y p == cy + Math_sign dy * (h / 2) + oy /\
     (0 < dy -> pt_y p == rect_top s + h + oy) /\
     (dy < 0 -> pt_y p == rect_top s + oy) /\
     rect_left s + ox <= pt_x p /\ pt_x p <= rect_left s + w + ox) /\
  (forall cw ch,
     let A := {| rect_left := 0; rect_top := 0; rect_width := 100; rect_height := 100 |} in
     let B := {| rect_left := 300; rect_top := 0; rect_width := 100; rect_height := 100 |} in
     let origin := {| containerRect := {| rect_left := 0; rect_top := 0;
                                          rect_width := cw; rect_height := ch |};
                      scrollLeft := 0; scrollTop := 0 |} in
     pt_x (getConnectionPoint A B origin) == 100 /\
     pt_y (getConnectionPoint A B origin) == 50).
Proof.
  intros w h cx cy dx dy ox oy p Hw Hh Hd.
  assert (Nw : ~ w == 0) by (intros E; rewrite E in Hw; discriminate).
  assert (Nh : ~ h == 0) by (intros E; rewrite E in Hh; discriminate).
  split; [|split].
  - intros H.
    assert (Nx : ~ dx == 0).
    { intros E. rewrite (ratio_zero dx w E) in H.
      apply (Qlt_not_le _ _ H). now apply ratio_nonneg. }
    assert (T : js_gt (Math_abs dx / w) (Math_abs dy / h) = true)
      by now apply js_gt_true.
    assert (Px : pt_x p == cx + Math_sign dx * (w / 2) + ox).
    { unfold p, getConnectionPoint. fold w h cx cy dx dy. rewrite T.
      cbn [fst snd pt_x pt_y]. unfold ox. ring. }
    assert (Py : pt_y p == cy + dy * (Math_sign dx * (w / 2) / dx) + oy).
    { unfold p, getConnectionPoint. fold w h cx cy dx dy. rewrite T.
      cbn [fst snd pt_x pt_y]. unfold oy. ring. }
    destruct (crossing_within dx dy w h Hw Hh Nx (Qlt_le_weak _ _ H)) as (L & U).
    split; [exact Nx|]. split; [exact Px|]. split; [exact Py|].
    split; [|split; [|split]].
    + intros P. rewrite Px, (Math_sign_pos dx P). unfold cx. field.
    + intros P. rewrite Px, (Math_sign_neg dx P). unfold cx. field.
    + rewrite Py. unfold cy.
      setoid_replace (rect_top s + oy)
        with (rect_top s + h / 2 + - (h / 2) + oy) by ring.
      apply Qplus_le_l, Qplus_le_r, L.
    + rewrite Py. unfold cy.
      setoid_replace (rect_top s + h + oy)
        with (rect_top s + h / 2 + h / 2 + oy) by field.
      apply Qplus_le_l, Qplus_le_r, U.
  - intros H.
    assert (Ny : ~ dy == 0).
    { intros E. apply Hd. split; [|exact E].
      apply (Qabs_zero_ratio dx w Hw).
      rewrite (ratio_zero dy h E) in H. exact H. }
    assert (T : js_gt (Math_abs dx / w) (Math_abs dy / h) = false)
      by now apply js_gt_false.
    assert (Px : pt_x p == cx + dx * (Math_sign dy * (h / 2) / dy) + ox).
    { unfold p, getConnectionPoint. fold w h cx cy dx dy. rewrite T.
      cbn [fst snd pt_x pt_y]. unfold ox. ring. }
    assert (Py : pt_y p == cy + Math_sign dy * (h / 2) + oy).
    { unfold p, getConnectionPoint. fold w h cx cy dx dy. rewrite T.
      cbn [fst snd pt_x pt_y]. unfold oy. ring. }
    destruct (crossing_within dy dx h w Hh Hw Ny H) as (L & U).
    split; [exact Ny|]. split; [exact Px|]. split; [exact Py|].
    split; [|split; [|split]].
    + intros P. rewrite Py, (Math_sign_pos dy P). unfold cy. field.
    + intros P. rewrite Py, (Math_sign_neg dy P). unfold cy. field.
    + rewrite Px. unfold cx.
      setoid_replace (rect_left s + ox)
        with (rect_left s + w / 2 + - (w / 2) + ox) by ring.
      apply Qplus_le_l, Qplus_le_r, L.
    + rewrite Px. unfold cx.
      setoid_replace (rect_left s + w + ox)
        with (rect_left s + w / 2 + w / 2 + ox) by field.
      apply Qplus_le_l, Qplus_le_r, U.
  - intros cw ch A B origin. split; vm_compute; reflexivity.
Qed.

(* ------------------------------------------------------------------ *)
(** ** Unknown ids, and what the setters leave alone *)

Section Setters.
Context {host : Host}.
Import JsMapFacts.

Lemma getBlock_on_block_other k (method : Block -> ST Engine Block) e a :
  (forall b, clock_only (method b)) -> a <> k ->
  getBlock a (exec (on_block k method) e) = getBlock a e.
Proof.
  intros Hm N. rewrite getBlock_on_block by assumption.
  apply String.eqb_neq in N. now rewrite N.
Qed.

Lemma edge_on_block_same_links k (method : Block -> ST Engine Block) e a b :
  (forall blk, clock_only (method blk)) ->
  (forall blk e', links (eval (method blk) e') = links blk) ->
  edge_type (exec (on_block k method) e) a b = edge_type e a b.
Proof.
  intros Hm Hl. unfold edge_type. rewrite getBlock_on_block by assumption.
  destruct (String.eqb_spec a k) as [->|N]; auto.
  destruct (getBlock k e) as [blk|]; auto.
  unfold Block_getLinkType. now rewrite Hl.
Qed.

Lemma setBlockPosition_missing k x y snap e :
  getBlock k e = None ->
  eval (setBlockPosition k x y snap) e = false /\
  exec (setBlockPosition k x y snap) e = e.
Proof. intros H. unfold setBlockPosition. run. rewrite H. now run. Qed.

Lemma setBlockSize_missing k w h e :
  getBlock k e = None ->
  eval (setBlockSize k w h) e = false /\ exec (setBlockSize k w h) e = e.
Proof. intros H. unfold setBlockSize. run. rewrite H. now run. Qed.

Lemma setBlockContent_missing k c e :
  getBlock k e = None ->
  eval (setBlockContent k c) e = false /\ exec (setBlockContent k c) e = e.
Proof. intros H. unfold setBlockContent. run. rewrite H. now run. Qed.

Lemma unlinkBlocks_missing A B e :
  getBlock A e = None -> getBlock B e = None ->
  eval (unlinkBlocks A B) e = false /\ exec (unlinkBlocks A B) e = e.
Proof. intros HA HB. unfold unlinkBlocks. run. rewrite HA, HB. now run. Qed.

(** X1.  A call that names an id that is not stored returns [false] (or
    [null], or no block) and leaves the engine exactly as it was: no block
    is changed, no event is published and the host is not read. *)
Theorem unknown_id_changes_nothing e k :
  getBlock k e = None ->
  (forall x y snap, eval (setBlockPosition k x y snap) e = false /\
                    exec (setBlockPosition k x y snap) e = e) /\
  (forall w h, eval (setBlockSize k w h) e = false /\
               exec (setBlockSize k w h) e = e) /\
  (forall c, eval (setBlockContent k c) e = false /\
             exec (setBlockContent k c) e = e) /\
  (eval (deleteBlock k) e = false /\ exec (deleteBlock k) e = e) /\
  (forall other ty,
     (eval (linkBlocks k other ty) e = false /\ exec (linkBlocks k other ty) e = e) /\
     (eval (linkBlocks other k ty) e = false /\ exec (linkBlocks other k ty) e = e)) /\
  (forall other, getBlock other e = None ->
     eval (unlinkBlocks k other) e = false /\ exec (unlinkBlocks k other) e = e) /\
  (forall other, getLinkInfo k other e = None /\ getLinkInfo other k e = None) /\
  getOutgoingLinks k e = [].
Proof.
  intros H.
  split; [intros x y snap; now apply setBlockPosition_missing|].
  split; [intros w h; now apply setBlockSize_missing|].
  split; [intros c; now apply setBlockContent_missing|].
  split; [now apply deleteBlock_missing|].
  split; [intros other ty; split; apply linkBlocks_missing; now auto|].
  split; [intros other Ho; now apply unlinkBlocks_missing|].
  split.
  - intros other. split; unfold getLinkInfo.
    + now rewrite H.
    + rewrite H. now destruct (getBlock other e).
  - unfold getOutgoingLinks. now rewrite H.
Qed.

Lemma Math_max_bounds a b :
  b <= Math_max a b /\ a <= Math_max a b /\
  (a <= b -> Math_max a b = b) /\ (b <= a -> Math_max a b == a).
Proof.
  unfold Math_max. destruct (Qle_bool a b) eqn:E.
  - apply Qle_bool_iff in E.
    split; [apply Qle_refl|]. split; [exact E|]. split; [reflexivity|].
    intros H. now apply Qle_antisym.
  - assert (L : b < a).
    { apply Qnot_le_lt. intros H. apply Qle_bool_iff in H. congruence. }
    split; [now apply Qlt_le_weak|]. split; [apply Qle_refl|]. split.
    + intros H. exfalso. apply (Qlt_not_le _ _ L H).
    + intros _. reflexivity.
Qed.

(** X2.  [setBlockSize] on a stored block returns [true] and stores
    [max(width, minBlockWidth)] and [max(height, minBlockHeight)]: never
    less than the minimum, never less than what was asked, and what was
    asked when that is at least the minimum.  The block keeps its id,
    content, type, links and position, every other block is untouched, and
    [blockResized] is published. *)
Theorem setBlockSize_clamps_to_minimum e k blk w h :
  getBlock k e = Some blk ->
  let s := settings e in
  let e1 := exec (setBlockSize k w h) e in
  eval (setBlockSize k w h) e = true /\
  (exists blk', getBlock k e1 = Some blk' /\
     minBlockWidth s <= width (size blk') /\ w <= width (size blk') /\
     (w <= minBlockWidth s -> width (size blk') = minBlockWidth s) /\
     (minBlockWidth s <= w -> width (size blk') == w) /\
     minBlockHeight s <= height (size blk') /\ h <= height (size blk') /\
     (h <= minBlockHeight s -> height (size blk') = minBlockHeight s) /\
     (minBlockHeight s <= h -> height (size blk') == h) /\
     id blk' = id blk /\ content blk' = content blk /\ type blk' = type blk /\
     links blk' = links blk /\ position blk' = position blk) /\
  (forall a, a <> k -> getBlock a e1 = getBlock a e) /\
  published e1 = published e ++ [blockResized k] /\
  settings e1 = settings e.
Proof.
  intros H s e1. unfold e1, setBlockSize. run. rewrite H. run.
  split; [reflexivity|].
  set (w' := Math_max w (minBlockWidth (settings e))).
  set (h' := Math_max h (minBlockHeight (settings e))).
  split; [|split; [|split]].
  - exists (eval (Block_setSize w' h' blk) e). split.
    + change (getBlock k (exec (on_block k (Block_setSize w' h')) e)
              = Some (eval (Block_setSize w' h' blk) e)).
      rewrite getBlock_on_block by apply clock_only_setSize.
      now rewrite String.eqb_refl, H.
    + cbn [eval Block_setSize bind now ret fst touch size width height
           id content type links position].
      destruct (Math_max_bounds w (minBlockWidth (settings e))) as (A1 & A2 & A3 & A4).
      destruct (Math_max_bounds h (minBlockHeight (settings e))) as (B1 & B2 & B3 & B4).
      fold w' h' in A1, A2, A3, A4, B1, B2, B3, B4. unfold s.
      repeat split; auto.
  - intros a N.
    change (getBlock a (exec (on_block k (Block_setSize w' h')) e) = getBlock a e).
    now apply getBlock_on_block_other; [apply clock_only_setSize|].
  - cbn [exec emit snd published].
    now rewrite published_on_block by apply clock_only_setSize.
  - cbn [exec emit snd settings].
    now rewrite settings_on_block by apply clock_only_setSize.
Qed.

Lemma setter_keeps_graph k (method : Block -> ST Engine Block) ev e :
  (forall blk, clock_only (method blk)) ->
  (forall blk e', links (eval (method blk) e') = links blk) ->
  let e1 := exec (emit ev) (exec (on_block k method) e) in
  (forall a b, edge_type e1 a b = edge_type e a b) /\
  (forall a, has_block e1 a = has_block e a) /\
  settings e1 = settings e.
Proof.
  intros Hm Hl e1. unfold e1. split; [|split].
  - intros a b. rewrite edge_type_emit. now apply edge_on_block_same_links.
  - intros a. rewrite has_block_emit. now apply has_block_on_block.
  - cbn [exec emit snd settings]. now apply settings_on_block.
Qed.

Lemma setBlockPosition_keeps_graph k x y snap e :
  let e1 := exec (setBlockPosition k x y snap) e in
  (forall a b, edge_type e1 a b = edge_type e a b) /\
  (forall a, has_block e1 a = has_block e a) /\
  settings e1 = settings e.
Proof.
  unfold setBlockPosition. run. destruct (getBlock k e); run; [|now auto].
  apply setter_keeps_graph; auto using clock_only_setPosition.
Qed.

Lemma setBlockSize_keeps_graph k w h e :
  let e1 := exec (setBlockSize k w h) e in
  (forall a b, edge_type e1 a b = edge_type e a b) /\
  (forall a, has_block e1 a = has_block e a) /\
  settings e1 = settings e.
Proof.
  unfold setBlockSize. run. destruct (getBlock k e); run; [|now auto].
  apply setter_keeps_graph; auto using clock_only_setSize.
Qed.

Lemma setBlockContent_keeps_graph k c e :
  let e1 := exec (setBlockContent k c) e in
  (forall a b, edge_type e1 a b = edge_type e a b) /\
  (forall a, has_block e1 a = has_block e a) /\
  settings e1 = settings e.
Proof.
  unfold setBlockContent. run. destruct (getBlock k e); run; [|now auto].
  apply setter_keeps_graph; auto using clock_only_setContent.
Qed.

Lemma arrangeBlocks_keeps_graph columns e :
  let e1 := exec (arrangeBlocks columns) e in
  (forall a b, edge_type e1 a b = edge_type e a b) /\
  (forall a, has_block e1 a = has_block e a) /\
  settings e1 = settings e.
Proof.
  unfold arrangeBlocks. run.
  set (l := combine _ _). set (f := fun ib : nat * Block => _).
  assert (K : (fun e' => (forall a b, edge_type e' a b = edge_type e a b) /\
                         (forall a, has_block e' a = has_block e a) /\
                         settings e' = settings e) (exec (forEach l f) e)).
  { apply forEach_invariant; [|now auto].
    intros ib e0 _ (I1 & I2 & I3). unfold f. run.
    destruct (setBlockPosition_keeps_graph (id (snd ib))
                (50 + inject_Z (Z.of_nat (fst ib mod columns)) * defaultSpacing (settings e))
                (50 + inject_Z (Z.of_nat (fst ib / columns)) * defaultSpacing (settings e))
                true e0) as (J1 & J2 & J3).
    split; [|split].
    - intros a b. now rewrite J1.
    - intros a. now rewrite J2.
    - now rewrite J3. }
  exact K.
Qed.

Lemma exportToJSON_keeps_store e :
  blocks (exec exportToJSON e) = blocks e /\
  settings (exec exportToJSON e) = settings e /\
  published (exec exportToJSON e) = published e.
Proof. repeat split. Qed.

(** X3.  Moving, resizing, editing, arranging and exporting change no edge,
    add or remove no block, and leave the settings: the entry any block
    holds for any target is the same before and after. *)
Theorem layout_edits_keep_graph e :
  let kept e1 :=
    (forall a b, edge_type e1 a b = edge_type e a b) /\
    (forall a, has_block e1 a = has_block e a) /\
    settings e1 = settings e in
  (forall k x y snap, kept (exec (setBlockPosition k x y snap) e)) /\
  (forall k w h, kept (exec (setBlockSize k w h) e)) /\
  (forall k c, kept (exec (setBlockContent k c) e)) /\
  (forall columns, kept (exec (arrangeBlocks columns) e)) /\
  kept (exec exportToJSON e).
Proof.
  cbv zeta. split; [|split; [|split; [|split]]].
  - intros. apply setBlockPosition_keeps_graph.
  - intros. apply setBlockSize_keeps_graph.
  - intros. apply setBlockContent_keeps_graph.
  - intros. apply arrangeBlocks_keeps_graph.
  - repeat split.
Qed.

(** X4.  [createBlock] stores the block it returns under the id the host
    generated, with the content and type given, an empty links table, and
    the position and size exactly as given: no grid snap, and no clamp to
    the minimum size; without a size the block is 250 by 250.  Every block
    under another id is untouched and [blockCreated] is published.  When
    the id is new the store has one block more, appended last; when the id
    is already stored the block under it is replaced, in place. *)
Theorem createBlock_stores_block_as_given e c ty p s :
  let blk := eval (createBlock c ty p s) e in
  let e1 := exec (createBlock c ty p s) e in
  id blk = host_generateId (clock e) /\
  getBlock (id blk) e1 = Some blk /\
  content blk = c /\ type blk = ty /\ links blk = [] /\
  (forall pos, p = Some pos -> position blk = pos) /\
  (forall sz, s = Some sz -> size blk = sz) /\
  (s = None -> size blk = {| width := 250; height := 250 |}) /\
  (forall a, a <> id blk -> getBlock a e1 = getBlock a e) /\
  published e1 = published e ++ [blockCreated (id blk)] /\
  (has_block e (id blk) = false -> blocks e1 = blocks e ++ [(id blk, blk)]) /\
  (has_block e (id blk) = true -> JsMap.keys (blocks e1) = JsMap.keys (blocks e)).
Proof.
  intros blk e1.
  destruct (createBlock_effect c ty p s e) as (Hb & _ & Hid & Hl & Hc & Ht).
  fold blk in Hb, Hid, Hl, Hc, Ht. fold e1 in Hb.
  split; [exact Hid|]. split.
  { unfold getBlock. rewrite Hb, Hid. apply get_set_eq. }
  split; [exact Hc|]. split; [exact Ht|]. split; [exact Hl|].
  split; [intros [x y] ->; destruct s; reflexivity|].
  split; [intros [w h] ->; destruct p; reflexivity|].
  split; [intros ->; destruct p; reflexivity|].
  split.
  { intros a N. unfold getBlock. rewrite Hb. apply get_set_neq. congruence. }
  split; [destruct p, s; reflexivity|].
  split.
  - intros F. rewrite Hb, <- Hid. apply set_absent.
    unfold has_block, JsMap.has in F. now destruct (JsMap.get (id blk) (blocks e)).
  - intros T. rewrite Hb, <- Hid. apply keys_set_present.
    unfold has_block, JsMap.has in T. now destruct (JsMap.get (id blk) (blocks e)).
Qed.

End Setters.

(* ------------------------------------------------------------------ *)
(** ** Snapping twice, and how linking, unlinking and [getLinkInfo] compose *)

Section LinkAlgebra.
Context {host : Host}.
Import JsMapFacts.

Lemma Math_round_comp a b : a == b -> Math_round a = Math_round b.
Proof.
  intros E. unfold Math_round. f_equal. apply Qfloor_comp. now rewrite E.
Qed.

Lemma Math_round_integer n : Math_round (inject_Z n) = inject_Z n.
Proof.
  unfold Math_round. f_equal.
  assert (L : inject_Z n <= inject_Z n + (1 # 2)).
  { setoid_replace (inject_Z n) with (inject_Z n + 0) at 1 by ring.
    apply Qplus_le_r. discriminate. }
  assert (U : inject_Z n + (1 # 2) < inject_Z (n + 1)).
  { rewrite inject_Z_plus. apply Qplus_lt_r. reflexivity. }
  pose proof (Qfloor_le (inject_Z n + (1 # 2))) as F1.
  pose proof (Qlt_floor (inject_Z n + (1 # 2))) as F2.
  set (m := Qfloor (inject_Z n + (1 # 2))) in *.
  assert (A : (m < n + 1)%Z).
  { rewrite Zlt_Qlt. eapply Qle_lt_trans; eauto. }
  assert (B : (n < m + 1)%Z).
  { rewrite Zlt_Qlt. eapply Qle_lt_trans; eauto. }
  lia.
Qed.

Lemma snapped_idempotent g v : ~ g == 0 -> snapped g (snapped g v) == snapped g v.
Proof.
  intros Hg. unfold snapped.
  set (n := Qfloor (v / g + (1 # 2))).
  change (Math_round (v / g)) with (inject_Z n).
  rewrite (Math_round_comp (inject_Z n * g / g) (inject_Z n)) by (field; exact Hg).
  rewrite Math_round_integer. reflexivity.
Qed.

(** X5.  Snapping is idempotent: after [setBlockPosition(id, x, y, true)]
    on a grid of positive size, calling it again with the coordinates it
    stored stores the same coordinates.  With [snapToGrid] false the
    coordinates are stored exactly as given. *)
Theorem setBlockPosition_snap_is_idempotent e k blk x y :
  getBlock k e = Some blk ->
  0 < gridSize (settings e) ->
  let e1 := exec (setBlockPosition k x y true) e in
  (exists b1, getBlock k e1 = Some b1 /\
     exists b2,
       getBlock k (exec (setBlockPosition k (pos_x (position b1))
                           (pos_y (position b1)) true) e1) = Some b2 /\
       pos_x (position b2) == pos_x (position b1) /\
       pos_y (position b2) == pos_y (position b1)) /\
  (exists b3, getBlock k (exec (setBlockPosition k x y false) e) = Some b3 /\
     position b3 = {| pos_x := x; pos_y := y |}).
Proof.
  intros H Hg e1.
  assert (Ng : ~ gridSize (settings e) == 0)
    by (intros E; rewrite E in Hg; discriminate).
  split.
  - destruct (setBlockPosition_effect k x y true e blk H)
      as (_ & _ & b1 & G1 & P1 & _).
    fold e1 in G1. exists b1. split; [exact G1|].
    destruct (setBlockPosition_effect k (pos_x (position b1)) (pos_y (position b1))
                true e1 b1 G1) as (_ & _ & b2 & G2 & P2 & _).
    exists b2. split; [exact G2|]. rewrite P2, P1. cbn [pos_x pos_y].
    assert (S : settings e1 = settings e)
      by apply (setBlockPosition_keeps_graph k x y true e).
    rewrite S.
    split; apply (snapped_idempotent (gridSize (settings e))); exact Ng.
  - destruct (setBlockPosition_effect k x y false e blk H)
      as (_ & _ & b3 & G3 & P3 & _).
    exists b3. split; [exact G3 | exact P3].
Qed.

Lemma has_block_getBlock e a :
  has_block e a = true -> exists blk, getBlock a e = Some blk.
Proof.
  intros H. apply getBlock_has_block in H.
  destruct (getBlock a e) as [blk|]; [eauto | congruence].
Qed.

Lemma has_block_false e a : has_block e a = false -> getBlock a e = None.
Proof.
  unfold has_block, JsMap.has, getBlock.
  now destruct (JsMap.get a (blocks e)).
Qed.

Lemma getLinkInfo_total A B e :
  getLinkInfo A B e =
    if has_block e A && has_block e B then
      match edge_type e A B, edge_type e B A with
      | Some _, Some _ =>
          Some {| info_type := "double"; info_from := A; info_to := B |}
      | Some _, None =>
          Some {| info_type := "single"; info_from := A; info_to := B |}
      | None, Some _ =>
          Some {| info_type := "reverse"; info_from := B; info_to := A |}
      | None, None => None
      end
    else None.
Proof.
  destruct (has_block e A) eqn:HA; [destruct (has_block e B) eqn:HB|].
  - destruct (has_block_getBlock _ _ HA) as (fa & GA).
    destruct (has_block_getBlock _ _ HB) as (fb & GB).
    now apply getLinkInfo_edges with fa fb.
  - apply has_block_false in HB. unfold getLinkInfo. rewrite HB.
    now destruct (getBlock A e).
  - apply has_block_false in HA. unfold getLinkInfo. now rewrite HA.
Qed.

Lemma linkBlocks_total A B ty e :
  (forall a, has_block (exec (linkBlocks A B ty) e) a = has_block e a) /\
  (forall a b, edge_type (exec (linkBlocks A B ty) e) a b =
     if has_block e A && has_block e B then
       match prescribed A B ty a b with
       | Some v => v
       | None => edge_type e a b
       end
     else edge_type e a b).
Proof.
  destruct (has_block e A) eqn:HA; [destruct (has_block e B) eqn:HB|].
  - destruct (has_block_getBlock _ _ HA) as (fa & GA).
    destruct (has_block_getBlock _ _ HB) as (fb & GB).
    destruct (linkBlocks_effect A B ty e fa fb GA GB) as (_ & _ & _ & K1 & K2).
    split; assumption.
  - apply has_block_false in HB.
    destruct (linkBlocks_missing A B ty e (or_intror HB)) as (_ & ->). now split.
  - apply has_block_false in HA.
    destruct (linkBlocks_missing A B ty e (or_introl HA)) as (_ & ->). now split.
Qed.

(** X6.  [getLinkInfo(B,A)] is the mirror of [getLinkInfo(A,B)]: ['double']
    stays ['double'], ['single'] and ['reverse'] are exchanged and name the
    same [from] and [to], [null] stays [null].  In every result [from -> to]
    is an entry that is stored; the opposite entry is stored when the type
    is ['double'] and is not stored otherwise. *)
Theorem getLinkInfo_mirror e A B :
  getLinkInfo B A e = mirror_info (getLinkInfo A B e) /\
  (forall i, getLinkInfo A B e = Some i ->
     edge_type e (info_from i) (info_to i) <> None /\
     (info_type i = "double" -> edge_type e (info_to i) (info_from i) <> None) /\
     (info_type i <> "double" -> edge_type e (info_to i) (info_from i) = None)).
Proof.
  rewrite (getLinkInfo_total A B), (getLinkInfo_total B A).
  rewrite (andb_comm (has_block e B)).
  destruct (has_block e A && has_block e B); [|split; [reflexivity | discriminate]].
  destruct (edge_type e A B) as [t1|] eqn:E1, (edge_type e B A) as [t2|] eqn:E2;
    (split; [reflexivity|]); intros i Hi; inversion Hi; subst; cbn;
    rewrite ?E1, ?E2; repeat split; congruence.
Qed.

(** X7.  After [linkBlocks(A,B,intent)] on two distinct stored blocks,
    [getLinkInfo(A,B)] gives the intent back as its type, with [from] and
    [to] in the direction of the edge: A to B for ['single'] and
    ['double'], B to A for ['reverse'].  For ['double'] each block holds a
    ['double'] entry for the other and [getLinkInfo(B,A)] is ['double']
    too. *)
Theorem getLinkInfo_recovers_intent e A B fa fb ty :
  getBlock A e = Some fa -> getBlock B e = Some fb -> A <> B ->
  ty = "single" \/ ty = "reverse" \/ ty = "double" ->
  let e1 := exec (linkBlocks A B ty) e in
  getLinkInfo A B e1 =
    Some {| info_type := ty;
            info_from := if ty =? "reverse" then B else A;
            info_to := if ty =? "reverse" then A else B |} /\
  (ty = "double" ->
     edge_type e1 A B = Some "double" /\ edge_type e1 B A = Some "double" /\
     getLinkInfo B A e1 =
       Some {| info_type := "double"; info_from := B; info_to := A |}).
Proof.
  intros HA HB N Hty e1.
  destruct (linkBlocks_effect A B ty e fa fb HA HB) as (_ & _ & _ & Hh & He).
  fold e1 in Hh, He.
  assert (hA : has_block e1 A = true)
    by (rewrite Hh; eapply has_block_of_getBlock; eauto).
  assert (hB : has_block e1 B = true)
    by (rewrite Hh; eapply has_block_of_getBlock; eauto).
  rewrite (getLinkInfo_total A B), (getLinkInfo_total B A), hA, hB. cbn [andb].
  rewrite !He, prescribed_pair_forward, prescribed_pair_backward by assumption.
  destruct Hty as [->|[->| ->]]; cbn; (split; [reflexivity|]);
    intros; try discriminate; auto.
Qed.

Lemma prescribed_reverse_swap A B a b :
  prescribed A B "reverse" a b = prescribed B A "single" a b.
Proof.
  unfold prescribed, forward_entry, backward_entry. cbn.
  destruct (a =? A), (b =? B), (a =? B), (b =? A); reflexivity.
Qed.

Lemma prescribed_double_swap A B a b :
  prescribed A B "double" a b = prescribed B A "double" a b.
Proof.
  unfold prescribed, forward_entry, backward_entry. cbn.
  destruct (a =? A), (b =? B), (a =? B), (b =? A); reflexivity.
Qed.

Lemma prescribed_unlinked A B ty a b :
  ((a =? A) && (b =? B)) || ((a =? B) && (b =? A)) = false ->
  prescribed A B ty a b = None.
Proof.
  unfold prescribed.
  destruct ((a =? A) && (b =? B)), ((a =? B) && (b =? A)); cbn; congruence.
Qed.

(** X8.  Linking and unlinking compose as follows, on every store and for
    all ids: [linkBlocks(A,B,'reverse')] leaves the edges
    [linkBlocks(B,A,'single')] leaves; ['double'] is symmetric in its two
    ids; [unlinkBlocks] after [linkBlocks] on the same pair leaves the edges
    [unlinkBlocks] alone leaves; [unlinkBlocks] is symmetric and
    idempotent; and after [unlinkBlocks(A,B)], [getLinkInfo(A,B)] is
    [null]. *)
Theorem link_unlink_algebra e A B :
  same_edges (exec (linkBlocks A B "reverse") e) (exec (linkBlocks B A "single") e) /\
  same_edges (exec (linkBlocks A B "double") e) (exec (linkBlocks B A "double") e) /\
  (forall ty, same_edges (exec (unlinkBlocks A B) (exec (linkBlocks A B ty) e))
                         (exec (unlinkBlocks A B) e)) /\
  same_edges (exec (unlinkBlocks A B) e) (exec (unlinkBlocks B A) e) /\
  same_edges (exec (unlinkBlocks A B) (exec (unlinkBlocks A B) e))
             (exec (unlinkBlocks A B) e) /\
  getLinkInfo A B (exec (unlinkBlocks A B) e) = None.
Proof.
  split; [|split; [|split; [|split; [|split]]]].
  - intros a b.
    rewrite (proj2 (linkBlocks_total A B "reverse" e)),
            (proj2 (linkBlocks_total B A "single" e)).
    rewrite (andb_comm (has_block e B)), prescribed_reverse_swap. reflexivity.
  - intros a b.
    rewrite (proj2 (linkBlocks_total A B "double" e)),
            (proj2 (linkBlocks_total B A "double" e)).
    rewrite (andb_comm (has_block e B)), prescribed_double_swap. reflexivity.
  - intros ty a b. rewrite !unlinkBlocks_edges.
    destruct (((a =? A) && (b =? B)) || ((a =? B) && (b =? A))) eqn:P; auto.
    rewrite (proj2 (linkBlocks_total A B ty e)).
    rewrite (prescribed_unlinked A B ty a b P).
    now destruct (has_block e A && has_block e B).
  - intros a b. rewrite !unlinkBlocks_edges.
    now rewrite (orb_comm ((a =? A) && (b =? B))).
  - intros a b. rewrite !unlinkBlocks_edges.
    now destruct (((a =? A) && (b =? B)) || ((a =? B) && (b =? A))).
  - rewrite getLinkInfo_total, !unlinkBlocks_edges, !String.eqb_refl.
    cbn. rewrite orb_true_r. now destruct (_ && _).
Qed.

End LinkAlgebra.

(* ------------------------------------------------------------------ *)
(** ** Deleting a block, and the blocks around a block *)

Section Neighbours.
Context {host : Host}.
Import JsMapFacts.

Lemma delete_absent {V} k (m : JsMap.t V) :
  JsMap.get k m = None -> JsMap.delete k m = m.
Proof.
  induction m as [|[k0 v0] m IH]; simpl; auto.
  destruct (k =? k0); [discriminate|]. intros H. now rewrite IH.
Qed.

Lemma delete_idempotent {V} k (m : JsMap.t V) :
  JsMap.delete k (JsMap.delete k m) = JsMap.delete k m.
Proof. apply delete_absent. rewrite get_delete. now rewrite String.eqb_refl. Qed.

Lemma keys_delete {V} k (m : JsMap.t V) :
  JsMap.keys (JsMap.delete k m) = filter (fun k' => negb (k =? k')) (JsMap.keys m).
Proof.
  induction m as [|[k0 v0] m IH]; simpl; auto.
  destruct (k =? k0); simpl; now rewrite IH.
Qed.

Lemma keys_on_block k (method : Block -> ST Engine Block) e :
  (forall b, clock_only (method b)) ->
  JsMap.keys (blocks (exec (on_block k method) e)) = JsMap.keys (blocks e).
Proof.
  intros Hm. rewrite blocks_on_block by assumption.
  destruct (getBlock k e) eqn:G; auto.
  apply keys_set_present. unfold getBlock in G. congruence.
Qed.

(** What the scan of [deleteBlock] does to the block stored under [a]: its
    entry for [x] is gone once the scan has passed the key, nothing else
    of its table or of its other fields changes. *)
Lemma purge_loop_blocks x ks : forall e a b,
  getBlock a e = Some b ->
  let e' := exec (forEach ks (fun k => on_block k (fun blk =>
              if Block_hasLink x blk then Block_removeLink x blk else ret blk))) e in
  JsMap.keys (blocks e') = JsMap.keys (blocks e) /\
  exists b', getBlock a e' = Some b' /\
    id b' = id b /\ content b' = content b /\ type b' = type b /\
    position b' = position b /\ size b' = size b /\
    (links b' = links b \/ links b' = JsMap.delete x (links b)) /\
    (In a ks -> links b' = JsMap.delete x (links b)).
Proof.
  induction ks as [|k ks IH]; intros e a b G; cbn [forEach].
  - split; [reflexivity|]. exists b. rewrite exec_ret.
    repeat split; auto. intros [].
  - rewrite exec_bind.
    set (purge := fun blk : Block =>
                    if Block_hasLink x blk then Block_removeLink x blk else ret blk).
    set (e1 := exec (on_block k purge) e).
    assert (K1 : JsMap.keys (blocks e1) = JsMap.keys (blocks e))
      by (apply keys_on_block, clock_only_purge).
    assert (S1 : exists b1, getBlock a e1 = Some b1 /\
              id b1 = id b /\ content b1 = content b /\ type b1 = type b /\
              position b1 = position b /\ size b1 = size b /\
              (links b1 = links b \/ links b1 = JsMap.delete x (links b)) /\
              (a = k -> links b1 = JsMap.delete x (links b))).
    { unfold e1. rewrite getBlock_on_block by apply clock_only_purge.
      destruct (String.eqb_spec a k) as [->|N].
      - rewrite G. eexists. split; [reflexivity|]. unfold purge, Block_hasLink, JsMap.has.
        destruct (JsMap.get x (links b)) eqn:Gx.
        + cbn. repeat split; auto.
        + cbn. rewrite (delete_absent x (links b) Gx). repeat split; auto.
      - exists b. repeat split; auto. contradiction. }
    destruct S1 as (b1 & G1 & I1 & C1 & T1 & P1 & Z1 & L1 & A1).
    destruct (IH e1 a b1 G1) as (K2 & b' & G' & I2 & C2 & T2 & P2 & Z2 & L2 & A2).
    split; [etransitivity; [exact K2 | exact K1]|].
    exists b'. split; [exact G'|].
    split; [congruence|]. split; [congruence|]. split; [congruence|].
    split; [congruence|]. split; [congruence|].
    assert (D : links b1 = JsMap.delete x (links b) ->
                links b' = JsMap.delete x (links b)).
    { intros E. destruct L2 as [L2|L2]; rewrite L2, E; auto using delete_idempotent. }
    split.
    + destruct L1 as [L1|L1]; [|right; auto].
      destruct L2 as [L2|L2]; rewrite L2, L1; auto.
    + intros [<-|Hin]; [apply D, A1; reflexivity|].
      specialize (A2 Hin). destruct L1 as [L1|L1]; rewrite A2, L1;
        auto using delete_idempotent.
Qed.

(** X9.  [deleteBlock(X)] on a stored block returns [true] and publishes
    [blockDeleted]; afterwards X is not stored, the other blocks are stored
    in the order they had, and each of them has the id, content, type,
    position and size it had and the links table it had without the entry
    for X. *)
Theorem deleteBlock_removes_block_and_entries e x blk :
  getBlock x e = Some blk ->
  let e1 := exec (deleteBlock x) e in
  eval (deleteBlock x) e = true /\
  getBlock x e1 = None /\
  JsMap.keys (blocks e1) = filter (fun k => negb (x =? k)) (JsMap.keys (blocks e)) /\
  (forall a b, a <> x -> getBlock a e = Some b ->
     exists b', getBlock a e1 = Some b' /\
       id b' = id b /\ content b' = content b /\ type b' = type b /\
       position b' = position b /\ size b' = size b /\
       links b' = JsMap.delete x (links b)) /\
  published e1 = published e ++ [blockDeleted x] /\
  settings e1 = settings e.
Proof.
  intros H e1.
  destruct (deleteBlock_effect x e blk H) as (Hret & _ & Hpub & _).
  fold e1 in Hpub.
  assert (E1 : e1 = exec (emit (blockDeleted x))
                 (set_blocks (JsMap.delete x)
                    (exec (forEach (JsMap.keys (blocks e)) (fun k => on_block k (fun b =>
                       if Block_hasLink x b then Block_removeLink x b else ret b))) e))).
  { unfold e1, deleteBlock. run. rewrite H. now run. }
  split; [exact Hret|]. split; [|split; [|split; [|split]]].
  - rewrite E1. unfold getBlock. cbn [exec emit snd blocks set_blocks].
    rewrite get_delete. now rewrite String.eqb_refl.
  - rewrite E1. cbn [exec emit snd blocks set_blocks]. rewrite keys_delete.
    now rewrite (proj1 (purge_loop_blocks x (JsMap.keys (blocks e)) e x blk H)).
  - intros a b N G.
    destruct (purge_loop_blocks x (JsMap.keys (blocks e)) e a b G)
      as (_ & b' & G' & I & C & T & P & Z & _ & A).
    exists b'. split.
    + rewrite E1. unfold getBlock. cbn [exec emit snd blocks set_blocks].
      rewrite get_delete. apply String.eqb_neq in N. rewrite N. exact G'.
    + repeat split; auto. apply A. apply get_In_keys.
      unfold getBlock in G. congruence.
  - exact Hpub.
  - rewrite E1. cbn [exec emit snd settings set_blocks].
    apply (forEach_invariant (fun e' => settings e' = settings e)); auto.
    intros k e0 _ <-. apply settings_on_block, clock_only_purge.
Qed.

Lemma store_ok_In_values m b :
  store_ok m -> (In b (JsMap.values m) <-> JsMap.get (id b) m = Some b).
Proof.
  intros [ND F]. rewrite Forall_forall in F. unfold JsMap.values. split.
  - intros Hin. apply in_map_iff in Hin. destruct Hin as ([k b0] & E & Hin).
    cbn in E. subst b0. destruct (F _ Hin) as [Hk _]. cbn in Hk. subst k.
    now apply In_get.
  - intros G. apply get_In in G. apply in_map_iff. now exists (id b, b).
Qed.

Lemma In_resolve e b ids :
  In b (resolve e ids) <-> exists i, In i ids /\ getBlock i e = Some b.
Proof.
  induction ids as [|i ids IH]; cbn.
  - split; [intros [] | intros (i & [] & _)].
  - destruct (getBlock i e) as [b0|] eqn:G; cbn; rewrite IH; split.
    + intros [<-|(j & Hin & Gj)]; eauto.
    + intros (j & [<-|Hin] & Gj); [left; congruence | right; eauto].
    + intros (j & Hin & Gj). eauto.
    + intros (j & [<-|Hin] & Gj); [congruence | eauto].
Qed.

(** X10.  In every state of an engine: [getIncomingLinks(x)] holds exactly
    the stored blocks with an entry for [x], and [getOutgoingLinks(a)]
    exactly the stored blocks [a] has an entry for (entries for ids that
    are not stored give nothing); so for two stored blocks, B is among the
    outgoing links of A exactly when A is among the incoming links of B;
    and after [deleteBlock(x)] returns [true], [getIncomingLinks(x)] is
    empty. *)
Theorem incoming_outgoing_links e :
  reachable e ->
  (forall x b, In b (getIncomingLinks x e) <->
     getBlock (id b) e = Some b /\ edge_type e (id b) x <> None) /\
  (forall a b, In b (getOutgoingLinks a e) <->
     getBlock (id b) e = Some b /\ edge_type e a (id b) <> None) /\
  (forall ba bb, getBlock (id ba) e = Some ba -> getBlock (id bb) e = Some bb ->
     (In bb (getOutgoingLinks (id ba) e) <-> In ba (getIncomingLinks (id bb) e))) /\
  (forall x, eval (deleteBlock x) e = true ->
     getIncomingLinks x (exec (deleteBlock x) e) = []).
Proof.
  intros R.
  assert (INC : forall e0, store_ok (blocks e0) -> forall x b,
            In b (getIncomingLinks x e0) <->
            getBlock (id b) e0 = Some b /\ edge_type e0 (id b) x <> None).
  { intros e0 S x b. unfold getIncomingLinks, getAllBlocks.
    rewrite filter_In, (store_ok_In_values _ b S). unfold edge_type, getBlock.
    split; intros [G Hl]; split; auto.
    - rewrite G. unfold Block_hasLink, JsMap.has in Hl. unfold Block_getLinkType.
      now destruct (JsMap.get x (links b)).
    - rewrite G in Hl. unfold Block_hasLink, JsMap.has. unfold Block_getLinkType in Hl.
      now destruct (JsMap.get x (links b)). }
  pose proof (reachable_store_ok e R) as S.
  assert (OUT : forall a b, In b (getOutgoingLinks a e) <->
            getBlock (id b) e = Some b /\ edge_type e a (id b) <> None).
  { intros a b. unfold getOutgoingLinks, edge_type.
    destruct (getBlock a e) as [blk|] eqn:G.
    - rewrite In_resolve. unfold Block_getLinkType. split.
      + intros (i & Hin & Gi).
        destruct (store_ok_get _ _ _ S Gi) as [-> _]. split; auto.
        apply get_In_keys in Hin. now destruct (JsMap.get (id b) (links blk)).
      + intros (Gb & Hl). exists (id b). split; auto.
        apply get_In_keys. now destruct (JsMap.get (id b) (links blk)).
    - split; [intros [] | intros (_ & F); congruence]. }
  split; [apply INC, S|]. split; [exact OUT|]. split.
  - intros ba bb Ga Gb. rewrite OUT, (INC e S). tauto.
  - intros x Hret.
    destruct (getBlock x e) as [blk|] eqn:G;
      [|destruct (deleteBlock_missing x e G); congruence].
    destruct (deleteBlock_effect x e blk G) as (_ & _ & _ & He).
    assert (S1 : store_ok (blocks (exec (deleteBlock x) e)))
      by now apply store_ok_deleteBlock.
    destruct (getIncomingLinks x (exec (deleteBlock x) e)) as [|b l] eqn:L; auto.
    assert (Hin : In b (getIncomingLinks x (exec (deleteBlock x) e)))
      by (rewrite L; now left).
    apply (INC _ S1) in Hin. destruct Hin as (_ & F).
    rewrite He, String.eqb_refl, orb_true_r in F. congruence.
Qed.

End Neighbours.

(* ------------------------------------------------------------------ *)
(** ** Arranging on a grid, and the auto-position *)

Section Layout.
Context {host : Host}.
Import JsMapFacts.

Lemma setBlockPosition_other k x y snap e a :
  a <> k -> getBlock a (exec (setBlockPosition k x y snap) e) = getBlock a e.
Proof.
  intros N. unfold setBlockPosition. run. destruct (getBlock k e); run; auto.
  change (getBlock a (exec (on_block k (Block_setPosition
            (if snap then Math_round (x / gridSize (settings e)) * gridSize (settings e)
             else x)
            (if snap then Math_round (y / gridSize (settings e)) * gridSize (settings e)
             else y))) e) = getBlock a e).
  apply getBlock_on_block_other; [apply clock_only_setPosition | exact N].
Qed.

Lemma setBlockPosition_keys k x y snap e :
  JsMap.keys (blocks (exec (setBlockPosition k x y snap) e)) = JsMap.keys (blocks e).
Proof.
  unfold setBlockPosition. run. destruct (getBlock k e); run; auto.
  cbn [exec emit snd blocks]. apply keys_on_block, clock_only_setPosition.
Qed.

Lemma In_combine_seq {A} (l : list A) : forall start i a,
  nth_error l i = Some a -> In ((start + i)%nat, a) (combine (seq start (List.length l)) l).
Proof.
  induction l as [|a0 l IH]; intros start i a H.
  - destruct i; discriminate.
  - destruct i as [|i]; cbn in *.
    + inversion H. left. now rewrite Nat.add_0_r.
    + right. rewrite <- Nat.add_succ_comm. now apply IH.
Qed.

Lemma map_snd_combine {A B} (l : list B) : forall (ns : list A),
  List.length ns = List.length l -> map snd (combine ns l) = l.
Proof.
  induction l as [|b l IH]; intros [|n ns] H; cbn in *; try discriminate; auto.
  f_equal. apply IH. now inversion H.
Qed.

(** The loop of [arrangeBlocks], on any list of indexed blocks with
    distinct ids that are stored. *)
Lemma arrange_loop (s : Settings) columns (l : list (nat * Block)) : forall e0,
  settings e0 = s ->
  NoDup (map (fun ib => id (snd ib)) l) ->
  (forall ib, In ib l -> has_block e0 (id (snd ib)) = true) ->
  let f := fun ib : nat * Block =>
    bind (setBlockPosition (id (snd ib))
            (50 + inject_Z (Z.of_nat (fst ib mod columns)) * defaultSpacing s)
            (50 + inject_Z (Z.of_nat (fst ib / columns)) * defaultSpacing s) true)
         (fun _ => ret tt) in
  let e' := exec (forEach l f) e0 in
  (forall ib, In ib l ->
     exists b0 b', getBlock (id (snd ib)) e0 = Some b0 /\
       getBlock (id (snd ib)) e' = Some b' /\
       position b' =
         {| pos_x := snapped (gridSize s) (fst (arranged_target s columns (fst ib)));
            pos_y := snapped (gridSize s) (snd (arranged_target s columns (fst ib))) |} /\
       id b' = id b0 /\ content b' = content b0 /\ links b' = links b0 /\
       size b' = size b0) /\
  (forall a, ~ In a (map (fun ib => id (snd ib)) l) -> getBlock a e' = getBlock a e0) /\
  published e' = published e0 ++ map (fun ib => blockMoved (id (snd ib))) l /\
  JsMap.keys (blocks e') = JsMap.keys (blocks e0).
Proof.
  induction l as [|[i b] l IH]; intros e0 Hs ND Hex f e'.
  - unfold e'. cbn. rewrite app_nil_r. repeat split; auto. intros ib [].
  - cbn [map snd] in ND. apply NoDup_cons_iff in ND. destruct ND as [Hnin ND'].
    set (x := 50 + inject_Z (Z.of_nat (i mod columns)) * defaultSpacing s).
    set (y := 50 + inject_Z (Z.of_nat (i / columns)) * defaultSpacing s).
    set (e1 := exec (setBlockPosition (id b) x y true) e0).
    assert (E' : e' = exec (forEach l f) e1).
    { unfold e'. cbn [forEach]. rewrite exec_bind. f_equal. unfold f. now run. }
    destruct (has_block_getBlock e0 (id b)) as (b0 & G0);
      [apply (Hex (i, b)); now left|].
    destruct (setBlockPosition_effect (id b) x y true e0 b0 G0)
      as (_ & Hpub & b1 & G1 & P1 & I1 & C1 & L1 & Z1).
    fold e1 in Hpub, G1.
    destruct (setBlockPosition_keeps_graph (id b) x y true e0) as (_ & Hh & Hs1).
    fold e1 in Hh, Hs1.
    assert (Hex1 : forall ib, In ib l -> has_block e1 (id (snd ib)) = true).
    { intros ib Hin. rewrite Hh. apply Hex. now right. }
    pose proof (IH e1 (eq_trans Hs1 Hs) ND' Hex1) as IH1. cbv zeta in IH1.
    destruct IH1 as (K1 & K2 & K3 & K4).
    fold f in K1, K2, K3, K4. rewrite <- E' in K1, K2, K3, K4.
    split; [|split; [|split]].
    + intros ib [<-|Hin].
      * exists b0, b1. cbn [fst snd]. split; [exact G0|]. split.
        -- rewrite K2; [exact G1 | exact Hnin].
        -- rewrite P1, Hs. repeat split; auto.
      * destruct (K1 ib Hin) as (c0 & c' & Gc0 & Gc' & Pc & Ic & Cc & Lc & Zc).
        assert (N : id (snd ib) <> id b).
        { intros E. apply Hnin. rewrite <- E.
          apply (in_map (fun ib => id (snd ib)) l ib Hin). }
        exists c0, c'. split.
        -- rewrite <- Gc0. unfold e1. symmetry. now apply setBlockPosition_other.
        -- repeat split; auto.
    + intros a Ha. rewrite K2.
      * unfold e1. apply setBlockPosition_other. intros E. apply Ha. left. now rewrite E.
      * intros Hin. apply Ha. now right.
    + rewrite K3, Hpub. cbn [map fst snd]. now rewrite <- app_assoc.
    + rewrite K4. unfold e1. apply setBlockPosition_keys.
Qed.

Lemma Math_round_half n : Math_round (inject_Z n + (1 # 2)) = inject_Z (n + 1).
Proof.
  unfold Math_round. f_equal.
  rewrite (Qfloor_comp (inject_Z n + (1 # 2) + (1 # 2)) (inject_Z (n + 1))).
  - apply Qfloor_Z.
  - rewrite inject_Z_plus. ring.
Qed.

(** X11.  In a state of an engine, [arrangeBlocks(columns)], for a positive
    number of columns and a grid of positive size, moves the block at index [i] of the store to
    [(50 + (i mod columns) * defaultSpacing, 50 + (i / columns) * defaultSpacing)]
    snapped to the grid, and leaves its id, content, links and size and the
    order of the store; it publishes [blockMoved] for every block, in
    order, and then [blocksArranged] with the number of blocks.  With a
    grid of 20 and a spacing of 300 the block lands at
    [(60 + 300 * (i mod columns), 60 + 300 * (i / columns))]: the 50 is
    snapped up to 60. *)
Theorem arrangeBlocks_lays_out_grid e columns :
  reachable e -> (0 < columns)%nat -> 0 < gridSize (settings e) ->
  let s := settings e in
  let e1 := exec (arrangeBlocks columns) e in
  (forall i b, nth_error (getAllBlocks e) i = Some b ->
     exists b', getBlock (id b) e1 = Some b' /\
       position b' =
         {| pos_x := snapped (gridSize s) (fst (arranged_target s columns i));
            pos_y := snapped (gridSize s) (snd (arranged_target s columns i)) |} /\
       id b' = id b /\ content b' = content b /\ links b' = links b /\
       size b' = size b /\
       (gridSize s == 20 -> defaultSpacing s == 300 ->
        pos_x (position b') == 60 + 300 * inject_Z (Z.of_nat (i mod columns)) /\
        pos_y (position b') == 60 + 300 * inject_Z (Z.of_nat (i / columns)))) /\
  JsMap.keys (blocks e1) = JsMap.keys (blocks e) /\
  published e1 = published e ++ map (fun b => blockMoved (id b)) (getAllBlocks e)
                   ++ [blocksArranged (List.length (getAllBlocks e))].
Proof.
  intros R _ _ s e1. pose proof (reachable_store_ok e R) as S.
  set (l := combine (seq 0 (List.length (getAllBlocks e))) (getAllBlocks e)).
  assert (Hkeys : map id (getAllBlocks e) = JsMap.keys (blocks e)).
  { destruct S as [_ F]. unfold getAllBlocks, JsMap.values, JsMap.keys.
    rewrite map_map. apply map_ext_in. intros kb Hin.
    rewrite Forall_forall in F. symmetry. apply (F kb Hin). }
  assert (Hsnd : map snd l = getAllBlocks e).
  { unfold l. apply map_snd_combine. apply length_seq. }
  assert (E1 : e1 = exec (emit (blocksArranged (List.length (getAllBlocks e))))
                 (exec (forEach l (fun ib : nat * Block =>
                    bind (setBlockPosition (id (snd ib))
                      (50 + inject_Z (Z.of_nat (fst ib mod columns)) * defaultSpacing s)
                      (50 + inject_Z (Z.of_nat (fst ib / columns)) * defaultSpacing s) true)
                    (fun _ => ret tt))) e))
    by (unfold e1, arrangeBlocks; run; reflexivity).
  destruct (arrange_loop s columns l e eq_refl) as (K1 & _ & K3 & K4).
  { rewrite <- (map_map snd id), Hsnd, Hkeys. apply S. }
  { intros ib Hin. apply has_In_keys. unfold has_block. rewrite <- Hkeys, <- Hsnd, map_map.
    apply (in_map (fun ib => id (snd ib)) l ib Hin). }
  split; [|split].
  - intros i b Hn.
    assert (Hin : In (i, b) l) by (apply (In_combine_seq (getAllBlocks e) 0 i b Hn)).
    destruct (K1 (i, b) Hin) as (b0 & b' & G0 & G' & P & I & C & L & Z).
    cbn [fst snd] in *.
    assert (b0 = b).
    { apply nth_error_In in Hn. apply (store_ok_In_values _ b S) in Hn.
      unfold getBlock in G0. congruence. }
    subst b0. exists b'. split; [rewrite E1; exact G'|].
    split; [exact P|]. split; [exact I|]. split; [exact C|]. split; [exact L|].
    split; [exact Z|]. intros Hg Hsp. rewrite P. cbn [pos_x pos_y].
    unfold snapped, arranged_target. cbn [fst snd]. split.
    + rewrite (Math_round_comp _ (inject_Z (15 * Z.of_nat (i mod columns) + 2) + (1 # 2))).
      * rewrite Math_round_half, Hg. rewrite !inject_Z_plus, !inject_Z_mult. ring.
      * rewrite Hg, Hsp, !inject_Z_plus, !inject_Z_mult. field.
    + rewrite (Math_round_comp _ (inject_Z (15 * Z.of_nat (i / columns) + 2) + (1 # 2))).
      * rewrite Math_round_half, Hg. rewrite !inject_Z_plus, !inject_Z_mult. ring.
      * rewrite Hg, Hsp, !inject_Z_plus, !inject_Z_mult. field.
  - rewrite E1. exact K4.
  - rewrite E1. cbn [exec emit snd published]. rewrite K3, <- app_assoc.
    f_equal. f_equal. rewrite <- Hsnd, map_map. reflexivity.
Qed.

(** X12.  In a store that is not empty, [createBlock] without a position
    puts the new block at least [defaultSpacing] to the right of every
    block of the store, and of x = 0; its y is 50 or the y of the block
    whose x it is [defaultSpacing] to the right of.  In an empty store two
    such calls in a row put the second block at (50 + defaultSpacing, 50). *)
Theorem createBlock_auto_position_is_rightmost e c ty :
  let blk := eval (createBlock c ty None None) e in
  let sp := defaultSpacing (settings e) in
  (getAllBlocks e <> [] ->
     (forall b, In b (getAllBlocks e) ->
        pos_x (position b) + sp <= pos_x (position blk)) /\
     0 + sp <= pos_x (position blk) /\
     (position blk = {| pos_x := 0 + sp; pos_y := 50 |} \/
      exists b, In b (getAllBlocks e) /\
        position blk = {| pos_x := pos_x (position b) + sp;
                          pos_y := pos_y (position b) |})) /\
  (getAllBlocks e = [] ->
     forall c2 ty2,
       position (eval (createBlock c2 ty2 None None)
                   (exec (createBlock c ty None None) e))
         = {| pos_x := 50 + sp; pos_y := 50 |}).
Proof.
  intros blk sp.
  assert (P : position blk = {| pos_x := pos_x (getAutoPosition e);
                                pos_y := pos_y (getAutoPosition e) |})
    by reflexivity.
  split.
  - intros NE. rewrite P. unfold getAutoPosition.
    destruct (getAllBlocks e) as [|b0 bs] eqn:E; [congruence|].
    cbn [pos_x pos_y]. fold sp.
    destruct (rightmost_scan (b0 :: bs) 0 50)
      as [(Hall & Hf)|(l1 & b & l2 & E' & Hlt & H1 & H2 & Hf)];
      rewrite Hf; cbn [fst snd].
    + split; [|split].
      * intros b Hin. apply Qplus_le_l. now apply Hall.
      * apply Qle_refl.
      * now left.
    + split; [|split].
      * intros b' Hin. apply Qplus_le_l. rewrite E' in Hin.
        apply in_app_or in Hin. destruct Hin as [Hin|[<-|Hin]].
        -- apply Qlt_le_weak. now apply H1.
        -- apply Qle_refl.
        -- now apply H2.
      * apply Qplus_le_l. now apply Qlt_le_weak.
      * right. exists b. split; [|reflexivity]. rewrite E'. apply in_elt.
  - intros E c2 ty2. unfold getAllBlocks, JsMap.values in E.
    destruct e as [bl st pb ck]. cbn in E.
    destruct bl; [|discriminate]. reflexivity.
Qed.

End Layout.

(* ------------------------------------------------------------------ *)
(** ** What an import stores, and the states of an engine *)

Section ImportedStore.
Context {host : Host}.
Import JsMapFacts.

Lemma import_block_frame entry e :
  settings (exec (import_block entry) e) = settings e /\
  published (exec (import_block entry) e) = published e.
Proof.
  destruct entry as [r|]; [|split; reflexivity].
  unfold import_block. run.
  set (fresh := eval _ e). set (e' := exec _ e).
  destruct (rec_links r) as [ls|]; run; [|split; reflexivity].
  destruct (import_links_frame ls fresh e') as (_ & Hs & Hp).
  destruct (eval (import_links ls fresh) e'); run;
    cbn [set_blocks settings published]; rewrite ?Hs, ?Hp; split; reflexivity.
Qed.

Lemma import_blocks_frame bs : forall e,
  settings (exec (import_blocks bs) e) = settings e /\
  published (exec (import_blocks bs) e) = published e.
Proof.
  induction bs as [|entry bs IH]; intros e; [split; reflexivity|].
  rewrite exec_import_blocks_cons.
  destruct (import_block_frame entry e) as (Hs & Hp).
  destruct (eval (import_block entry) e); [|split; assumption].
  destruct (IH (exec (import_block entry) e)) as (Hs' & Hp').
  split; congruence.
Qed.

(** X13.  [importFromJSON] merges the document's settings over the current
    ones before it looks at the blocks: a setting the document gives is
    replaced, a setting it does not give is kept, and this happens whether
    the call then succeeds or fails; a document with settings and without a
    [blocks] array returns [false] having cleared the store and changed the
    settings.  A failed call publishes nothing; a successful one publishes
    [blocksImported] with the length of the [blocks] array.  A text that
    does not parse, or [null], leaves the settings as they were. *)
Theorem importFromJSON_merges_settings e data :
  let e1 := exec (importFromJSON (json_value data)) e in
  settings e1 = match doc_settings data with
                | Some patch => Object_assign patch (settings e)
                | None => settings e
                end /\
  (forall patch, doc_settings data = Some patch ->
     gridSize (settings e1)
       = match set_gridSize patch with Some v => v | None => gridSize (settings e) end /\
     defaultSpacing (settings e1)
       = match set_defaultSpacing patch with
         | Some v => v
         | None => defaultSpacing (settings e)
         end /\
     minBlockWidth (settings e1)
       = match set_minBlockWidth patch with
         | Some v => v
         | None => minBlockWidth (settings e)
         end /\
     minBlockHeight (settings e1)
       = match set_minBlockHeight patch with
         | Some v => v
         | None => minBlockHeight (settings e)
         end) /\
  (doc_blocks data = None ->
     eval (importFromJSON (json_value data)) e = false /\ blocks e1 = []) /\
  (eval (importFromJSON (json_value data)) e = false -> published e1 = published e) /\
  (eval (importFromJSON (json_value data)) e = true ->
     exists bs, doc_blocks data = Some bs /\
       published e1 = published e ++ [blocksImported (List.length bs)]) /\
  settings (exec (importFromJSON json_invalid) e) = settings e /\
  settings (exec (importFromJSON json_null) e) = settings e.
Proof.
  intros e1.
  assert (S : settings e1 = match doc_settings data with
                            | Some patch => Object_assign patch (settings e)
                            | None => settings e
                            end).
  { unfold e1. destruct (doc_blocks data) as [bs|] eqn:Hb.
    - destruct (importFromJSON_value data bs e Hb) as (_ & ->).
      destruct (import_blocks_frame bs (import_start data e)) as (Hs & _).
      destruct (eval (import_blocks bs) (import_start data e));
        cbn [exec emit snd settings]; rewrite Hs;
        unfold import_start; now destruct (doc_settings data).
    - unfold importFromJSON. run. rewrite Hb. run.
      now destruct (doc_settings data). }
  split; [exact S|]. split.
  { intros patch Hp. rewrite S, Hp. repeat split. }
  split; [intros Hb; now apply importFromJSON_no_blocks|].
  split; [|split; [|split; reflexivity]].
  - unfold e1. destruct (doc_blocks data) as [bs|] eqn:Hb.
    + destruct (importFromJSON_value data bs e Hb) as (-> & ->).
      intros ->. now rewrite (proj2 (import_blocks_frame bs (import_start data e))).
    + intros _. unfold importFromJSON. run. rewrite Hb. run.
      now destruct (doc_settings data).
  - unfold e1. destruct (doc_blocks data) as [bs|] eqn:Hb.
    + destruct (importFromJSON_value data bs e Hb) as (-> & ->).
      intros ->. exists bs. split; [reflexivity|]. cbn [exec emit snd published].
      now rewrite (proj2 (import_blocks_frame bs (import_start data e))).
    + destruct (importFromJSON_no_blocks data e Hb) as (F & _). congruence.
Qed.

Lemma import_blocks_ids a bs : forall e0,
  has_block (exec (import_blocks bs) e0) a = true ->
  has_block e0 a = true \/ In (Some a) (map entry_id bs).
Proof.
  induction bs as [|entry bs IH]; intros e0 H; [now left|].
  rewrite exec_import_blocks_cons in H.
  destruct (eval (import_block entry) e0) eqn:E.
  - destruct entry as [r|]; [|discriminate].
    destruct (import_block_effect r e0 E) as (blk & Hb & _).
    destruct (IH _ H) as [K|K]; [|right; now right].
    unfold has_block in K. rewrite Hb, has_set in K.
    apply orb_true_iff in K. destruct K as [K|K]; [|now left].
    apply String.eqb_eq in K. subst a. right. now left.
  - left. unfold has_block in *.
    now rewrite (import_block_false entry e0 E) in H.
Qed.

Lemma length_set_le {V} k (v : V) m :
  (List.length (JsMap.set k v m) <= S (List.length m))%nat.
Proof.
  induction m as [|[k0 v0] m IH]; cbn; [lia|].
  destruct (k =? k0); cbn; lia.
Qed.

Lemma import_blocks_length bs : forall e0,
  (List.length (blocks (exec (import_blocks bs) e0))
   <= List.length (blocks e0) + List.length bs)%nat.
Proof.
  induction bs as [|entry bs IH]; intros e0; cbn [List.length]; [cbn; lia|].
  rewrite exec_import_blocks_cons.
  destruct (eval (import_block entry) e0) eqn:E.
  - destruct entry as [r|]; [|discriminate].
    destruct (import_block_effect r e0 E) as (blk & Hb & _).
    specialize (IH (exec (import_block (block_object r)) e0)).
    pose proof (length_set_le (rec_id r) blk (blocks e0)) as L.
    rewrite <- Hb in L. lia.
  - rewrite (import_block_false entry e0 E). lia.
Qed.

(** The block found under a record's id, when no later record has that id,
    is the one built from the record. *)
Lemma import_blocks_last_block r post pre : forall e,
  eval (import_blocks (pre ++ block_object r :: post)) e = true ->
  (forall entry, In entry post -> entry_id entry <> Some (rec_id r)) ->
  exists blk,
    getBlock (rec_id r) (exec (import_blocks (pre ++ block_object r :: post)) e)
      = Some blk /\
    id blk = rec_id r /\
    content blk = match rec_content r with Some c => c | None => "" end /\
    type blk = match rec_type r with Some t => t | None => "default" end /\
    position blk = match rec_position r with
                   | Some p => p
                   | None => {| pos_x := 0; pos_y := 0 |}
                   end /\
    size blk = match rec_size r with
               | Some s => s
               | None => {| width := 250; height := 150 |}
               end /\
    metadata blk = rec_metadata r /\
    (rec_links r = None -> links blk = []).
Proof.
  intros e H Hn.
  destruct (import_blocks_app pre (block_object r :: post) e) as (Ev & Ex).
  rewrite Ev in H. rewrite Ex.
  destruct (eval (import_blocks pre) e); [|discriminate].
  set (e1 := exec (import_blocks pre) e) in *.
  rewrite eval_import_blocks_cons in H. rewrite exec_import_blocks_cons.
  destruct (eval (import_block (block_object r)) e1) eqn:E; [|discriminate].
  destruct (import_block_effect r e1 E)
    as (blk & Hb & _ & _ & I & C & T & P & Z & M & Hl).
  exists blk. split.
  - rewrite import_blocks_other; auto.
    unfold getBlock. rewrite Hb. apply get_set_eq.
  - repeat split; auto. intros N. now rewrite N in Hl.
Qed.

(** X14.  A document whose [blocks] array holds well-formed records
    imports: afterwards the ids stored are exactly the ids of the records,
    the store has no more blocks than the array has records, and the block
    under an id is built from the last record with that id: its content
    (or the empty string), its type (or ['default']), its position (or
    (0,0)), its size (or 250 by 150), its metadata, and no link when the
    record has no [links] array. *)
Theorem import_stores_records e data bs :
  doc_blocks data = Some bs -> document_shaped bs ->
  let e1 := exec (importFromJSON (json_value data)) e in
  eval (importFromJSON (json_value data)) e = true /\
  (forall a, has_block e1 a = true <-> In (Some a) (map entry_id bs)) /\
  (List.length (blocks e1) <= List.length bs)%nat /\
  (forall pre r post, bs = pre ++ block_object r :: post ->
     (forall entry, In entry post -> entry_id entry <> Some (rec_id r)) ->
     exists blk, getBlock (rec_id r) e1 = Some blk /\
       id blk = rec_id r /\
       content blk = match rec_content r with Some c => c | None => "" end /\
       type blk = match rec_type r with Some t => t | None => "default" end /\
       position blk = match rec_position r with
                      | Some p => p
                      | None => {| pos_x := 0; pos_y := 0 |}
                      end /\
       size blk = match rec_size r with
                  | Some s => s
                  | None => {| width := 250; height := 150 |}
                  end /\
       metadata blk = rec_metadata r /\
       (rec_links r = None -> links blk = [])).
Proof.
  intros Hb Hshape e1.
  destruct (importFromJSON_value data bs e Hb) as (Ev & Ex).
  pose proof (import_blocks_shaped bs (import_start data e) Hshape) as Hret.
  rewrite Hret in Ex. unfold e1. rewrite Ev, Ex.
  split; [exact Hret|]. split; [|split].
  - intros a. rewrite has_block_emit. split.
    + intros H. destruct (import_blocks_ids a bs _ H) as [K|K]; auto.
      unfold has_block, import_start in K. cbn in K. discriminate.
    + intros H. now apply (import_blocks_grows bs _ Hret).
  - cbn [exec emit snd blocks].
    pose proof (import_blocks_length bs (import_start data e)) as L.
    unfold import_start in L at 2. cbn in L. exact L.
  - intros pre r post -> Hlast.
    destruct (import_blocks_last_block r post pre _ Hret Hlast) as (blk & G & K).
    exists blk. split; [exact G | exact K].
Qed.

(** X15.  In every state of an engine: the block found under an id has that
    id; the ids of the blocks are distinct and every block of
    [getAllBlocks] is the one found under its id; no links table has two
    entries for one target; and no entry has the empty string for type. *)
Theorem reachable_blocks_keyed_by_id e :
  reachable e ->
  (forall a b, getBlock a e = Some b -> id b = a) /\
  NoDup (map id (getAllBlocks e)) /\
  (forall b, In b (getAllBlocks e) -> getBlock (id b) e = Some b) /\
  (forall b, In b (getAllBlocks e) -> NoDup (JsMap.keys (links b))) /\
  (forall a b t, edge_type e a b = Some t -> t <> "").
Proof.
  intros R. pose proof (reachable_store_ok e R) as S.
  assert (Hkeys : map id (getAllBlocks e) = JsMap.keys (blocks e)).
  { destruct S as [_ F]. unfold getAllBlocks, JsMap.values, JsMap.keys.
    rewrite map_map. apply map_ext_in. intros kb Hin.
    rewrite Forall_forall in F. symmetry. apply (F kb Hin). }
  split; [|split; [|split; [|split]]].
  - intros a b G. symmetry. apply (store_ok_get _ _ _ S G).
  - rewrite Hkeys. apply S.
  - intros b Hin. now apply (store_ok_In_values _ b S).
  - intros b Hin. apply (store_ok_In_values _ b S) in Hin.
    apply (store_ok_get _ _ _ S Hin).
  - intros a b t H. unfold edge_type in H.
    destruct (getBlock a e) as [blk|] eqn:G; [|discriminate].
    destruct (store_ok_get _ _ _ S G) as (_ & _ & F).
    unfold Block_getLinkType in H.
    destruct (JsMap.get b (links blk)) as [meta|] eqn:Gl; [|discriminate].
    inversion H; subst. apply get_In in Gl. rewrite Forall_forall in F.
    apply (F _ Gl).
Qed.

(** X16.  Export is undone by import from the other side too: for blocks
    with distinct ids and well-formed tables, importing the records
    [toJSON] writes for them, into any engine, succeeds and leaves exactly
    these blocks, in order, and exporting then writes the same records. *)
Theorem import_then_export_returns_records e data (bs : list Block) :
  NoDup (map id bs) -> Forall block_ok bs ->
  doc_blocks data = Some (map (fun b => block_object (Block_toJSON b)) bs) ->
  let e1 := exec (importFromJSON (json_value data)) e in
  eval (importFromJSON (json_value data)) e = true /\
  getAllBlocks e1 = bs /\
  doc_blocks (eval exportToJSON e1) = doc_blocks data.
Proof.
  intros ND F Hb e1.
  set (l := map (fun b => (id b, b)) bs).
  assert (Hv : JsMap.values l = bs).
  { unfold l, JsMap.values. rewrite map_map. cbn. apply map_id. }
  assert (Hk : JsMap.keys l = map id bs).
  { unfold l, JsMap.keys. now rewrite map_map. }
  assert (Fl : Forall (fun entry => fst entry = id (snd entry) /\ block_ok (snd entry)) l).
  { unfold l. apply Forall_forall. intros kb Hin. apply in_map_iff in Hin.
    destruct Hin as (b & <- & Hin). cbn. split; auto.
    rewrite Forall_forall in F. now apply F. }
  destruct (importFromJSON_value data _ e Hb) as (Ev & Ex).
  destruct (import_blocks_exported l (import_start data e) Fl) as (Iv & Ib & _).
  rewrite Hv in Iv, Ib. rewrite Iv in Ex.
  assert (B : blocks e1 = l).
  { unfold e1. rewrite Ex. cbn [exec emit snd blocks]. rewrite Ib.
    unfold import_start. cbn [blocks set_settings set_blocks].
    rewrite fold_set_fresh; auto. now rewrite Hk. }
  split; [now rewrite Ev|].
  assert (G : getAllBlocks e1 = bs) by (unfold getAllBlocks; now rewrite B).
  split; [exact G|].
  cbn. fold (getAllBlocks e1). now rewrite G, Hb.
Qed.

End ImportedStore.

(* ------------------------------------------------------------------ *)
(** ** The shape of the edges without imports *)

Section PairedEdges.
Context {host : Host}.
Import JsMapFacts.

Lemma edges_paired_transfer e e1 :
  (forall a b, edge_type e1 a b = edge_type e a b) ->
  (forall a, has_block e1 a = has_block e a) ->
  edges_paired e -> edges_paired e1.
Proof.
  intros He Hh P a b t H. rewrite He in H. rewrite !Hh, !He. now apply P.
Qed.

Lemma edges_paired_linkBlocks A B ty e :
  edges_paired e -> edges_paired (exec (linkBlocks A B ty) e).
Proof.
  intros P.
  destruct (has_block e A) eqn:hA; [destruct (has_block e B) eqn:hB|].
  - destruct (linkBlocks_total A B ty e) as (Hh & He).
    rewrite hA, hB in He. cbn [andb] in He.
    intros a b t H. rewrite !Hh. rewrite He in H. rewrite !He.
    unfold prescribed, forward_entry, backward_entry in *.
    destruct (String.eqb_spec a A), (String.eqb_spec b B),
             (String.eqb_spec a B), (String.eqb_spec b A); subst;
      cbn [andb] in *; try congruence; rewrite ?hA, ?hB;
      try (destruct (P _ _ _ H) as (Q1 & Q2 & Q3); rewrite ?Q1, ?Q2;
           repeat split; auto; fail);
      destruct (String.eqb_spec ty "single") as [->|N1]; cbn in *;
      try (inversion H; subst; repeat split; auto; left; split; auto;
           intros; congruence);
      destruct (String.eqb_spec ty "reverse") as [->|N2]; cbn in *;
      try discriminate;
      try (inversion H; subst; repeat split; auto; left; split; auto;
           intros; congruence);
      destruct (String.eqb_spec ty "double") as [->|N3]; cbn in *;
      try discriminate;
      inversion H; subst; repeat split; auto.
  - apply has_block_false in hB.
    destruct (linkBlocks_missing A B ty e (or_intror hB)) as (_ & ->). exact P.
  - apply has_block_false in hA.
    destruct (linkBlocks_missing A B ty e (or_introl hA)) as (_ & ->). exact P.
Qed.

Lemma edges_paired_unlinkBlocks A B e :
  edges_paired e -> edges_paired (exec (unlinkBlocks A B) e).
Proof.
  intros P a b t H. rewrite !unlinkBlocks_has_block.
  rewrite unlinkBlocks_edges in H. rewrite unlinkBlocks_edges.
  assert (C : ((b =? A) && (a =? B)) || ((b =? B) && (a =? A))
              = ((a =? A) && (b =? B)) || ((a =? B) && (b =? A)))
    by (destruct (a =? A), (b =? B), (a =? B), (b =? A); reflexivity).
  rewrite C.
  destruct (((a =? A) && (b =? B)) || ((a =? B) && (b =? A)));
    [discriminate | now apply P].
Qed.

Lemma edges_paired_deleteBlock x e :
  edges_paired e -> edges_paired (exec (deleteBlock x) e).
Proof.
  intros P. destruct (getBlock x e) as [blk|] eqn:G.
  - destruct (deleteBlock_effect x e blk G) as (_ & Hh & _ & He).
    intros a b t H. rewrite He in H. rewrite !Hh, He.
    rewrite (orb_comm (b =? x)).
    destruct (a =? x); [discriminate|]. destruct (b =? x); [discriminate|].
    cbn in *. now apply P.
  - destruct (deleteBlock_missing x e G) as (_ & ->). exact P.
Qed.

Lemma edges_paired_createBlock c ty p s e :
  has_block e (host_generateId (clock e)) = false ->
  edges_paired e -> edges_paired (exec (createBlock c ty p s) e).
Proof.
  intros Fr P a b t H. rewrite createBlock_edges in H.
  rewrite !createBlock_has_block, createBlock_edges.
  destruct (a =? host_generateId (clock e)) eqn:Ea; [discriminate|].
  destruct (P _ _ _ H) as (Q1 & Q2 & Q3).
  destruct (String.eqb_spec b (host_generateId (clock e))) as [->|N];
    [congruence|].
  rewrite Q1, Q2. cbn. auto.
Qed.

Lemma edited_edges_paired e : edited e -> edges_paired e.
Proof.
  induction 1 as [n|e c ty p s He IHedited Fr|e id0 x y snap He IHedited
                 |e id0 w h He IHedited|e id0 content0 He IHedited
                 |e A B ty He IHedited|e A B ty He IHedited|e A B He IHedited
                 |e id0 He IHedited|e columns He IHedited|e He IHedited].
  - intros a b t H. discriminate.
  - now apply edges_paired_createBlock.
  - destruct (setBlockPosition_keeps_graph id0 x y snap e) as (A1 & A2 & _).
    exact (edges_paired_transfer e _ A1 A2 IHedited).
  - destruct (setBlockSize_keeps_graph id0 w h e) as (A1 & A2 & _).
    exact (edges_paired_transfer e _ A1 A2 IHedited).
  - destruct (setBlockContent_keeps_graph id0 content0 e) as (A1 & A2 & _).
    exact (edges_paired_transfer e _ A1 A2 IHedited).
  - now apply edges_paired_linkBlocks.
  - now apply edges_paired_linkBlocks.
  - now apply edges_paired_unlinkBlocks.
  - now apply edges_paired_deleteBlock.
  - destruct (arrangeBlocks_keeps_graph columns e) as (A1 & A2 & _).
    exact (edges_paired_transfer e _ A1 A2 IHedited).
  - apply (edges_paired_transfer e); auto.
Qed.

(** X17.  In a state reached without [importFromJSON], with generated ids
    new to the store: every entry names a stored block and has type
    ['single'] or ['double']; between two distinct blocks a ['single'] entry
    has no entry opposite to it and a ['double'] entry has a ['double']
    entry opposite to it; so the intent ['reverse'] is never stored, and
    for two distinct blocks [getLinkInfo] reports ['double'] exactly when
    the stored type is ['double'], and otherwise names a stored ['single']
    entry. *)
Theorem edited_store_has_paired_edges e :
  edited e ->
  (forall a b t, edge_type e a b = Some t ->
     has_block e a = true /\ has_block e b = true /\
     (t = "single" \/ t = "double") /\ t <> "reverse") /\
  (forall a b, a <> b -> edge_type e a b = Some "single" -> edge_type e b a = None) /\
  (forall a b, edge_type e a b = Some "double" -> edge_type e b a = Some "double") /\
  (forall a b i, a <> b -> getLinkInfo a b e = Some i ->
     (info_type i = "double" <-> edge_type e a b = Some "double") /\
     (info_type i = "single" -> edge_type e a b = Some "single") /\
     (info_type i = "reverse" -> edge_type e b a = Some "single")).
Proof.
  intros E. pose proof (edited_edges_paired e E) as P.
  split; [|split; [|split]].
  - intros a b t H. destruct (P _ _ _ H) as (Q1 & Q2 & [[-> _]|[-> _]]);
      repeat split; auto; discriminate.
  - intros a b N H. destruct (P _ _ _ H) as (_ & _ & [[_ Q]|[Q _]]);
      [auto | discriminate].
  - intros a b H. destruct (P _ _ _ H) as (_ & _ & [[Q _]|[_ Q]]);
      [discriminate | auto].
  - intros a b i N H. rewrite getLinkInfo_total in H.
    destruct (has_block e a && has_block e b); [|discriminate].
    destruct (edge_type e a b) as [t1|] eqn:E1, (edge_type e b a) as [t2|] eqn:E2;
      inversion H; subst; cbn.
    + destruct (P _ _ _ E1) as (_ & _ & [[-> Q]|[-> Q]]).
      * rewrite (Q N) in E2. discriminate.
      * repeat split; auto; discriminate.
    + destruct (P _ _ _ E1) as (_ & _ & [[-> Q]|[-> Q]]).
      * repeat split; auto; discriminate.
      * congruence.
    + destruct (P _ _ _ E2) as (_ & _ & [[-> Q]|[-> Q]]).
      * repeat split; auto; discriminate.
      * congruence.
Qed.

End PairedEdges.

(* ------------------------------------------------------------------ *)
(** ** The renderer's selection *)

Section Selection.
Context {host : Host}.
Import JsMapFacts.

Lemma link_consecutive_cons a b rest ty e :
  exec (link_consecutive (a :: b :: rest) ty) e
    = exec (link_consecutive (b :: rest) ty) (exec (linkBlocks a b ty) e).
Proof. cbn [link_consecutive]. now rewrite exec_bind. Qed.

Lemma link_consecutive_frame ty l : forall e,
  (forall a, has_block (exec (link_consecutive l ty) e) a = has_block e a) /\
  (forall a b, ~ In a l \/ ~ In b l ->
     edge_type (exec (link_consecutive l ty) e) a b = edge_type e a b).
Proof.
  induction l as [|x l IH]; intros e; [split; reflexivity|].
  destruct l as [|y rest]; [split; reflexivity|].
  rewrite link_consecutive_cons.
  destruct (IH (exec (linkBlocks x y ty) e)) as (Hh & He).
  destruct (linkBlocks_total x y ty e) as (Lh & Le).
  split.
  - intros a. now rewrite Hh, Lh.
  - intros a b Hout. rewrite He, Le.
    + rewrite prescribed_unlinked; [now destruct (_ && _)|].
      destruct (String.eqb_spec a x), (String.eqb_spec b y),
               (String.eqb_spec a y), (String.eqb_spec b x); subst; cbn; auto;
        exfalso; destruct Hout as [F|F]; apply F; cbn; auto.
    + destruct Hout as [F|F]; [left | right]; intros Hin; apply F; now right.
Qed.

Lemma link_consecutive_edges ty l : forall e pre a b post,
  NoDup l -> (forall x, In x l -> has_block e x = true) ->
  l = pre ++ a :: b :: post ->
  edge_type (exec (link_consecutive l ty) e) a b = forward_entry ty /\
  edge_type (exec (link_consecutive l ty) e) b a = backward_entry ty.
Proof.
  induction l as [|x l IH]; intros e pre a b post ND Hex E.
  - destruct pre; discriminate.
  - apply NoDup_cons_iff in ND. destruct ND as [Hnin ND].
    destruct pre as [|p pre]; cbn in E; inversion E; subst.
    + rewrite link_consecutive_cons.
      destruct (link_consecutive_frame ty (b :: post) (exec (linkBlocks a b ty) e))
        as (_ & He).
      rewrite !He by auto.
      destruct (linkBlocks_total a b ty e) as (_ & Le).
      rewrite !Le, !Hex by (cbn; auto). cbn [andb].
      assert (N : a <> b) by (intros ->; apply Hnin; now left).
      now rewrite prescribed_pair_forward, prescribed_pair_backward.
    + destruct (pre ++ a :: b :: post) as [|y rest] eqn:El;
        [destruct pre; discriminate|].
      rewrite link_consecutive_cons. apply (IH _ pre a b post); auto.
      intros z Hz. rewrite (proj1 (linkBlocks_total p y ty e)).
      apply Hex. now right.
Qed.

(** X18.  [linkSelected(type)] with at least two ids selected, all stored
    (the selection is a set, so they are distinct), links every id to the
    next one in the order of selection: each consecutive pair ends with the
    entries the type prescribes; entries with an end outside the selection
    are kept; no block is added or removed; and the selection is emptied.
    With fewer than two ids selected nothing is changed and the selection
    is kept. *)
Theorem linkSelected_links_consecutive e sel ty :
  NoDup sel -> (forall x, In x sel -> has_block e x = true) ->
  let e1 := exec (linkSelected ty sel) e in
  ((2 <= List.length sel)%nat ->
     eval (linkSelected ty sel) e = [] /\
     (forall pre a b post, sel = pre ++ a :: b :: post ->
        edge_type e1 a b = forward_entry ty /\ edge_type e1 b a = backward_entry ty) /\
     (forall a b, ~ In a sel \/ ~ In b sel -> edge_type e1 a b = edge_type e a b) /\
     (forall a, has_block e1 a = has_block e a)) /\
  ((List.length sel < 2)%nat ->
     eval (linkSelected ty sel) e = sel /\ e1 = e).
Proof.
  intros ND Hex e1. unfold e1, linkSelected. split; intros L.
  - assert (T : Nat.ltb (List.length sel) 2 = false) by (apply Nat.ltb_ge; lia).
    rewrite T. run.
    destruct (link_consecutive_frame ty sel e) as (Hh & He).
    split; [reflexivity|]. split; [|split]; auto.
    intros pre a b post E. now apply (link_consecutive_edges ty sel e pre a b post).
  - assert (T : Nat.ltb (List.length sel) 2 = true) by (apply Nat.ltb_lt; lia).
    rewrite T. split; reflexivity.
Qed.

Lemma Set_has_In x s : Set_has x s = true <-> In x s.
Proof.
  unfold Set_has. rewrite existsb_exists. split.
  - intros (y & Hin & E). apply String.eqb_eq in E. now subst.
  - intros Hin. exists x. split; auto. apply String.eqb_refl.
Qed.

Lemma In_Set_delete x y s : In y (Set_delete x s) <-> In y s /\ y <> x.
Proof.
  unfold Set_delete. rewrite filter_In, negb_true_iff, String.eqb_neq.
  split; intros [H N]; split; auto.
Qed.

Lemma Set_delete_absent x s : ~ In x s -> Set_delete x s = s.
Proof.
  intros N. unfold Set_delete. induction s as [|y s IH]; cbn; auto.
  destruct (String.eqb_spec x y) as [->|Ne]; cbn.
  - exfalso. apply N. now left.
  - f_equal. apply IH. intros H. apply N. now right.
Qed.

(** X19.  [selectBlock(id)] without multi-select leaves exactly [id]
    selected, whatever was selected, [id] included.  With multi-select it
    toggles [id] and keeps the rest: [id] is selected afterwards exactly
    when it was not before; the selection stays without repetition;
    toggling twice gives back the same members, and the same selection in
    the same order when [id] was not selected. *)
Theorem selectBlock_toggles id sel :
  selectBlock id false sel = [id] /\
  (forall x, In x (selectBlock id true sel) <->
     (x = id /\ ~ In id sel) \/ (x <> id /\ In x sel)) /\
  (NoDup sel -> NoDup (selectBlock id true sel)) /\
  (forall x, In x (selectBlock id true (selectBlock id true sel)) <-> In x sel) /\
  (~ In id sel -> selectBlock id true (selectBlock id true sel) = sel).
Proof.
  assert (T : forall s x, In x (selectBlock id true s) <->
                (x = id /\ ~ In id s) \/ (x <> id /\ In x s)).
  { intros s x. unfold selectBlock. destruct (Set_has id s) eqn:H.
    - apply Set_has_In in H. rewrite In_Set_delete. split.
      + intros [Hin N]. now right.
      + intros [[-> F]|[N Hin]]; [contradiction | now split].
    - assert (N : ~ In id s) by (rewrite <- Set_has_In; congruence).
      unfold Set_add. rewrite H, in_app_iff. cbn. split.
      + intros [Hin|[<-|[]]]; [right | left; now split].
        split; auto. intros ->. contradiction.
      + intros [[-> _]|[_ Hin]]; auto. }
  split; [reflexivity|]. split; [apply T|]. split; [|split].
  - intros ND. unfold selectBlock. destruct (Set_has id sel) eqn:H.
    + unfold Set_delete. now apply NoDup_filter.
    + unfold Set_add. rewrite H. apply NoDup_app; auto.
      * constructor; [intros [] | constructor].
      * intros x Hx [<-|[]]. apply Set_has_In in Hx. congruence.
  - intros x. rewrite (T (selectBlock id true sel) x), (T sel id), (T sel x).
    destruct (string_dec x id) as [->|N];
      destruct (in_dec string_dec id sel); tauto.
  - intros N. unfold selectBlock at 2.
    assert (H : Set_has id sel = false).
    { destruct (Set_has id sel) eqn:H; auto. apply Set_has_In in H. contradiction. }
    rewrite H. unfold Set_add. rewrite H. unfold selectBlock.
    assert (H2 : Set_has id (sel ++ [id]) = true).
    { apply Set_has_In, in_app_iff. right. now left. }
    rewrite H2. unfold Set_delete. rewrite filter_app. cbn.
    rewrite String.eqb_refl. cbn. rewrite app_nil_r.
    now apply Set_delete_absent.
Qed.

End Selection.

(* ------------------------------------------------------------------ *)
(** ** Listeners *)

Section ListenersFacts.
Import JsMapFacts.
Import EventListeners.

Lemma indexOf_None cb l : indexOf cb l = None <-> ~ In cb l.
Proof.
  induction l as [|c l IH]; cbn; [tauto|].
  destruct (Nat.eqb_spec c cb) as [->|N].
  - split; [discriminate | intros F; exfalso; apply F; now left].
  - destruct (indexOf cb l).
    + split; [discriminate|]. intros F. exfalso. apply F. right.
      destruct (in_dec Nat.eq_dec cb l) as [Hin|Hn]; auto.
      apply IH in Hn. discriminate.
    + split; auto. intros _ [E|Hin]; [congruence|]. now apply IH.
Qed.

Lemma indexOf_splice cb l : forall i,
  indexOf cb l = Some i ->
  exists l1 l2, l = l1 ++ cb :: l2 /\ ~ In cb l1 /\ splice i l = l1 ++ l2.
Proof.
  induction l as [|c l IH]; intros i H; cbn in H; [discriminate|].
  destruct (Nat.eqb_spec c cb) as [->|N].
  - inversion H; subst. exists [], l. repeat split; auto.
  - destruct (indexOf cb l) as [j|] eqn:E; [|discriminate].
    inversion H; subst.
    destruct (IH j eq_refl) as (l1 & l2 & -> & Hn & Hs).
    exists (c :: l1), l2. cbn. rewrite Hs. repeat split; auto.
    intros [F|F]; [congruence | contradiction].
Qed.

Lemma emit_get event (m : EventListeners.t) :
  emit event m = match JsMap.get event m with Some l => l | None => [] end.
Proof.
  unfold emit, JsMap.has. now destruct (JsMap.get event m).
Qed.

(** X20.  The listeners of an event are called in the order of their
    registration.  [on] adds the callback after those registered, also when
    it is registered already (it is then called once per registration);
    [off] removes the first registration of the callback and only that
    one, and does nothing when the callback or the event is not
    registered; neither touches the listeners of another event; so [off]
    after [on] of a callback that was not registered leaves every event
    with the listeners it had. *)
Theorem listeners_on_off (m : EventListeners.t) event cb :
  emit event (on event cb m) = emit event m ++ [cb] /\
  (forall other, other <> event ->
     emit other (on event cb m) = emit other m /\
     emit other (off event cb m) = emit other m) /\
  (~ In cb (emit event m) -> off event cb m = m) /\
  (In cb (emit event m) ->
     exists l1 l2, emit event m = l1 ++ cb :: l2 /\ ~ In cb l1 /\
       emit event (off event cb m) = l1 ++ l2) /\
  (~ In cb (emit event m) ->
     forall ev, emit ev (off event cb (on event cb m)) = emit ev m).
Proof.
  assert (ON : emit event (on event cb m) = emit event m ++ [cb]).
  { rewrite !emit_get. unfold on, JsMap.has.
    destruct (JsMap.get event m) as [l|] eqn:G.
    - rewrite G. now rewrite get_set_eq.
    - rewrite get_set_eq. now rewrite get_set_eq. }
  assert (OTHER : forall other, other <> event ->
            emit other (on event cb m) = emit other m /\
            emit other (off event cb m) = emit other m).
  { intros other N. rewrite !emit_get. split.
    - unfold on, JsMap.has. destruct (JsMap.get event m) as [l|] eqn:G.
      + rewrite G. now rewrite get_set_neq by congruence.
      + rewrite get_set_eq. now rewrite !get_set_neq by congruence.
    - unfold off, JsMap.has. destruct (JsMap.get event m) as [l|] eqn:G; cbn; auto.
      destruct (indexOf cb l); auto. now rewrite get_set_neq by congruence. }
  assert (OFF : forall m' : EventListeners.t, In cb (emit event m') ->
            exists l1 l2, emit event m' = l1 ++ cb :: l2 /\ ~ In cb l1 /\
              emit event (off event cb m') = l1 ++ l2).
  { intros m' Hin. rewrite !emit_get in *. unfold off, JsMap.has.
    destruct (JsMap.get event m') as [l|] eqn:G; [|destruct Hin]. cbn.
    destruct (indexOf cb l) as [i|] eqn:E.
    - destruct (indexOf_splice cb l i E) as (l1 & l2 & El & Hn & Hs).
      exists l1, l2. rewrite get_set_eq. auto.
    - apply indexOf_None in E. contradiction. }
  split; [exact ON|]. split; [exact OTHER|]. split; [|split; [apply OFF|]].
  - intros N. rewrite emit_get in N. unfold off, JsMap.has.
    destruct (JsMap.get event m) as [l|] eqn:G; cbn; auto.
    apply indexOf_None in N. now rewrite N.
  - intros N ev. destruct (String.eqb_spec ev event) as [->|Ne].
    + destruct (OFF (on event cb m)) as (l1 & l2 & El & Hn & ->).
      { rewrite ON. apply in_app_iff. right. now left. }
      rewrite ON in El.
      assert (Hl1 : l1 = emit event m /\ l2 = []).
      { clear - El Hn N. revert l1 El Hn.
        induction (emit event m) as [|c l IH]; intros l1 El Hn.
        - destruct l1 as [|c1 l1]; cbn in El.
          + inversion El. auto.
          + inversion El; subst. destruct l1; discriminate.
        - destruct l1 as [|c1 l1]; cbn in El; inversion El; subst.
          + exfalso. apply N. now left.
          + destruct (IH (fun F => N (or_intror F)) l1 H1) as (-> & ->).
            * intros F. apply Hn. now right.
            * auto. }
      destruct Hl1 as (-> & ->). apply app_nil_r.
    + rewrite (proj2 (OTHER ev Ne)) || idtac.
      destruct (OTHER ev Ne) as (O1 & _).
      assert (O2 : emit ev (off event cb (on event cb m)) = emit ev (on event cb m)).
      { rewrite !emit_get. unfold off, JsMap.has.
        destruct (JsMap.get event (on event cb m)) as [l|]; cbn; auto.
        destruct (indexOf cb l); auto. now rewrite get_set_neq by congruence. }
      now rewrite O2, O1.
Qed.

End ListenersFacts.

(* ------------------------------------------------------------------ *)
(** ** Searching *)

Section SearchFacts.

Lemma prefix_spec sub : forall s,
  String.prefix sub s = true <-> exists post, s = (sub ++ post)%string.
Proof.
  induction sub as [|c sub IH]; intros s.
  - split; [intros _; now exists s | intros _; now destruct s].
  - destruct s as [|d s]; simpl;
      [split; [discriminate | intros (post & E); discriminate]|].
    destruct (Ascii.ascii_dec c d) as [->|N].
    + rewrite IH. split; intros (post & E); exists post; congruence.
    + split; [discriminate | intros (post & E); congruence].
Qed.

Lemma includes_spec sub : forall s,
  includes s sub = true <->
  exists pre post, s = (pre ++ sub ++ post)%string.
Proof.
  induction s as [|c s IH]; cbn [includes].
  - destruct (String.prefix sub "") eqn:P.
    + split; auto. intros _. apply prefix_spec in P. destruct P as (post & E).
      now exists "", post.
    + split; [discriminate|]. intros (pre & post & E).
      destruct pre; cbn in E.
      * assert (T : String.prefix sub "" = true)
          by (apply prefix_spec; now exists post).
        congruence.
      * discriminate.
  - destruct (String.prefix sub (String c s)) eqn:P.
    + split; auto. intros _. apply prefix_spec in P. destruct P as (post & E).
      now exists "", post.
    + rewrite IH. split.
      * intros (pre & post & ->). now exists (String c pre), post.
      * intros (pre & post & E). destruct pre as [|d pre]; cbn in E.
        -- assert (T : String.prefix sub (String c s) = true)
             by (apply prefix_spec; now exists post).
           congruence.
        -- inversion E. now exists pre, post.
Qed.

(** X21.  [searchBlocks(query)] returns, in the order of the store, exactly
    the blocks whose content, in lower case, contains the query, in lower
    case, as a substring; so it finds every block whose content is the
    query itself, and two queries with the same lower case find the same
    blocks.  When the lower case of the empty string is the empty string,
    the empty query returns every block. *)
Theorem searchBlocks_finds_substrings (toLowerCase : string -> string) e query :
  (forall b, In b (searchBlocks toLowerCase query e) <->
     In b (getAllBlocks e) /\
     exists pre post,
       toLowerCase (content b) = (pre ++ toLowerCase query ++ post)%string) /\
  (exists keep, searchBlocks toLowerCase query e = filter keep (getAllBlocks e)) /\
  (forall b, In b (getAllBlocks e) -> content b = query ->
     In b (searchBlocks toLowerCase query e)) /\
  (forall query', toLowerCase query' = toLowerCase query ->
     searchBlocks toLowerCase query' e = searchBlocks toLowerCase query e) /\
  (toLowerCase "" = "" -> searchBlocks toLowerCase "" e = getAllBlocks e).
Proof.
  assert (S : forall b, In b (searchBlocks toLowerCase query e) <->
            In b (getAllBlocks e) /\
            exists pre post,
              toLowerCase (content b) = (pre ++ toLowerCase query ++ post)%string).
  { intros b. unfold searchBlocks. rewrite filter_In, includes_spec. reflexivity. }
  split; [exact S|]. split; [eexists; reflexivity|]. split; [|split].
  - intros b Hin E. apply S. split; auto. exists "", "". rewrite E. cbn.
    clear. induction (toLowerCase query) as [|c s IH]; cbn; congruence.
  - intros query' E. unfold searchBlocks. now rewrite E.
  - intros E. unfold searchBlocks. rewrite E. clear S.
    induction (getAllBlocks e) as [|b bs IH]; cbn; auto.
    assert (T : includes (toLowerCase (content b)) "" = true).
    { apply includes_spec. now exists "", (toLowerCase (content b)). }
    rewrite T. now f_equal.
Qed.

End SearchFacts.

(* ------------------------------------------------------------------ *)
(** ** The blocks of a reachable store *)

Section StoredBlocks.
Context {host : Host}.

Lemma reachable_blocks_ok e : reachable e -> Forall block_ok (getAllBlocks e).
Proof.
  intros R. destruct (reachable_store_ok e R) as [_ F]. rewrite Forall_forall in F.
  apply Forall_forall. intros b Hb. unfold getAllBlocks, JsMap.values in Hb.
  apply in_map_iff in Hb. destruct Hb as (entry & <- & Hin). apply (F entry Hin).
Qed.

Lemma reachable_ids_distinct e : reachable e -> NoDup (map id (getAllBlocks e)).
Proof.
  intros R. destruct (reachable_store_ok e R) as [ND F].
  replace (map id (getAllBlocks e)) with (JsMap.keys (blocks e)); [exact ND|].
  unfold getAllBlocks, JsMap.values, JsMap.keys. rewrite map_map.
  apply map_ext_in. intros kb Hin. rewrite Forall_forall in F. apply (F kb Hin).
Qed.

End StoredBlocks.

(* ------------------------------------------------------------------ *)
(** ** The statements at concrete stores *)

#[local] Existing Instance example_host.

(** The example stores are states of an engine. *)
Lemma ex_two_reachable : reachable ex_two.
Proof.
  exact (reach_createBlock _ "second" "default" None None
           (reach_createBlock _ "first" "default" None None (reach_new 0))).
Defined.

Lemma ex_linked_reachable : reachable ex_linked.
Proof.
  exact (reach_linkBlocks _ "A" "E" "double" ex_two_reachable).
Defined.

(** C1 as stated fails: on two fresh blocks, after
    [linkBlocks("A","E",'reverse')], [getLinkInfo("A","E")] has the ids
    swapped but its type is ['reverse'], not ['single']. *)
Lemma reverse_link_is_reported_as_reverse :
  edge_type ex_two "A" "E" = None /\
  edge_type ex_two "E" "A" = None /\
  getLinkInfo "A" "E" (exec (linkBlocks "A" "E" "reverse") ex_two)
    = Some {| info_type := "reverse"; info_from := "E"; info_to := "A" |} /\
  option_map info_type
    (getLinkInfo "A" "E" (exec (linkBlocks "A" "E" "reverse") ex_two))
    <> Some "single".
Proof.
  repeat split; try reflexivity. vm_compute. discriminate.
Qed.

Lemma getLinkInfo_after_reverse_link_witness :
  "A" <> "E" /\
  getLinkInfo "A" "E" (exec (linkBlocks "A" "E" "reverse") ex_two)
    = Some {| info_type := "reverse"; info_from := "E"; info_to := "A" |}.
Proof.
  split; [discriminate|].
  eapply (getLinkInfo_after_reverse_link ex_two "A" "E");
    try reflexivity; discriminate.
Defined.

(** Why C1 as amended takes two distinct blocks: a block linked to itself
    holds one entry, seen in both directions, and is reported as
    ['double']. *)
Lemma reverse_link_to_itself_is_reported_as_double :
  getLinkInfo "A" "A" (exec (linkBlocks "A" "A" "reverse") ex_two)
    = Some {| info_type := "double"; info_from := "A"; info_to := "A" |}.
Proof. reflexivity. Qed.

(** C2 as stated fails: a document whose record links to an id that no
    record has imports with success and leaves that entry dangling. *)
Lemma import_keeps_dangling_link :
  let e := exec (importFromJSON (json_value doc_dangling)) ex_new in
  eval (importFromJSON (json_value doc_dangling)) ex_new = true /\
  edge_type e "a" "ghost" = Some "single" /\
  has_block e "ghost" = false /\
  ~ links_closed e.
Proof.
  repeat split; try reflexivity.
  intros C. specialize (C "a" "ghost" "single" eq_refl). discriminate.
Qed.

Lemma ex_document_closed :
  match doc_blocks doc_legacy with
  | Some bs => document_closed bs
  | None => False
  end.
Proof.
  intros entry i Hin Hl. cbn in Hin.
  destruct Hin as [<-|[<-|[<-|[]]]]; cbn in Hl |- *.
  - destruct Hl as [E|[E|[]]]; auto.
  - destruct Hl as [E|[E|[]]]; auto.
  - destruct Hl.
Defined.

Lemma mutations_keep_links_closed_witness :
  links_closed ex_linked /\
  links_closed (exec (deleteBlock "A") ex_linked) /\
  edge_type (exec (deleteBlock "A") ex_linked) "E" "A" = None /\
  links_closed (exec (importFromJSON (json_value doc_legacy)) ex_linked).
Proof.
  assert (C0 : links_closed ex_new) by (intros a b t; discriminate).
  assert (C1 : links_closed
                 (exec (createBlock "first" "default" None None) ex_new))
    by apply (mutations_keep_links_closed ex_new C0).
  assert (C2 : links_closed ex_two)
    by apply (mutations_keep_links_closed _ C1).
  assert (C3 : links_closed ex_linked)
    by exact (proj1 (proj2 (mutations_keep_links_closed ex_two C2)) "A" "E" "double").
  destruct (mutations_keep_links_closed ex_linked C3)
    as (_ & _ & _ & _ & Hdel & Hpurge & Himp).
  split; [exact C3|]. split; [apply Hdel|]. split.
  - apply (Hpurge "A" eq_refl).
  - eapply Himp; [reflexivity | reflexivity | exact ex_document_closed].
Defined.

(** C3 as stated fails: of two blocks with the same greatest x, scanned at
    (100,10) and then (100,20), the first scanned gives the y: the new block
    is at (400,10), where the last scanned would give (400,20). *)
Lemma auto_position_tie_keeps_first_scanned :
  map position (getAllBlocks ex_tie)
    = [{| pos_x := 100; pos_y := 10 |}; {| pos_x := 100; pos_y := 20 |}] /\
  position (eval (createBlock "third" "default" None None) ex_tie)
    = {| pos_x := 400; pos_y := 10 |} /\
  autoPosition_as_specified ex_tie = {| pos_x := 400; pos_y := 20 |} /\
  position (eval (createBlock "third" "default" None None) ex_tie)
    <> autoPosition_as_specified ex_tie.
Proof.
  repeat split; try reflexivity. vm_compute. discriminate.
Qed.

Lemma createBlock_auto_position_witness :
  (getAllBlocks ex_new = [] /\
   position (eval (createBlock "c" "default" None None) ex_new)
     = {| pos_x := 50; pos_y := 50 |}) /\
  ((exists b, In b (getAllBlocks ex_two) /\ 0 < pos_x (position b)) /\
   exists l1 b l2,
     getAllBlocks ex_two = l1 ++ b :: l2 /\
     (forall b', In b' l1 -> pos_x (position b') < pos_x (position b)) /\
     (forall b', In b' l2 -> pos_x (position b') <= pos_x (position b)) /\
     position (eval (createBlock "c" "default" None None) ex_two)
       = {| pos_x := pos_x (position b) + defaultSpacing (settings ex_two);
            pos_y := pos_y (position b) |}).
Proof.
  split.
  - split; [reflexivity|].
    now apply (createBlock_auto_position ex_new "c" "default").
  - assert (P : exists b, In b (getAllBlocks ex_two) /\ 0 < pos_x (position b)).
    { eexists. split; [left; reflexivity | reflexivity]. }
    split; [exact P|].
    now apply (createBlock_auto_position ex_two "c" "default").
Defined.

(** C4 as stated fails: with [gridSize] 20 the coordinate -30, half way
    between -40 and -20, is stored as -20; rounding the half away from zero
    gives -40. *)
Lemma snap_of_negative_half_goes_up :
  gridSize (settings ex_two) = 20 /\
  (exists blk,
     getBlock "A" (exec (setBlockPosition "A" (-30) 0 true) ex_two) = Some blk /\
     pos_x (position blk) == -20 /\
     ~ pos_x (position blk) == snap_as_specified 20 (-30)) /\
  snap_as_specified 20 (-30) == -40.
Proof.
  split; [reflexivity|]. split.
  - eexists. split; [reflexivity|]. split; [reflexivity|].
    vm_compute. discriminate.
  - reflexivity.
Qed.

Lemma setBlockPosition_snaps_to_grid_witness :
  0 < gridSize (settings ex_two) /\
  exists blk,
    getBlock "A" (exec (setBlockPosition "A" 27 33 true) ex_two) = Some blk /\
    pos_x (position blk) == 20 /\ pos_y (position blk) == 40.
Proof.
  split; [reflexivity|].
  eapply (setBlockPosition_snaps_to_grid ex_two "A" _ 27 33);
    reflexivity.
Defined.

Lemma linkBlocks_replaces_and_is_idempotent_witness :
  ("single" = "single" \/ "single" = "reverse" \/ "single" = "double") /\
  edge_type (exec (linkBlocks "A" "E" "single") ex_linked) "A" "E" = Some "single" /\
  edge_type (exec (linkBlocks "A" "E" "single") ex_linked) "E" "A" = None /\
  same_edges
    (exec (linkBlocks "A" "E" "single") (exec (linkBlocks "A" "E" "single") ex_linked))
    (exec (linkBlocks "A" "E" "single") ex_linked).
Proof.
  split; [now left|].
  destruct (getBlock "A" ex_linked) as [fa|] eqn:GA;
    [|vm_compute in GA; discriminate].
  destruct (getBlock "E" ex_linked) as [fb|] eqn:GB;
    [|vm_compute in GB; discriminate].
  pose proof (linkBlocks_replaces_and_is_idempotent ex_linked "A" "E" "single" fa fb
                GA GB (or_introl eq_refl)) as H.
  cbv zeta in H. destruct H as (_ & Hpair & _ & _ & _ & Hidem).
  destruct Hpair as (Hf & Hb); [discriminate|].
  split; [exact Hf|]. split; [exact Hb|]. exact Hidem.
Defined.


Lemma doc_legacy_shaped :
  match doc_blocks doc_legacy with
  | Some bs => document_shaped bs
  | None => False
  end.
Proof.
  repeat constructor; discriminate.
Defined.


(** Left out of C3 as amended: a store whose only block is at (0,10) has no
    block to the right of x = 0, the scan selects none and the new block is
    at (defaultSpacing, 50). *)
Lemma auto_position_with_no_block_right_of_zero :
  let e := exec (createBlock "first" "default"
                   (Some {| pos_x := 0; pos_y := 10 |}) None) ex_new in
  map position (getAllBlocks e) = [{| pos_x := 0; pos_y := 10 |}] /\
  position (eval (createBlock "second" "default" None None) e)
    = {| pos_x := 300; pos_y := 50 |}.
Proof.
  split; reflexivity.
Qed.

(** C8 as stated fails: a document whose [blocks] array has a [null] after
    a record makes the call return [false] and leaves the record's block
    in the store. *)
Lemma failed_import_leaves_blocks :
  let e := exec (importFromJSON (json_value doc_partial)) ex_two in
  eval (importFromJSON (json_value doc_partial)) ex_two = false /\
  has_block e "a" = true /\
  blocks e <> [].
Proof.
  repeat split; try reflexivity. vm_compute. discriminate.
Qed.

Lemma importFromJSON_fails_after_clearing_witness :
  document_shaped [block_object (ex_record "a" (Some []))] /\
  eval (importFromJSON (json_value doc_partial)) ex_two = false /\
  eval (importFromJSON (json_value
          (truncated doc_partial [block_object (ex_record "a" (Some []))]))) ex_two
    = true /\
  blocks (exec (importFromJSON (json_value doc_partial)) ex_two)
    = blocks (exec (importFromJSON (json_value
                (truncated doc_partial [block_object (ex_record "a" (Some []))])))
              ex_two).
Proof.
  assert (S : document_shaped [block_object (ex_record "a" (Some []))])
    by (repeat constructor).
  split; [exact S|].
  destruct (importFromJSON_fails_after_clearing ex_two) as (_ & _ & _ & Hbad & _).
  apply (Hbad doc_partial [block_object (ex_record "a" (Some []))] block_null []).
  - reflexivity.
  - exact S.
  - now left.
Defined.

Lemma getConnectionPoint_crosses_boundary_witness :
  (0 < rect_width rect_A /\ 0 < rect_height rect_A) /\
  pt_x (getConnectionPoint rect_A rect_B container_at_origin)
    == rect_left rect_A + rect_width rect_A + (0 - 0) /\
  rect_top rect_A + (0 - 0)
    <= pt_y (getConnectionPoint rect_A rect_B container_at_origin) /\
  pt_y (getConnectionPoint rect_A rect_B container_at_origin)
    <= rect_top rect_A + rect_height rect_A + (0 - 0).
Proof.
  split; [split; reflexivity|].
  destruct (getConnectionPoint_crosses_boundary rect_A rect_B container_at_origin)
    as (Hh & _ & _).
  - reflexivity.
  - reflexivity.
  - intros [E _]. vm_compute in E. discriminate.
  - destruct Hh as (_ & _ & _ & Hright & _ & Hlo & Hhi); [reflexivity|].
    split; [apply Hright; reflexivity|]. split; [exact Hlo | exact Hhi].
Defined.

Lemma linkBlocks_unknown_intent_unlinks_witness :
  ("bogus" <> "single" /\ "bogus" <> "reverse" /\ "bogus" <> "double") /\
  edge_type ex_linked "A" "E" = Some "double" /\
  eval (linkBlocks "A" "E" "bogus") ex_linked = true /\
  edge_type (exec (linkBlocks "A" "E" "bogus") ex_linked) "A" "E" = None /\
  edge_type (exec (linkBlocks "A" "E" "bogus") ex_linked) "E" "A" = None /\
  published (exec (linkBlocks "A" "E" "bogus") ex_linked)
    = published ex_linked ++ [blocksLinked "A" "E" "bogus"].
Proof.
  split; [repeat split; discriminate|].
  split; [vm_compute; reflexivity|].
  destruct (getBlock "A" ex_linked) as [fa|] eqn:GA;
    [|vm_compute in GA; discriminate].
  destruct (getBlock "E" ex_linked) as [fb|] eqn:GB;
    [|vm_compute in GB; discriminate].
  assert (N1 : "bogus" <> "single") by discriminate.
  assert (N2 : "bogus" <> "reverse") by discriminate.
  assert (N3 : "bogus" <> "double") by discriminate.
  pose proof (linkBlocks_unknown_intent_unlinks ex_linked "A" "E" "bogus" fa fb
                GA GB N1 N2 N3) as H.
  cbv zeta in H.
  destruct H as (Hret & Hf & Hb & _ & Hpub & _).
  split; [exact Hret|]. split; [exact Hf|]. split; [exact Hb | exact Hpub].
Defined.


(** *** Further statements at concrete stores *)

Lemma unknown_id_changes_nothing_witness :
  getBlock "zz" ex_two = None /\
  eval (deleteBlock "zz") ex_two = false /\
  exec (setBlockPosition "zz" 10 10 true) ex_two = ex_two /\
  exec (linkBlocks "A" "zz" "single") ex_two = ex_two.
Proof.
  split; [reflexivity|].
  destruct (unknown_id_changes_nothing ex_two "zz" eq_refl)
    as (Hp & _ & _ & (Hd & _) & Hl & _).
  split; [exact Hd|]. split; [apply Hp|].
  exact (proj2 (proj2 (Hl "A" "single"))).
Defined.

Lemma setBlockSize_clamps_to_minimum_witness :
  exists blk',
    getBlock "A" (exec (setBlockSize "A" 10 500) ex_two) = Some blk' /\
    width (size blk') = 150 /\ height (size blk') == 500.
Proof.
  pose proof (setBlockSize_clamps_to_minimum ex_two "A" _ 10 500 eq_refl) as H.
  cbv zeta in H.
  destruct H as (_ & (blk' & G & _ & _ & Hw & _ & _ & _ & _ & Hh & _) & _).
  exists blk'. split; [exact G|]. split.
  - apply Hw. vm_compute. discriminate.
  - apply Hh. vm_compute. discriminate.
Defined.

Lemma createBlock_stores_block_as_given_witness :
  has_block ex_two "I" = false /\
  size (eval (createBlock "c" "note" None None) ex_two)
    = {| width := 250; height := 250 |} /\
  blocks (exec (createBlock "c" "note" None None) ex_two)
    = blocks ex_two ++ [("I", eval (createBlock "c" "note" None None) ex_two)].
Proof.
  pose proof (createBlock_stores_block_as_given ex_two "c" "note" None None) as H.
  cbv zeta in H.
  destruct H as (_ & _ & _ & _ & _ & _ & _ & Hs & _ & _ & Hb & _).
  split; [reflexivity|]. split; [exact (Hs eq_refl) | exact (Hb eq_refl)].
Defined.

Lemma setBlockPosition_snap_is_idempotent_witness :
  0 < gridSize (settings ex_two) /\
  exists b1,
    getBlock "A" (exec (setBlockPosition "A" 27 33 true) ex_two) = Some b1 /\
    exists b2,
      getBlock "A" (exec (setBlockPosition "A" (pos_x (position b1))
                            (pos_y (position b1)) true)
                      (exec (setBlockPosition "A" 27 33 true) ex_two)) = Some b2 /\
      pos_x (position b2) == pos_x (position b1) /\
      pos_y (position b2) == pos_y (position b1).
Proof.
  split; [reflexivity|].
  pose proof (setBlockPosition_snap_is_idempotent ex_two "A" _ 27 33
                eq_refl eq_refl) as H.
  cbv zeta in H. exact (proj1 H).
Defined.

Lemma getLinkInfo_mirror_witness :
  getLinkInfo "E" "A" (exec (linkBlocks "A" "E" "single") ex_two)
    = Some {| info_type := "reverse"; info_from := "A"; info_to := "E" |} /\
  edge_type (exec (linkBlocks "A" "E" "single") ex_two) "E" "A" = None.
Proof.
  destruct (getLinkInfo_mirror (exec (linkBlocks "A" "E" "single") ex_two) "A" "E")
    as (Hm & Hi).
  split.
  - rewrite Hm. reflexivity.
  - destruct (Hi {| info_type := "single"; info_from := "A"; info_to := "E" |}
                eq_refl) as (_ & _ & Hn).
    apply Hn. discriminate.
Defined.

Lemma getLinkInfo_recovers_intent_witness :
  "A" <> "E" /\
  getLinkInfo "A" "E" (exec (linkBlocks "A" "E" "double") ex_two)
    = Some {| info_type := "double"; info_from := "A"; info_to := "E" |} /\
  getLinkInfo "E" "A" (exec (linkBlocks "A" "E" "double") ex_two)
    = Some {| info_type := "double"; info_from := "E"; info_to := "A" |}.
Proof.
  assert (N : "A" <> "E") by discriminate.
  split; [exact N|].
  pose proof (getLinkInfo_recovers_intent ex_two "A" "E" _ _ "double"
                eq_refl eq_refl N (or_intror (or_intror eq_refl))) as H.
  cbv zeta in H. destruct H as (H1 & H2).
  split; [exact H1|]. now apply H2.
Defined.

Lemma deleteBlock_removes_block_and_entries_witness :
  eval (deleteBlock "A") ex_linked = true /\
  getBlock "A" (exec (deleteBlock "A") ex_linked) = None /\
  JsMap.keys (blocks (exec (deleteBlock "A") ex_linked)) = ["E"].
Proof.
  destruct (getBlock "A" ex_linked) as [blk|] eqn:G;
    [|vm_compute in G; discriminate].
  pose proof (deleteBlock_removes_block_and_entries ex_linked "A" blk G) as H.
  cbv zeta in H. destruct H as (H1 & H2 & H3 & _).
  split; [exact H1|]. split; [exact H2|]. rewrite H3. vm_compute. reflexivity.
Defined.

Lemma incoming_outgoing_links_witness :
  reachable ex_linked /\
  (forall b, In b (getOutgoingLinks "A" ex_linked) <->
     getBlock (id b) ex_linked = Some b /\ edge_type ex_linked "A" (id b) <> None) /\
  getIncomingLinks "A" (exec (deleteBlock "A") ex_linked) = [].
Proof.
  pose proof ex_linked_reachable as R.
  split; [exact R|].
  destruct (incoming_outgoing_links ex_linked R) as (_ & Ho & _ & Hd).
  split; [apply Ho | apply Hd; reflexivity].
Defined.

Lemma arrangeBlocks_lays_out_grid_witness :
  reachable ex_two /\ (0 < 1)%nat /\ 0 < gridSize (settings ex_two) /\
  exists b',
    getBlock "E" (exec (arrangeBlocks 1) ex_two) = Some b' /\
    pos_x (position b') == 60 /\ pos_y (position b') == 360.
Proof.
  pose proof ex_two_reachable as R.
  assert (C : (0 < 1)%nat) by (apply Nat.lt_0_1).
  split; [exact R|]. split; [exact C|]. split; [reflexivity|].
  pose proof (arrangeBlocks_lays_out_grid ex_two 1 R C eq_refl) as H.
  cbv zeta in H. destruct H as (H & _).
  destruct (H 1%nat _ eq_refl) as (b' & G & _ & _ & _ & _ & _ & Hd).
  destruct Hd as (Hx & Hy); [reflexivity | reflexivity |].
  exists b'. split; [exact G|]. split; [rewrite Hx | rewrite Hy]; reflexivity.
Defined.

Lemma createBlock_auto_position_is_rightmost_witness :
  getAllBlocks ex_two <> [] /\
  (forall b, In b (getAllBlocks ex_two) ->
     pos_x (position b) + 300
       <= pos_x (position (eval (createBlock "c" "default" None None) ex_two))).
Proof.
  assert (N : getAllBlocks ex_two <> []) by (vm_compute; discriminate).
  split; [exact N|].
  pose proof (createBlock_auto_position_is_rightmost ex_two "c" "default") as H.
  cbv zeta in H. destruct H as (H & _). destruct (H N) as (Hall & _). exact Hall.
Defined.

Lemma importFromJSON_merges_settings_witness :
  let data :=
    {| doc_blocks := Some [];
       doc_settings := Some {| set_gridSize := Some 10; set_defaultSpacing := None;
                               set_minBlockWidth := None; set_minBlockHeight := None |};
       doc_exportedAt := None |} in
  gridSize (settings (exec (importFromJSON (json_value data)) ex_two)) = 10 /\
  defaultSpacing (settings (exec (importFromJSON (json_value data)) ex_two)) = 300.
Proof.
  intros data.
  pose proof (importFromJSON_merges_settings ex_two data) as H.
  cbv zeta in H. destruct H as (_ & H & _).
  destruct (H _ eq_refl) as (Hg & Hs & _).
  split; [exact Hg | exact Hs].
Defined.

Lemma import_stores_records_witness :
  eval (importFromJSON (json_value doc_legacy)) ex_two = true /\
  exists blk,
    getBlock "c" (exec (importFromJSON (json_value doc_legacy)) ex_two) = Some blk /\
    content blk = "text" /\
    size blk = {| width := 250; height := 150 |} /\
    links blk = [].
Proof.
  pose proof (import_stores_records ex_two doc_legacy _ eq_refl doc_legacy_shaped)
    as H.
  cbv zeta in H. destruct H as (Hret & _ & _ & Hrec).
  split; [exact Hret|].
  destruct (Hrec
              [block_object (ex_record "a" (Some [link_string "b"; link_string "c"]));
               block_object (ex_record "b" (Some [link_object "a" (Some "double") None;
                                                  link_object "c" None None]))]
              (ex_record "c" None) [] eq_refl)
    as (blk & G & _ & Hc & _ & _ & Hs & _ & Hl).
  { intros entry []. }
  exists blk. split; [exact G|]. split; [exact Hc|]. split; [exact Hs|].
  apply Hl. reflexivity.
Defined.

Lemma reachable_blocks_keyed_by_id_witness :
  reachable ex_linked /\
  NoDup (map id (getAllBlocks ex_linked)) /\
  (forall a b, getBlock a ex_linked = Some b -> id b = a).
Proof.
  pose proof ex_linked_reachable as R.
  split; [exact R|].
  destruct (reachable_blocks_keyed_by_id ex_linked R) as (Hk & Hn & _).
  split; [exact Hn | exact Hk].
Defined.

Lemma import_then_export_returns_records_witness :
  let data := eval exportToJSON ex_linked in
  eval (importFromJSON (json_value data)) ex_new = true /\
  getAllBlocks (exec (importFromJSON (json_value data)) ex_new)
    = getAllBlocks ex_linked /\
  doc_blocks (eval exportToJSON (exec (importFromJSON (json_value data)) ex_new))
    = doc_blocks data.
Proof.
  intros data.
  pose proof ex_linked_reachable as R.
  pose proof (reachable_ids_distinct ex_linked R) as Hn.
  assert (D : doc_blocks data
              = Some (map (fun b => block_object (Block_toJSON b))
                        (getAllBlocks ex_linked)))
    by (vm_compute; reflexivity).
  exact (import_then_export_returns_records ex_new data (getAllBlocks ex_linked)
           Hn (reachable_blocks_ok ex_linked R) D).
Defined.

Lemma edited_store_has_paired_edges_witness :
  edited ex_linked /\ edge_type ex_linked "E" "A" = Some "double".
Proof.
  assert (E : edited ex_linked).
  { apply edit_linkBlocks.
    apply edit_createBlock;
      [apply edit_createBlock; [apply edit_new | reflexivity] | reflexivity]. }
  split; [exact E|].
  destruct (edited_store_has_paired_edges ex_linked E) as (_ & _ & Hd & _).
  apply Hd. reflexivity.
Defined.

Lemma linkSelected_links_consecutive_witness :
  NoDup ["A"; "E"] /\
  eval (linkSelected "single" ["A"; "E"]) ex_two = [] /\
  edge_type (exec (linkSelected "single" ["A"; "E"]) ex_two) "A" "E" = Some "single" /\
  edge_type (exec (linkSelected "single" ["A"; "E"]) ex_two) "E" "A" = None.
Proof.
  assert (N : NoDup ["A"; "E"]).
  { apply NoDup_cons; [intros [H|[]]; discriminate|].
    apply NoDup_cons; [intros [] | apply NoDup_nil]. }
  split; [exact N|].
  pose proof (linkSelected_links_consecutive ex_two ["A"; "E"] "single" N) as H.
  cbv zeta in H. destruct H as (H & _).
  { intros x [<-|[<-|[]]]; reflexivity. }
  destruct H as (Hsel & Hpair & _); [apply le_n|].
  destruct (Hpair [] "A" "E" [] eq_refl) as (Hf & Hb).
  split; [exact Hsel|]. split; [exact Hf | exact Hb].
Defined.

Lemma selectBlock_toggles_witness :
  ~ In "E" ["A"] /\
  selectBlock "E" true (selectBlock "E" true ["A"]) = ["A"].
Proof.
  assert (N : ~ In "E" ["A"]) by (intros [H|[]]; discriminate).
  split; [exact N|].
  destruct (selectBlock_toggles "E" ["A"]) as (_ & _ & _ & _ & H).
  exact (H N).
Defined.

Lemma listeners_on_off_witness :
  let m := EventListeners.on "blockCreated" 1 JsMap.empty in
  ~ In 2%nat (EventListeners.emit "blockCreated" m) /\
  forall ev,
    EventListeners.emit ev
      (EventListeners.off "blockCreated" 2 (EventListeners.on "blockCreated" 2 m))
      = EventListeners.emit ev m.
Proof.
  intros m.
  assert (N : ~ In 2%nat (EventListeners.emit "blockCreated" m))
    by (intros [H|[]]; discriminate).
  split; [exact N|].
  destruct (listeners_on_off m "blockCreated" 2) as (_ & _ & _ & _ & H).
  exact (H N).
Defined.

Lemma searchBlocks_finds_substrings_witness :
  ex_toLowerCase "" = "" /\
  searchBlocks ex_toLowerCase "" ex_two = getAllBlocks ex_two /\
  searchBlocks ex_toLowerCase "FIRST" ex_two = searchBlocks ex_toLowerCase "first" ex_two.
Proof.
  split; [reflexivity|].
  split.
  - destruct (searchBlocks_finds_substrings ex_toLowerCase ex_two "")
      as (_ & _ & _ & _ & H).
    exact (H eq_refl).
  - destruct (searchBlocks_finds_substrings ex_toLowerCase ex_two "first")
      as (_ & _ & _ & H & _).
    exact (H "FIRST" eq_refl).
Defined.
